(** * Pattern-dictionary feed: keyspace model, cursor and candidate generator

    A shallow embedding of [src/feeds/feed_pattern_dict.c] (with the
    declarations of [feed_pattern_dict.h]) and the properties of its
    pattern compiler, word index, keyspace arithmetic, odometer conversion,
    candidate generator and enumeration cursor.

    Conventions of the embedding:
    - [u32], [u64] and [size_t] values are integers of [Z]; every place where
      the C code can wrap or narrow is written with [wrap32] / [wrap64];
    - a [u8] or [char] is an [ascii]; a C string is the list of its characters
      before the terminating NUL, so [strlen] is [length];
    - an array together with its fill count is the list of its filled
      entries; fixed-size scratch arrays ([mask_indices], the custom charset
      buffers) are lists of their full size, updated in place;
    - a computation that leaves defined C behaviour (a read outside an
      object, an overlapping [memcpy]) is the outcome [Undefined]. *)

From Stdlib Require Import ZArith Lia Bool Ascii String.
From stdpp Require Import base numbers list strings.
Import ListNotations.

Local Open Scope Z_scope.

#[local] Unset Default Proof Using.

(** ** Machine integers *)

Definition UINT64_MAX : Z := 2 ^ 64 - 1.

(** [size_t] is 64 bits wide on the hosts the feed is built for. *)
Definition SIZE_MAX : Z := 2 ^ 64 - 1.

Definition wrap32 (z : Z) : Z := z mod 2 ^ 32.
Definition wrap64 (z : Z) : Z := z mod 2 ^ 64.

Definition is_u32 (z : Z) : Prop := 0 <= z < 2 ^ 32.
Definition is_u64 (z : Z) : Prop := 0 <= z < 2 ^ 64.

(** The conversion [(int) x] of a [u32]. *)
Definition to_int (z : Z) : Z := if z <? 2 ^ 31 then z else z - 2 ^ 32.

(** ** Constants of [feed_pattern_dict.h] *)

Definition PATTERN_MAX_POSITIONS : Z := 32.

Definition CS_LOWER_LEN : Z := 26.
Definition CS_UPPER_LEN : Z := 26.
Definition CS_DIGIT_LEN : Z := 10.
Definition CS_SPECIAL_LEN : Z := 33.
Definition CS_HEX_LOW_LEN : Z := 16.
Definition CS_HEX_UP_LEN : Z := 16.
Definition CS_BINARY_LEN : Z := 256.
Definition CS_ALL_LEN : Z :=
  CS_LOWER_LEN + CS_UPPER_LEN + CS_DIGIT_LEN + CS_SPECIAL_LEN.

Definition CS_CUSTOM_MAX : Z := 256.
Definition CUSTOM_CHARSET_COUNT : Z := 4.

(** ** Data model *)

Definition byte : Type := ascii.

Inductive pattern_pos_type : Type :=
  | POS_LOWER | POS_UPPER | POS_DIGIT | POS_SPECIAL | POS_ALL
  | POS_HEX_LOW | POS_HEX_UP | POS_BINARY
  | POS_CUSTOM_1 | POS_CUSTOM_2 | POS_CUSTOM_3 | POS_CUSTOM_4
  | POS_WORD | POS_LITERAL.

Definition is_word (t : pattern_pos_type) : bool :=
  match t with POS_WORD => true | _ => false end.

(** The [charset] field of a position is a pointer: into one of the built-in
    tables of the context, into one of its custom buffers, to the position's
    own [literal_char], or [NULL]. *)
Inductive charset_ptr : Type :=
  | PtrNull
  | PtrLower | PtrUpper | PtrDigit | PtrSpecial | PtrAll
  | PtrHexLow | PtrHexUp | PtrBinary
  | PtrCustom (slot : nat)
  | PtrLiteral.

Record pattern_position : Type := mkPos {
  type : pattern_pos_type;
  literal_char : byte;
  charset_len : Z;
  charset : charset_ptr
}.

(** [pd_feed_global_t]. [positions] holds [positions[0 .. num_positions)];
    [word_offsets] and [word_lengths] hold the entries pass 2 has stored. *)
Record pd_feed_global : Type := mkGlobal {
  positions : list pattern_position;
  word_position : Z;
  prefix_len : Z;
  suffix_len : Z;
  cs_custom : list (list byte);
  cs_custom_len : list Z;
  cs_custom_defined : list bool;
  word_count : Z;
  mask_keyspace : Z;
  total_keyspace : Z;
  word_offsets : list Z;
  word_lengths : list Z
}.

Definition num_positions (ctx : pd_feed_global) : Z :=
  Z.of_nat (length (positions ctx)).

(** [pd_feed_thread_t]: the mapped word list and the cursor. *)
Record pd_feed_thread : Type := mkThread {
  fd_mem : list byte;
  fd_len : Z;
  current_word_idx : Z;
  current_mask_idx : Z;
  current_offset : Z;
  mask_indices : list Z
}.

(** The calls of [error_set], named after the failure each one reports. *)
Inductive pd_error : Type :=
  | InvalidSlot
  | CharsetDanglingEscape
  | UndefinedReference
  | CharsetSpecifierInvalid
  | EmptyCharset
  | PatternTooLong
  | DanglingEscape
  | CustomNotDefined (slot : nat)
  | SpecifierInvalid
  | WordPlaceholderDuplicated
  | WordPlaceholderMissing
  | EmptyWordlist
  | CapacityExceeded
  | MissingOptionValue
  | UsageError
  | EmptyFile
  | OffsetOutOfRange.

Inductive outcome (A : Type) : Type :=
  | Ok (a : A)
  | Err (e : pd_error)
  | Undefined.

Arguments Ok {A} a.
Arguments Err {A} e.
Arguments Undefined {A}.

#[global] Instance outcome_bind : MBind outcome := fun A B k m =>
  match m with
  | Ok a => k a
  | Err e => Err e
  | Undefined => Undefined
  end.

(** A read [a[i]] of an array: outside the array the behaviour is undefined. *)
Definition rd {A : Type} (a : list A) (i : Z) : outcome A :=
  if (0 <=? i) then
    match a !! Z.to_nat i with
    | Some x => Ok x
    | None => Undefined
    end
  else Undefined.

(** ** Built-in character sets *)

Definition CHARSET_LOWER : list byte :=
  list_ascii_of_string "abcdefghijklmnopqrstuvwxyz"%string.
Definition CHARSET_UPPER : list byte :=
  list_ascii_of_string "ABCDEFGHIJKLMNOPQRSTUVWXYZ"%string.
Definition CHARSET_DIGIT : list byte :=
  list_ascii_of_string "0123456789"%string.
Definition CHARSET_SPECIAL : list byte :=
  list_ascii_of_string " !"%string ++ [ascii_of_nat 34] ++
  list_ascii_of_string "#$%&'()*+,-./:;<=>?@[\]^_`{|}~"%string.
Definition CHARSET_HEX_LOW : list byte :=
  list_ascii_of_string "0123456789abcdef"%string.
Definition CHARSET_HEX_UP : list byte :=
  list_ascii_of_string "0123456789ABCDEF"%string.
Definition CHARSET_BINARY : list byte :=
  map ascii_of_nat (seq 0 256).

(** The ["all"] table [init_charsets] builds in [ctx->cs_all]. *)
Definition CHARSET_ALL : list byte :=
  CHARSET_LOWER ++ CHARSET_UPPER ++ CHARSET_DIGIT ++ CHARSET_SPECIAL.

Definition char_code (c : ascii) : Z := Z.of_N (N_of_ascii c).

Definition NL : byte := ascii_of_nat 10.
Definition CR : byte := ascii_of_nat 13.

(** The context after [memset (ctx, 0, ...)] and [init_charsets]: the
    built-in tables are the constants above and are never written again, so
    they are read from the constants; the custom slots are zeroed and
    undefined. *)
Definition init_charsets : pd_feed_global :=
  {| positions := [];
     word_position := 0;
     prefix_len := 0;
     suffix_len := 0;
     cs_custom := replicate 4 (replicate 256 (ascii_of_nat 0));
     cs_custom_len := replicate 4 0;
     cs_custom_defined := replicate 4 false;
     word_count := 0;
     mask_keyspace := 0;
     total_keyspace := 0;
     word_offsets := [];
     word_lengths := [] |}.

(** ** Custom charset definition: [parse_custom_charset] *)

(** [memcpy (dst + off, src, n)] on the contents of the two objects. *)
Definition memcpy (dst : list byte) (off : Z) (src : list byte) (n : Z)
  : outcome (list byte) :=
  if (0 <=? off) && (0 <=? n) && (n <=? Z.of_nat (length src))
     && (off + n <=? Z.of_nat (length dst))
  then Ok (take (Z.to_nat off) dst ++ take (Z.to_nat n) src
           ++ drop (Z.to_nat (off + n)) dst)
  else Undefined.

(** The block under [// Copy charset]. [aliased] tells that [src] is the
    buffer being written ([ctx->cs_custom[cs_idx]] referenced by its own
    definition), where a copy onto overlapping bytes is undefined. *)
Definition copy_charset (cs_buf : list byte) (cs_len : Z)
    (src : list byte) (aliased : bool) (src_len : Z)
  : outcome (list byte * Z) :=
  if 0 <? src_len then
    let copy_len :=
      if cs_len + src_len <=? CS_CUSTOM_MAX then src_len
      else CS_CUSTOM_MAX - cs_len in
    if aliased && (cs_len <? copy_len) then Undefined
    else
      buf ← memcpy cs_buf cs_len src copy_len;
      Ok (buf, cs_len + copy_len)
  else Ok (cs_buf, cs_len).

(** One guarded [memcpy] of the [case 'a'] branch. *)
Definition add_if_fits (st : list byte * Z) (src : list byte) (src_len : Z)
  : outcome (list byte * Z) :=
  let '(cs_buf, cs_len) := st in
  if cs_len + src_len <=? CS_CUSTOM_MAX then
    buf ← memcpy cs_buf cs_len src src_len;
    Ok (buf, cs_len + src_len)
  else Ok (cs_buf, cs_len).

(** The [switch (spec)] of [parse_custom_charset] with the copy that
    follows it. *)
Definition cs_expand (ctx : pd_feed_global) (cs_idx : nat) (spec : ascii)
    (cs_buf : list byte) (cs_len : Z) : outcome (list byte * Z) :=
  if (spec =? "l")%char then
    copy_charset cs_buf cs_len CHARSET_LOWER false CS_LOWER_LEN
  else if (spec =? "u")%char then
    copy_charset cs_buf cs_len CHARSET_UPPER false CS_UPPER_LEN
  else if (spec =? "d")%char then
    copy_charset cs_buf cs_len CHARSET_DIGIT false CS_DIGIT_LEN
  else if (spec =? "s")%char then
    copy_charset cs_buf cs_len CHARSET_SPECIAL false CS_SPECIAL_LEN
  else if (spec =? "h")%char then
    copy_charset cs_buf cs_len CHARSET_HEX_LOW false CS_HEX_LOW_LEN
  else if (spec =? "H")%char then
    copy_charset cs_buf cs_len CHARSET_HEX_UP false CS_HEX_UP_LEN
  else if (spec =? "b")%char then
    copy_charset cs_buf cs_len CHARSET_BINARY false CS_BINARY_LEN
  else if (spec =? "a")%char then
    st ← add_if_fits (cs_buf, cs_len) CHARSET_LOWER CS_LOWER_LEN;
    st ← add_if_fits st CHARSET_UPPER CS_UPPER_LEN;
    st ← add_if_fits st CHARSET_DIGIT CS_DIGIT_LEN;
    add_if_fits st CHARSET_SPECIAL CS_SPECIAL_LEN
  else if (49 <=? char_code spec) && (char_code spec <=? 52) then
    let ref_idx := Z.to_nat (char_code spec - 49) in
    defined ← rd (cs_custom_defined ctx) (Z.of_nat ref_idx);
    if negb defined then Err UndefinedReference
    else
      src_len ← rd (cs_custom_len ctx) (Z.of_nat ref_idx);
      if Nat.eqb ref_idx cs_idx then
        copy_charset cs_buf cs_len cs_buf true src_len
      else
        src ← rd (cs_custom ctx) (Z.of_nat ref_idx);
        copy_charset cs_buf cs_len src false src_len
  else if (spec =? "?")%char then
    if cs_len <? CS_CUSTOM_MAX then
      Ok (<[Z.to_nat cs_len := "?"%char]> cs_buf, cs_len + 1)
    else Ok (cs_buf, cs_len)
  else Err CharsetSpecifierInvalid.

(** The [while (i < def_len && cs_len < CS_CUSTOM_MAX)] loop; [cs_def] is
    the part of the definition from index [i] on. *)
Fixpoint cs_scan (ctx : pd_feed_global) (cs_idx : nat) (cs_def : list ascii)
    (cs_buf : list byte) (cs_len : Z) : outcome (list byte * Z) :=
  match cs_def with
  | [] => Ok (cs_buf, cs_len)
  | c :: rest =>
    if negb (cs_len <? CS_CUSTOM_MAX) then Ok (cs_buf, cs_len)
    else if (c =? "?")%char then
      match rest with
      | [] => Err CharsetDanglingEscape
      | spec :: rest' =>
        st ← cs_expand ctx cs_idx spec cs_buf cs_len;
        cs_scan ctx cs_idx rest' st.1 st.2
      end
    else cs_scan ctx cs_idx rest (<[Z.to_nat cs_len := c]> cs_buf) (cs_len + 1)
  end.

Definition parse_custom_charset (ctx : pd_feed_global) (cs_idx : Z)
    (cs_def : list ascii) : outcome pd_feed_global :=
  if (cs_idx <? 0) || (CUSTOM_CHARSET_COUNT <=? cs_idx) then Err InvalidSlot
  else
    let k := Z.to_nat cs_idx in
    cs_buf ← rd (cs_custom ctx) cs_idx;
    st ← cs_scan ctx k cs_def cs_buf 0;
    if st.2 =? 0 then Err EmptyCharset
    else
      Ok {| positions := positions ctx;
            word_position := word_position ctx;
            prefix_len := prefix_len ctx;
            suffix_len := suffix_len ctx;
            cs_custom := <[k := st.1]> (cs_custom ctx);
            cs_custom_len := <[k := st.2]> (cs_custom_len ctx);
            cs_custom_defined := <[k := true]> (cs_custom_defined ctx);
            word_count := word_count ctx;
            mask_keyspace := mask_keyspace ctx;
            total_keyspace := total_keyspace ctx;
            word_offsets := word_offsets ctx;
            word_lengths := word_lengths ctx |}.

(** ** Pattern compiler: [parse_pattern] *)

(** [case '1'] .. [case '4'] of [parse_pattern], for slot [k]. *)
Definition custom_position (ctx : pd_feed_global) (k : nat)
    (t : pattern_pos_type) : outcome pattern_position :=
  defined ← rd (cs_custom_defined ctx) (Z.of_nat k);
  if negb defined then Err (CustomNotDefined k)
  else
    len ← rd (cs_custom_len ctx) (Z.of_nat k);
    Ok (mkPos t (ascii_of_nat 0) len (PtrCustom k)).

(** The [switch (spec)] of [parse_pattern]: the position it fills in and the
    new values of [word_position] and [found_word]. [num] is
    [ctx->num_positions]. The [literal_char] of a position that is not a
    literal keeps the zero of the [memset]. *)
Definition pattern_escape (ctx : pd_feed_global) (spec : ascii) (num : Z)
    (word_pos : Z) (found_word : bool)
  : outcome (pattern_position * Z * bool) :=
  let zero := ascii_of_nat 0 in
  let keep (p : pattern_position) := Ok (p, word_pos, found_word) in
  if (spec =? "l")%char then keep (mkPos POS_LOWER zero CS_LOWER_LEN PtrLower)
  else if (spec =? "u")%char then keep (mkPos POS_UPPER zero CS_UPPER_LEN PtrUpper)
  else if (spec =? "d")%char then keep (mkPos POS_DIGIT zero CS_DIGIT_LEN PtrDigit)
  else if (spec =? "s")%char then keep (mkPos POS_SPECIAL zero CS_SPECIAL_LEN PtrSpecial)
  else if (spec =? "a")%char then keep (mkPos POS_ALL zero CS_ALL_LEN PtrAll)
  else if (spec =? "h")%char then keep (mkPos POS_HEX_LOW zero CS_HEX_LOW_LEN PtrHexLow)
  else if (spec =? "H")%char then keep (mkPos POS_HEX_UP zero CS_HEX_UP_LEN PtrHexUp)
  else if (spec =? "b")%char then keep (mkPos POS_BINARY zero CS_BINARY_LEN PtrBinary)
  else if (spec =? "1")%char then p ← custom_position ctx 0 POS_CUSTOM_1; keep p
  else if (spec =? "2")%char then p ← custom_position ctx 1 POS_CUSTOM_2; keep p
  else if (spec =? "3")%char then p ← custom_position ctx 2 POS_CUSTOM_3; keep p
  else if (spec =? "4")%char then p ← custom_position ctx 3 POS_CUSTOM_4; keep p
  else if (spec =? "W")%char then
    if found_word then Err WordPlaceholderDuplicated
    else Ok (mkPos POS_WORD zero 0 PtrNull, num, true)
  else if (spec =? "?")%char then
    keep (mkPos POS_LITERAL "?"%char 1 PtrLiteral)
  else Err SpecifierInvalid.

(** The [while (i < len)] loop; [pattern] is the part of the pattern from
    index [i] on, [ps] the positions filled so far. *)
Fixpoint pattern_scan (ctx : pd_feed_global) (pattern : list ascii)
    (ps : list pattern_position) (word_pos : Z) (found_word : bool)
  : outcome (list pattern_position * Z * bool) :=
  match pattern with
  | [] => Ok (ps, word_pos, found_word)
  | c :: rest =>
    if PATTERN_MAX_POSITIONS <=? Z.of_nat (length ps) then Err PatternTooLong
    else if (c =? "?")%char then
      match rest with
      | [] => Err DanglingEscape
      | spec :: rest' =>
        r ← pattern_escape ctx spec (Z.of_nat (length ps)) word_pos found_word;
        pattern_scan ctx rest' (ps ++ [r.1.1]) r.1.2 r.2
      end
    else
      pattern_scan ctx rest (ps ++ [mkPos POS_LITERAL c 1 PtrLiteral])
        word_pos found_word
  end.

(** The loop under [// Count prefix and suffix positions], over
    [j = 0 .. num - 1]. *)
Definition count_prefix_suffix (num word_pos : Z) : Z * Z :=
  fold_left
    (fun (acc : Z * Z) (j : Z) =>
       if j <? word_pos then (wrap32 (acc.1 + 1), acc.2)
       else if word_pos <? j then (acc.1, wrap32 (acc.2 + 1))
       else acc)
    (seqZ 0 num) (0, 0).

Definition parse_pattern (ctx : pd_feed_global) (pattern : list ascii)
  : outcome pd_feed_global :=
  r ← pattern_scan ctx pattern [] (wrap32 (-1)) false;
  let '(ps, word_pos, found_word) := r in
  if negb found_word then Err WordPlaceholderMissing
  else
    let '(pre, suf) := count_prefix_suffix (Z.of_nat (length ps)) word_pos in
    Ok {| positions := ps;
          word_position := word_pos;
          prefix_len := pre;
          suffix_len := suf;
          cs_custom := cs_custom ctx;
          cs_custom_len := cs_custom_len ctx;
          cs_custom_defined := cs_custom_defined ctx;
          word_count := word_count ctx;
          mask_keyspace := mask_keyspace ctx;
          total_keyspace := total_keyspace ctx;
          word_offsets := word_offsets ctx;
          word_lengths := word_lengths ctx |}.

(** ** Argument handling of [global_init] *)

(** [workv[arg_idx]] is ["-1"] .. ["-4"]: the slot index it selects. *)
Definition cs_option (arg : list ascii) : option Z :=
  match arg with
  | [c0; c1] =>
    if (c0 =? "-")%char && (49 <=? char_code c1) && (char_code c1 <=? 52)
    then Some (char_code c1 - 49) else None
  | _ => None
  end.

(** The loop under [// Parse optional custom charset definitions]; [args] is
    [workv] from [arg_idx] on. It returns the context and the arguments left. *)
Fixpoint parse_options (ctx : pd_feed_global) (args : list (list ascii))
  : outcome (pd_feed_global * list (list ascii)) :=
  match args with
  | [] => Ok (ctx, [])
  | a :: rest =>
    match cs_option a with
    | Some cs_idx =>
      match rest with
      | [] => Err MissingOptionValue
      | cs_def :: rest' =>
        ctx' ← parse_custom_charset ctx cs_idx cs_def;
        parse_options ctx' rest'
      end
    | None => Ok (ctx, args)
    end
  end.

(** [global_init] on the argument vector [workv] ([workv[0]] is the plugin
    path). The word list path is kept by the host side of the model. *)
Definition global_init (workv : list (list ascii)) : outcome pd_feed_global :=
  r ← parse_options init_charsets (drop 1 workv);
  match r.2 with
  | pattern :: _wordlist :: _ => parse_pattern r.1 pattern
  | _ => Err UsageError
  end.

(** ** Word index: [count_words] and [build_word_index] *)

Definition count_words (data : list byte) : Z :=
  let count :=
    fold_left (fun (count : Z) (c : byte) =>
                 if (c =? NL)%char then wrap64 (count + 1) else count)
              data 0 in
  match last data with
  | Some c => if (c =? NL)%char then count else wrap64 (count + 1)
  | None => count
  end.

(** [line_len] after the [\r] test, for the line [data[line_start ..
    line_start + line_len)]. *)
Definition strip_cr (data : list byte) (line_start line_len : Z) : outcome Z :=
  if 0 <? line_len then
    c ← rd data (line_start + line_len - 1);
    if (c =? CR)%char then Ok (line_len - 1) else Ok line_len
  else Ok line_len.

(** A store [a[i] = v] into an allocated array. *)
Definition wr {A : Type} (a : list A) (i : Z) (v : A) : outcome (list A) :=
  if (0 <=? i) && (i <? Z.of_nat (length a)) then Ok (<[Z.to_nat i := v]> a)
  else Undefined.

(** State of the second pass: [word_idx], [line_start] and the two tables. *)
Record index_state : Type := mkIndexState {
  st_word_idx : Z;
  st_line_start : Z;
  st_offsets : list Z;
  st_lengths : list Z
}.

Definition store_word (data : list byte) (st : index_state) (line_len : Z)
  : outcome (list Z * list Z) :=
  line_len ← strip_cr data (st_line_start st) line_len;
  offs ← wr (st_offsets st) (st_word_idx st) (st_line_start st);
  lens ← wr (st_lengths st) (st_word_idx st) (wrap32 line_len);
  Ok (offs, lens).

(** The [for] loop of the second pass; [rest] is [data] from index [i] on. *)
Fixpoint index_pass (data rest : list byte) (i : Z) (st : index_state)
  : outcome index_state :=
  match rest with
  | [] => Ok st
  | c :: rest' =>
    if (c =? NL)%char then
      tabs ← store_word data st (i - st_line_start st);
      index_pass data rest' (i + 1)
        (mkIndexState (wrap64 (st_word_idx st + 1)) (i + 1) tabs.1 tabs.2)
    else index_pass data rest' (i + 1) st
  end.

(** [build_word_index] on the mapped bytes [data] ([data_len] is their
    count). The two [hcmalloc] calls are taken to succeed and to return
    zeroed arrays of [word_count] entries; their [NULL] returns are not
    modelled. *)
Definition build_word_index (ctx : pd_feed_global) (data : list byte)
  : outcome pd_feed_global :=
  let data_len := Z.of_nat (length data) in
  let count := count_words data in
  if count =? 0 then Err EmptyWordlist
  else if SIZE_MAX / 8 <? count then Err CapacityExceeded
  else
    let offs := replicate (Z.to_nat count) 0 in
    let lens := replicate (Z.to_nat count) 0 in
    st ← index_pass data data 0 (mkIndexState 0 0 offs lens);
    tabs ←
      (if st_line_start st <? data_len then
         store_word data st (data_len - st_line_start st)
       else Ok (st_offsets st, st_lengths st));
    Ok {| positions := positions ctx;
          word_position := word_position ctx;
          prefix_len := prefix_len ctx;
          suffix_len := suffix_len ctx;
          cs_custom := cs_custom ctx;
          cs_custom_len := cs_custom_len ctx;
          cs_custom_defined := cs_custom_defined ctx;
          word_count := count;
          mask_keyspace := mask_keyspace ctx;
          total_keyspace := total_keyspace ctx;
          word_offsets := tabs.1;
          word_lengths := tabs.2 |}.

(** ** Keyspace model *)

(** The [for] loop of [calculate_mask_keyspace] over the positions from
    index [i] on. *)
Fixpoint mask_keyspace_loop (ps : list pattern_position) (keyspace : Z) : Z :=
  match ps with
  | [] => keyspace
  | p :: ps' =>
    if is_word (type p) then mask_keyspace_loop ps' keyspace
    else
      let cs_len := charset_len p in
      if (0 <? keyspace) && (UINT64_MAX / keyspace <? cs_len) then UINT64_MAX
      else mask_keyspace_loop ps' (wrap64 (keyspace * cs_len))
  end.

Definition calculate_mask_keyspace (ctx : pd_feed_global) : Z :=
  mask_keyspace_loop (positions ctx) 1.

(** The [for (i = num_positions - 1; i >= 0; i--)] loop of
    [index_to_mask_indices]; [k] is [i + 1]. *)
Fixpoint mask_indices_loop (ps : list pattern_position) (k : nat)
    (remaining : Z) (indices : list Z) : list Z :=
  match k with
  | O => indices
  | S i =>
    match ps !! i with
    | None => indices
    | Some p =>
      if is_word (type p) then
        mask_indices_loop ps i remaining (<[i := 0]> indices)
      else
        let cs_len := charset_len p in
        mask_indices_loop ps i (remaining / cs_len)
          (<[i := wrap32 (remaining mod cs_len)]> indices)
    end
  end.

Definition index_to_mask_indices (ctx : pd_feed_global) (mask_idx : Z)
    (indices : list Z) : list Z :=
  mask_indices_loop (positions ctx) (length (positions ctx)) mask_idx indices.

(** The keyspace part of [global_keyspace]: the value stored in
    [ctx->total_keyspace]. *)
Definition calculate_total_keyspace (word_count mask_keyspace : Z) : Z :=
  if (0 <? mask_keyspace) && (UINT64_MAX / mask_keyspace <? word_count)
  then UINT64_MAX
  else wrap64 (word_count * mask_keyspace).

(** ** Cursor: [thread_init], [advance_position], [thread_seek] *)

(** [thread_init] on the contents [file] of the word list. Allocating the
    thread context, opening the file, [fstat] and [mmap] belong to the host
    and are taken to succeed: their failing returns are not modelled, and
    [file] stands for the bytes a successful [mmap] delivers ([[]] for a
    file of size 0). *)
Definition thread_init (ctx : pd_feed_global) (file : list byte)
  : outcome pd_feed_thread :=
  if Z.of_nat (length file) =? 0 then Err EmptyFile
  else
    Ok {| fd_mem := file;
          fd_len := Z.of_nat (length file);
          current_word_idx := 0;
          current_mask_idx := 0;
          current_offset := 0;
          mask_indices :=
            index_to_mask_indices ctx 0
              (replicate (Z.to_nat PATTERN_MAX_POSITIONS) 0) |}.

(** [global_keyspace] on the contents [file] of the word list: the context
    it leaves. The value it returns is [total_keyspace] of that context, and
    [0] on failure. *)
Definition global_keyspace (ctx : pd_feed_global) (file : list byte)
  : outcome pd_feed_global :=
  tctx ← thread_init ctx file;
  ctx1 ← build_word_index ctx (fd_mem tctx);
  let mk := calculate_mask_keyspace ctx1 in
  Ok {| positions := positions ctx1;
        word_position := word_position ctx1;
        prefix_len := prefix_len ctx1;
        suffix_len := suffix_len ctx1;
        cs_custom := cs_custom ctx1;
        cs_custom_len := cs_custom_len ctx1;
        cs_custom_defined := cs_custom_defined ctx1;
        word_count := word_count ctx1;
        mask_keyspace := mk;
        total_keyspace := calculate_total_keyspace (word_count ctx1) mk;
        word_offsets := word_offsets ctx1;
        word_lengths := word_lengths ctx1 |}.

Definition global_keyspace_value (r : outcome pd_feed_global) : Z :=
  match r with
  | Ok ctx => total_keyspace ctx
  | _ => 0
  end.

Definition advance_position (tctx : pd_feed_thread) (ctx : pd_feed_global)
  : pd_feed_thread :=
  let mask1 := wrap64 (current_mask_idx tctx + 1) in
  let wrapped := mask_keyspace ctx <=? mask1 in
  let mask2 := if wrapped then 0 else mask1 in
  let word2 :=
    if wrapped then wrap64 (current_word_idx tctx + 1)
    else current_word_idx tctx in
  {| fd_mem := fd_mem tctx;
     fd_len := fd_len tctx;
     current_word_idx := word2;
     current_mask_idx := mask2;
     current_offset := wrap64 (current_offset tctx + 1);
     mask_indices :=
       if word2 <? word_count ctx
       then index_to_mask_indices ctx mask2 (mask_indices tctx)
       else mask_indices tctx |}.

(** [thread_seek]: the returned flag, the error it sets (if any) and the
    thread context it leaves. *)
Definition thread_seek (ctx : pd_feed_global) (tctx : pd_feed_thread)
    (offset : Z) : bool * option pd_error * pd_feed_thread :=
  if total_keyspace ctx <=? offset then (false, Some OffsetOutOfRange, tctx)
  else
    let mask_idx := offset mod mask_keyspace ctx in
    (true, None,
     {| fd_mem := fd_mem tctx;
        fd_len := fd_len tctx;
        current_word_idx := offset / mask_keyspace ctx;
        current_mask_idx := mask_idx;
        current_offset := offset;
        mask_indices :=
          index_to_mask_indices ctx mask_idx (mask_indices tctx) |}).

(** ** Candidate generator and [thread_next] *)

(** [pos->charset[d]]: the byte the [charset] pointer of [pos] leads to. *)
Definition charset_read (ctx : pd_feed_global) (pos : pattern_position)
    (d : Z) : outcome byte :=
  match charset pos with
  | PtrNull => Undefined
  | PtrLower => rd CHARSET_LOWER d
  | PtrUpper => rd CHARSET_UPPER d
  | PtrDigit => rd CHARSET_DIGIT d
  | PtrSpecial => rd CHARSET_SPECIAL d
  | PtrAll => rd CHARSET_ALL d
  | PtrHexLow => rd CHARSET_HEX_LOW d
  | PtrHexUp => rd CHARSET_HEX_UP d
  | PtrBinary => rd CHARSET_BINARY d
  | PtrCustom k => buf ← rd (cs_custom ctx) (Z.of_nat k); rd buf d
  | PtrLiteral => rd [literal_char pos] d
  end.

(** [out_buf[out_len++] = pos->charset[tctx->mask_indices[i]]] for position
    [i]. The output is kept as the bytes stored so far, in the order of the
    stores, next to the counter [out_len]. *)
Definition emit_position (ctx : pd_feed_global) (tctx : pd_feed_thread)
    (i : Z) (out : list byte * Z) : outcome (list byte * Z) :=
  pos ← rd (positions ctx) i;
  d ← rd (mask_indices tctx) i;
  c ← charset_read ctx pos d;
  Ok (out.1 ++ [c], wrap32 (out.2 + 1)).

(** The prefix loop, over the indices [idxs]. *)
Fixpoint emit_prefix (ctx : pd_feed_global) (tctx : pd_feed_thread)
    (idxs : list Z) (out : list byte * Z) : outcome (list byte * Z) :=
  match idxs with
  | [] => Ok out
  | i :: idxs' =>
    out' ← emit_position ctx tctx i out;
    emit_prefix ctx tctx idxs' out'
  end.

Section Generator.

(** [PW_MAX] is the host's maximum candidate length (declared in the
    host's [types.h]); the feed only compares against it. *)
Variable PW_MAX : Z.

(** The suffix loop with its [break], over the indices [idxs]. *)
Fixpoint emit_suffix (ctx : pd_feed_global) (tctx : pd_feed_thread)
    (idxs : list Z) (out : list byte * Z) : outcome (list byte * Z) :=
  match idxs with
  | [] => Ok out
  | i :: idxs' =>
    if PW_MAX <=? out.2 then Ok out
    else
      out' ← emit_position ctx tctx i out;
      emit_suffix ctx tctx idxs' out'
  end.

(** [generate_candidate]: the bytes stored into [out_buf] and the value
    returned. [out_buf] belongs to the caller and its capacity is not part
    of the model: the result lists every byte stored, however many; reads of
    the word list are checked against [fd_len]. *)
Definition generate_candidate (ctx : pd_feed_global) (tctx : pd_feed_thread)
  : outcome (list byte * Z) :=
  let word_idx := current_word_idx tctx in
  word_off ← rd (word_offsets ctx) word_idx;
  word_len ← rd (word_lengths ctx) word_idx;
  out ← emit_prefix ctx tctx (seqZ 0 (word_position ctx)) ([], 0);
  let word_len :=
    if PW_MAX <? wrap32 (out.2 + word_len) then wrap32 (PW_MAX - out.2)
    else word_len in
  if fd_len tctx <? word_off + word_len then Undefined
  else
    let word := take (Z.to_nat word_len) (drop (Z.to_nat word_off) (fd_mem tctx)) in
    let out := (out.1 ++ word, wrap32 (out.2 + word_len)) in
    out ← emit_suffix ctx tctx
             (seqZ (word_position ctx + 1)
                   (num_positions ctx - (word_position ctx + 1)))
             out;
    Ok (out.1, to_int out.2).

(** [thread_next]: the value returned, the bytes stored into [out_buf] and
    the thread context it leaves. *)
Definition thread_next (ctx : pd_feed_global) (tctx : pd_feed_thread)
  : outcome (Z * list byte * pd_feed_thread) :=
  if word_count ctx <=? current_word_idx tctx then Ok (0, [], tctx)
  else
    r ← generate_candidate ctx tctx;
    Ok (r.2, r.1, advance_position tctx ctx).

(** [n] successive calls of [thread_next]: the values returned, in call
    order, and the thread context left by the last call. *)
Fixpoint next_calls (n : nat) (ctx : pd_feed_global) (tctx : pd_feed_thread)
  : outcome (list (Z * list byte) * pd_feed_thread) :=
  match n with
  | O => Ok ([], tctx)
  | S n' =>
    r ← thread_next ctx tctx;
    rs ← next_calls n' ctx r.2;
    Ok ((r.1.1, r.1.2) :: rs.1, rs.2)
  end.

(** The cursors a consumer can hold: a fresh one, and what [thread_next] and
    an accepted [thread_seek] make of one. *)
Inductive cursor_reachable (ctx : pd_feed_global) (file : list byte)
  : pd_feed_thread -> Prop :=
  | reach_init tctx :
      thread_init ctx file = Ok tctx -> cursor_reachable ctx file tctx
  | reach_next tctx ret out tctx' :
      cursor_reachable ctx file tctx ->
      thread_next ctx tctx = Ok (ret, out, tctx') ->
      cursor_reachable ctx file tctx'
  | reach_seek tctx offset tctx' :
      cursor_reachable ctx file tctx ->
      is_u64 offset ->
      thread_seek ctx tctx offset = (true, None, tctx') ->
      cursor_reachable ctx file tctx'.

End Generator.

(** ** Notions used to state the properties *)

(** The exact product of the charset sizes of the non-word positions. *)
Fixpoint mask_product (ps : list pattern_position) : Z :=
  match ps with
  | [] => 1
  | p :: ps' =>
    if is_word (type p) then mask_product ps'
    else charset_len p * mask_product ps'
  end.

(** A non-word position has a radix, and it fits the [u32] field. *)
Definition radix_ok (p : pattern_position) : Prop :=
  is_word (type p) = false -> 1 <= charset_len p < 2 ^ 32.

(** The odometer decomposition in the words of the specification: for each
    position from last to first, [digit = mask_index mod radix] and
    [mask_index = mask_index / radix]; a word position gets digit [0].
    [digits_from_last] takes the positions last first and returns the digits
    last first. *)
Fixpoint digits_from_last (rps : list pattern_position) (mask_index : Z)
  : list Z :=
  match rps with
  | [] => []
  | p :: rps' =>
    if is_word (type p) then 0 :: digits_from_last rps' mask_index
    else
      let radix := charset_len p in
      (mask_index mod radix) :: digits_from_last rps' (mask_index / radix)
  end.

Definition index_to_digits (ps : list pattern_position) (mask_index : Z)
  : list Z :=
  reverse (digits_from_last (reverse ps) mask_index).

(** The value of a digit array as a mixed-radix number, last position least
    significant. *)
Fixpoint index_from_last (rps : list pattern_position) (rds : list Z) : Z :=
  match rps, rds with
  | p :: rps', d :: rds' =>
    if is_word (type p) then index_from_last rps' rds'
    else d + charset_len p * index_from_last rps' rds'
  | _, _ => 0
  end.

Definition digits_to_index (ps : list pattern_position) (ds : list Z) : Z :=
  index_from_last (reverse ps) (reverse ds).

Definition digit_ok (p : pattern_position) (d : Z) : Prop :=
  if is_word (type p) then d = 0 else 0 <= d < charset_len p.

(** A digit array for the positions [ps]: one digit per position, below the
    charset size at a non-word position and [0] at the word position. *)
Definition valid_digits (ps : list pattern_position) (ds : list Z) : Prop :=
  Forall2 digit_ok ps ds.

(** *** Custom charsets: the registry invariant *)

(** What [init_charsets] establishes and every successful definition keeps:
    four slots, buffers of [CS_CUSTOM_MAX] bytes, and a length between 1 and
    [CS_CUSTOM_MAX] for every defined slot. *)
Definition registry_ok (ctx : pd_feed_global) : Prop :=
  length (cs_custom ctx) = 4%nat
  /\ length (cs_custom_len ctx) = 4%nat
  /\ length (cs_custom_defined ctx) = 4%nat
  /\ Forall (fun buf => length buf = 256%nat) (cs_custom ctx)
  /\ forall k, cs_custom_defined ctx !! k = Some true ->
       exists len, cs_custom_len ctx !! k = Some len /\ 1 <= len <= 256.

(** *** Pattern compiler: what a compiled pattern satisfies *)

Definition nonword (p : pattern_position) : Prop := is_word (type p) = false.

(** A non-word position has between 1 and 256 characters, and every index
    below its [charset_len] can be read through its [charset] pointer. *)
Definition pos_ok (ctx : pd_feed_global) (p : pattern_position) : Prop :=
  nonword p ->
  1 <= charset_len p <= 256
  /\ forall d, 0 <= d < charset_len p -> exists c, charset_read ctx p d = Ok c.

(** Exactly one word position, at index [wp]. *)
Definition word_at (ps : list pattern_position) (wp : Z) : Prop :=
  exists pre w suf,
    ps = pre ++ w :: suf /\ is_word (type w) = true
    /\ Forall nonword pre /\ Forall nonword suf
    /\ wp = Z.of_nat (length pre).

Definition compiled (ctx : pd_feed_global) : Prop :=
  registry_ok ctx
  /\ (length (positions ctx) <= 32)%nat
  /\ Forall (pos_ok ctx) (positions ctx)
  /\ word_at (positions ctx) (word_position ctx).

(** Number of [?W] escapes met by the left-to-right scan, in which a [?]
    always takes the next character with it. *)
Fixpoint word_escapes (pattern : list ascii) : nat :=
  match pattern with
  | [] => 0
  | c :: rest =>
    if (c =? "?")%char then
      match rest with
      | [] => 0
      | spec :: rest' =>
        ((if (spec =? "W")%char then 1 else 0) + word_escapes rest')%nat
      end
    else word_escapes rest
  end.

(** The word bookkeeping of the scan: [found_word] with the index of the one
    word position, or no word position yet. *)
Definition scan_state_ok (ctx : pd_feed_global) (ps : list pattern_position)
    (wp : Z) (found : bool) : Prop :=
  (length ps <= 32)%nat
  /\ Forall (pos_ok ctx) ps
  /\ (if found then word_at ps wp else Forall nonword ps).

(** *** Word index *)

(** The lines of a buffer, in the words of the specification: [split_closed
    cur rest] returns the newline-terminated lines of [cur ++ rest] (without
    their newline) and the unterminated remainder. *)
Fixpoint split_closed (cur rest : list byte) : list (list byte) * list byte :=
  match rest with
  | [] => ([], cur)
  | c :: rest' =>
    if (c =? NL)%char then
      let r := split_closed [] rest' in (cur :: r.1, r.2)
    else split_closed (cur ++ [c]) rest'
  end.

(** Every newline-terminated line, then the remainder if it is not empty. *)
Definition lines (data : list byte) : list (list byte) :=
  let r := split_closed [] data in
  r.1 ++ match r.2 with [] => [] | _ => [r.2] end.

(** Length of a line with one trailing [\r] removed. *)
Definition trimmed_length (line : list byte) : Z :=
  match last line with
  | Some c =>
    if (c =? CR)%char then Z.of_nat (length line) - 1
    else Z.of_nat (length line)
  | None => 0
  end.

(** Start offset and trimmed length of each line, the first one starting at
    [start]; a line is followed by its one-byte terminator. *)
Fixpoint line_entries (start : Z) (ls : list (list byte)) : list (Z * Z) :=
  match ls with
  | [] => []
  | l :: ls' =>
    (start, trimmed_length l)
      :: line_entries (start + Z.of_nat (length l) + 1) ls'
  end.

(** Number of newline bytes, plus one for a non-empty buffer whose last byte
    is not a newline. *)
Definition line_count (data : list byte) : Z :=
  Z.of_nat (length (filter (fun c => c = NL) data))
  + match last data with
    | Some c => if (c =? NL)%char then 0 else 1
    | None => 0
    end.

(** *** Candidate generator *)

(** The character a position contributes for a digit. *)
Definition char_at (ctx : pd_feed_global) (p : pattern_position) (d : Z) : byte :=
  match charset_read ctx p d with
  | Ok c => c
  | _ => ascii_of_nat 0
  end.

(** The characters of a run of non-word positions for their digits. *)
Definition render (ctx : pd_feed_global) (ps : list pattern_position)
    (ds : list Z) : list byte :=
  zip_with (char_at ctx) ps ds.

(** *** The word tables stay inside the buffer *)

Definition entry_within (lo hi : Z) (e : Z * Z) : Prop :=
  lo <= e.1 /\ 0 <= e.2 /\ e.1 + e.2 <= hi.

(** Every recorded word lies inside the buffer and its length is a [u32]. *)
Definition tables_ok (ctx : pd_feed_global) (buffer_len : Z) : Prop :=
  Z.of_nat (length (word_offsets ctx)) = word_count ctx
  /\ Z.of_nat (length (word_lengths ctx)) = word_count ctx
  /\ forall k off wl,
       word_offsets ctx !! k = Some off -> word_lengths ctx !! k = Some wl ->
       0 <= off /\ 0 <= wl < 2 ^ 32 /\ off + wl <= buffer_len.

(** *** Cursor *)

(** The digit array of a cursor: digits for every position, the rest of the
    array untouched. *)
Definition digits_inv (ctx : pd_feed_global) (indices : list Z) : Prop :=
  exists ds rest, indices = ds ++ rest /\ valid_digits (positions ctx) ds.

(** The context of a running engine: compiled by [global_init] and completed
    by [global_keyspace] on the word list [file]. *)
Definition engine (workv : list (list ascii)) (file : list byte)
    (ctx : pd_feed_global) : Prop :=
  exists ctx0,
    global_init workv = Ok ctx0
    /\ Z.of_nat (length file) <= SIZE_MAX
    /\ global_keyspace ctx0 file = Ok ctx.

(** What every cursor over [file] keeps: the mapped file, and a digit array
    with digits for every position. *)
Definition cursor_ok (ctx : pd_feed_global) (file : list byte)
    (tctx : pd_feed_thread) : Prop :=
  fd_mem tctx = file
  /\ fd_len tctx = Z.of_nat (length file)
  /\ (length (positions ctx) <= length (mask_indices tctx))%nat
  /\ digits_inv ctx (mask_indices tctx).

(** *** Exhaustion *)

(** The cursor an accepted [thread_seek] to [offset] leaves. *)
Definition seek_state (ctx : pd_feed_global) (tctx : pd_feed_thread)
    (offset : Z) : pd_feed_thread :=
  (thread_seek ctx tctx offset).2.

(** An exhausted cursor: [word_index] has reached [word_count]. *)
Definition exhausted (ctx : pd_feed_global) (file : list byte)
    (tctx : pd_feed_thread) : Prop :=
  cursor_ok ctx file tctx /\ current_word_idx tctx = word_count ctx.

(** The cursor after [k] calls from the fresh cursor [t0]. *)
Definition at_offset (ctx : pd_feed_global) (file : list byte)
    (t0 : pd_feed_thread) (k : Z) (tctx : pd_feed_thread) : Prop :=
  (k < total_keyspace ctx /\ tctx = seek_state ctx t0 k)
  \/ (k = total_keyspace ctx /\ exhausted ctx file tctx).

(** No recorded word is so long that the [u32] sum [out_len + word_len] of
    [generate_candidate] wraps: the length test then sees the true sum, the
    word is cut to what is left of [PW_MAX], and no call stores more than
    [PW_MAX] bytes into [out_buf]. *)
Definition words_fit (ctx : pd_feed_global) : Prop :=
  Forall (fun wl => word_position ctx + wl < 2 ^ 32) (word_lengths ctx).

(** *** Pattern compiler: the word placeholder rule *)

Definition slot_defined (ctx : pd_feed_global) (k : nat) : bool :=
  match cs_custom_defined ctx !! k with
  | Some true => true
  | _ => false
  end.

(** The escapes [parse_pattern] accepts: a built-in class, [?W], [??], or a
    custom slot that is defined. *)
Definition escape_known (ctx : pd_feed_global) (spec : ascii) : bool :=
  (spec =? "l")%char || (spec =? "u")%char || (spec =? "d")%char
  || (spec =? "s")%char || (spec =? "a")%char || (spec =? "h")%char
  || (spec =? "H")%char || (spec =? "b")%char || (spec =? "W")%char
  || (spec =? "?")%char
  || ((spec =? "1")%char && slot_defined ctx 0)
  || ((spec =? "2")%char && slot_defined ctx 1)
  || ((spec =? "3")%char && slot_defined ctx 2)
  || ((spec =? "4")%char && slot_defined ctx 3).

(** A pattern whose scan meets none of the other errors: every [?] is
    followed by a known escape, and no more than [PATTERN_MAX_POSITIONS]
    positions are needed ([num] are filled already). *)
Fixpoint scan_clean (ctx : pd_feed_global) (pattern : list ascii) (num : nat)
  : bool :=
  match pattern with
  | [] => true
  | c :: rest =>
    (Z.of_nat num <? PATTERN_MAX_POSITIONS)
    && if (c =? "?")%char then
         match rest with
         | [] => false
         | spec :: rest' => escape_known ctx spec && scan_clean ctx rest' (S num)
         end
       else scan_clean ctx rest (S num)
  end.

(** *** Custom charset definition as an expansion to a byte sequence *)

(** The bytes a defined slot holds. *)
Definition slot_len (ctx : pd_feed_global) (j : nat) : nat :=
  match cs_custom_len ctx !! j with
  | Some len => Z.to_nat len
  | None => 0
  end.

Definition slot_bytes (ctx : pd_feed_global) (j : nat) : list byte :=
  match cs_custom ctx !! j with
  | Some buf => take (slot_len ctx j) buf
  | None => []
  end.

(** The single built-in sets a definition can name. *)
Definition builtin_set (spec : ascii) : option (list byte) :=
  if (spec =? "l")%char then Some CHARSET_LOWER
  else if (spec =? "u")%char then Some CHARSET_UPPER
  else if (spec =? "d")%char then Some CHARSET_DIGIT
  else if (spec =? "s")%char then Some CHARSET_SPECIAL
  else if (spec =? "h")%char then Some CHARSET_HEX_LOW
  else if (spec =? "H")%char then Some CHARSET_HEX_UP
  else if (spec =? "b")%char then Some CHARSET_BINARY
  else None.

(** Append as many bytes of [src] as fit under the cap. *)
Definition append_capped (acc src : list byte) : list byte :=
  acc ++ take (256 - length acc) src.

(** Append [src] whole if it fits under the cap, nothing otherwise. *)
Definition append_whole (acc src : list byte) : list byte :=
  if (length acc + length src <=? 256)%nat then acc ++ src else acc.

(** Specification of one escape: what [?spec] adds to the expansion [acc]
    of slot [k], as a byte sequence. A reference to the slot being defined reads
    the bytes written so far, and is undefined when the copy would overlap
    them. *)
Definition expand_escape (ctx : pd_feed_global) (k : nat) (spec : ascii)
    (acc : list byte) : outcome (list byte) :=
  match builtin_set spec with
  | Some src => Ok (append_capped acc src)
  | None =>
    if (spec =? "a")%char then
      Ok (append_whole (append_whole (append_whole (append_whole acc
            CHARSET_LOWER) CHARSET_UPPER) CHARSET_DIGIT) CHARSET_SPECIAL)
    else if (49 <=? char_code spec) && (char_code spec <=? 52) then
      let j := Z.to_nat (char_code spec - 49) in
      if negb (slot_defined ctx j) then Err UndefinedReference
      else if Nat.eqb j k then
        let n := Nat.min (slot_len ctx j) (256 - length acc) in
        if (length acc <? n)%nat then Undefined else Ok (acc ++ take n acc)
      else Ok (append_capped acc (slot_bytes ctx j))
    else if (spec =? "?")%char then Ok (acc ++ ["?"%char])
    else Err CharsetSpecifierInvalid
  end.

(** Specification of the scan: the expansion of a definition, left to
    right, which stops at the end of the definition or once 256 bytes are
    there. *)
Fixpoint expansion (ctx : pd_feed_global) (k : nat) (cs_def : list ascii)
    (acc : list byte) : outcome (list byte) :=
  match cs_def with
  | [] => Ok acc
  | c :: rest =>
    if (256 <=? length acc)%nat then Ok acc
    else if (c =? "?")%char then
      match rest with
      | [] => Err CharsetDanglingEscape
      | spec :: rest' =>
        acc' ← expand_escape ctx k spec acc;
        expansion ctx k rest' acc'
      end
    else expansion ctx k rest (acc ++ [c])
  end.

(** The byte sequence a buffer and its fill length stand for. *)
Definition filled (st : outcome (list byte * Z)) : outcome (list byte) :=
  match st with
  | Ok (buf, len) => Ok (take (Z.to_nat len) buf)
  | Err e => Err e
  | Undefined => Undefined
  end.

(** A definition in which every [?] begins a two-character escape. *)
Fixpoint aligned (cs_def : list ascii) : bool :=
  match cs_def with
  | [] => true
  | c :: rest =>
    if (c =? "?")%char then
      match rest with
      | [] => false
      | _ :: rest' => aligned rest'
      end
    else aligned rest
  end.

(** The specifiers [parse_custom_charset] knows. *)
Definition cs_specifier (spec : ascii) : bool :=
  match builtin_set spec with
  | Some _ => true
  | None => (spec =? "a")%char || (spec =? "?")%char
            || ((49 <=? char_code spec) && (char_code spec <=? 52))
  end.

(** *** A small run: pattern [?d?W] over the words [ab] and [cd] *)

Definition example_workv : list (list ascii) :=
  map list_ascii_of_string ["feed_pattern_dict.so"; "?d?W"; "words.txt"]%string.

Definition example_file : list byte :=
  list_ascii_of_string "ab" ++ [NL] ++ list_ascii_of_string "cd" ++ [NL].

(** The context [global_init] and [global_keyspace] leave for it, and the
    thread context of [thread_init]. *)
Definition example_ctx0 : pd_feed_global :=
  match global_init example_workv with
  | Ok ctx0 => ctx0
  | _ => init_charsets
  end.

Definition example_ctx : pd_feed_global :=
  match global_keyspace example_ctx0 example_file with
  | Ok ctx => ctx
  | _ => init_charsets
  end.

Definition example_thread : pd_feed_thread :=
  match thread_init example_ctx example_file with
  | Ok t0 => t0
  | _ => mkThread [] 0 0 0 0 []
  end.

(** *** Pattern compiler: positions and tokens *)

(** The number of positions a pattern asks for: one for each two-character
    escape and one for each other character. *)
Fixpoint pattern_tokens (pattern : list ascii) : nat :=
  match pattern with
  | [] => 0
  | c :: rest =>
    if (c =? "?")%char then
      match rest with
      | [] => 1
      | _ :: rest' => S (pattern_tokens rest')
      end
    else S (pattern_tokens rest)
  end.

(** *** Arguments of [global_init] *)

(** [?k+1] or any other use of the digit of slot [k] in a definition. *)
Definition mentions_slot (k : Z) (cs_def : list ascii) : bool :=
  existsb (fun c => char_code c =? 49 + k) cs_def.

(** The option pairs in which a slot that an earlier pair has defined
    ([seen]) is not defined again by a definition that mentions its own
    digit. *)
Fixpoint options_safe (seen : list Z) (args : list (list ascii)) : bool :=
  match args with
  | [] => true
  | a :: rest =>
    match cs_option a with
    | Some cs_idx =>
      match rest with
      | [] => true
      | cs_def :: rest' =>
        (negb (existsb (Z.eqb cs_idx) seen) || negb (mentions_slot cs_idx cs_def))
        && options_safe (cs_idx :: seen) rest'
      end
    | None => true
    end
  end.

(** *** Word index: the recorded words *)

(** The bytes [memcpy] reads for a table entry: [len] bytes of [data] from
    [off]. *)
Definition word_bytes (data : list byte) (off len : Z) : list byte :=
  take (Z.to_nat len) (drop (Z.to_nat off) data).

(** The words the tables of [ctx] stand for. *)
Definition recorded_words (ctx : pd_feed_global) (data : list byte)
  : list (list byte) :=
  zip_with (word_bytes data) (word_offsets ctx) (word_lengths ctx).

(** A line without one trailing [\r]. *)
Definition strip_one_cr (line : list byte) : list byte :=
  match last line with
  | Some c => if (c =? CR)%char then take (length line - 1) line else line
  | None => []
  end.

(** A word list file: each word followed by the line terminator [eol]. *)
Definition join_lines (eol : list byte) (ws : list (list byte)) : list byte :=
  concat (map (fun w => w ++ eol) ws).

(** *** Candidates *)

(** The character set of a position: the bytes its [charset] pointer leads
    to, [charset_len] of them. *)
Definition position_bytes (ctx : pd_feed_global) (p : pattern_position)
  : list byte :=
  map (char_at ctx p) (seqZ 0 (charset_len p)).

(** *** Literal patterns *)

(** The position [parse_pattern] fills in for a literal character. *)
Definition literal_position (c : ascii) : pattern_position :=
  mkPos POS_LITERAL c 1 PtrLiteral.

(** *** A run with a custom slot: [-1 ?l?d], pattern [?1?W], word [x] *)

Definition example_custom_workv : list (list ascii) :=
  map list_ascii_of_string
    ["feed_pattern_dict.so"; "-1"; "?l?d"; "?1?W"; "words.txt"]%string.

Definition example_custom_ctx : pd_feed_global :=
  match (ctx0 ← global_init example_custom_workv;
         global_keyspace ctx0 ["x"%char]) with
  | Ok ctx => ctx
  | _ => init_charsets
  end.

(** The registry after [-1 abc]. *)
Definition example_slot_ctx : pd_feed_global :=
  match parse_custom_charset init_charsets 0 (list_ascii_of_string "abc") with
  | Ok ctx => ctx
  | _ => init_charsets
  end.

(** * Properties *)

(** ** Machine arithmetic *)

Lemma wrap64_small z : is_u64 z -> wrap64 z = z.
Proof. unfold is_u64, wrap64. intros H. apply Z.mod_small. lia. Qed.

Lemma wrap32_small z : is_u32 z -> wrap32 z = z.
Proof. unfold is_u32, wrap32. intros H. apply Z.mod_small. lia. Qed.

Lemma wrap32_range z : is_u32 (wrap32 z).
Proof. unfold is_u32, wrap32. apply Z.mod_pos_bound. lia. Qed.

Lemma wrap64_range z : is_u64 (wrap64 z).
Proof. unfold is_u64, wrap64. apply Z.mod_pos_bound. lia. Qed.

(** The overflow test [b > UINT64_MAX / a] of the keyspace code is exact. *)
Lemma overflow_test_exact a b :
  0 < a -> (UINT64_MAX / a <? b) = (UINT64_MAX <? a * b).
Proof.
  intros Ha.
  pose proof (Z.div_mod UINT64_MAX a ltac:(lia)) as Hdm.
  pose proof (Z.mod_pos_bound UINT64_MAX a Ha) as Hm.
  destruct (Z.ltb_spec (UINT64_MAX / a) b), (Z.ltb_spec UINT64_MAX (a * b));
    try reflexivity; exfalso; nia.
Qed.

(** ** Keyspace: saturating products *)

Lemma mask_product_pos ps : Forall radix_ok ps -> 1 <= mask_product ps.
Proof.
  induction 1 as [|p ps Hp _ IH]; simpl; [lia|].
  destruct (is_word (type p)) eqn:Hw; [exact IH|].
  specialize (Hp Hw). nia.
Qed.

Lemma mask_keyspace_loop_spec ps : forall k,
  Forall radix_ok ps -> 1 <= k <= UINT64_MAX ->
  mask_keyspace_loop ps k = Z.min (k * mask_product ps) UINT64_MAX.
Proof.
  induction ps as [|p ps IH]; intros k Hps Hk; simpl.
  - lia.
  - inversion Hps as [|? ? Hp Hps']; subst.
    destruct (is_word (type p)) eqn:Hw; [now apply IH|].
    specialize (Hp Hw).
    pose proof (mask_product_pos ps Hps') as HP.
    replace (0 <? k) with true by (symmetry; apply Z.ltb_lt; lia).
    rewrite overflow_test_exact by lia. simpl.
    destruct (Z.ltb_spec UINT64_MAX (k * charset_len p)) as [Hov|Hfit].
    + symmetry. apply Z.min_r. nia.
    + rewrite wrap64_small by (unfold is_u64, UINT64_MAX in *; nia).
      rewrite IH by (try assumption; nia).
      f_equal. ring.
Qed.

Lemma calculate_mask_keyspace_spec ctx :
  Forall radix_ok (positions ctx) ->
  calculate_mask_keyspace ctx
  = Z.min (mask_product (positions ctx)) UINT64_MAX.
Proof.
  intros H. unfold calculate_mask_keyspace.
  rewrite mask_keyspace_loop_spec by (try assumption; unfold UINT64_MAX; lia).
  f_equal. lia.
Qed.

Lemma calculate_total_keyspace_spec wc mk :
  is_u64 wc -> is_u64 mk ->
  calculate_total_keyspace wc mk = Z.min (wc * mk) UINT64_MAX.
Proof.
  unfold is_u64, calculate_total_keyspace. intros Hwc Hmk.
  destruct (Z.ltb_spec 0 mk) as [Hpos|Hz]; simpl.
  - rewrite overflow_test_exact by lia.
    destruct (Z.ltb_spec UINT64_MAX (mk * wc)).
    + symmetry. apply Z.min_r. lia.
    + rewrite wrap64_small by (unfold is_u64, UINT64_MAX in *; nia).
      symmetry. apply Z.min_l. lia.
  - assert (mk = 0) as -> by lia.
    rewrite Z.mul_0_r. reflexivity.
Qed.

(** ** Odometer conversion *)

Lemma mask_product_app ps qs :
  mask_product (ps ++ qs) = mask_product ps * mask_product qs.
Proof.
  induction ps as [|p ps IH]; simpl; [lia|].
  destruct (is_word (type p)); rewrite IH; ring.
Qed.

Lemma mask_product_reverse ps : mask_product (reverse ps) = mask_product ps.
Proof.
  induction ps as [|p ps IH]; [reflexivity|].
  rewrite reverse_cons, mask_product_app, IH. simpl.
  destruct (is_word (type p)); ring.
Qed.

Lemma radix_ok_reverse ps : Forall radix_ok ps -> Forall radix_ok (reverse ps).
Proof. intros H. now apply Forall_reverse. Qed.

Lemma digits_from_last_length rps i :
  length (digits_from_last rps i) = length rps.
Proof.
  revert i. induction rps as [|p rps IH]; intros i; simpl; [reflexivity|].
  destruct (is_word (type p)); simpl; now rewrite IH.
Qed.

Lemma digits_from_last_valid rps : forall i,
  Forall radix_ok rps -> 0 <= i ->
  Forall2 digit_ok rps (digits_from_last rps i).
Proof.
  induction rps as [|p rps IH]; intros i Hps Hi; simpl; [constructor|].
  inversion Hps as [|? ? Hp Hps']; subst.
  destruct (is_word (type p)) eqn:Hw.
  - constructor; [unfold digit_ok; now rewrite Hw | now apply IH].
  - specialize (Hp Hw). constructor.
    + unfold digit_ok. rewrite Hw. apply Z.mod_pos_bound. lia.
    + apply IH; [assumption|]. apply Z.div_pos; lia.
Qed.

(** Reading the digits back gives the index modulo the product of the
    radices. *)
Lemma index_of_digits_from_last rps : forall i,
  Forall radix_ok rps ->
  index_from_last rps (digits_from_last rps i) = i mod mask_product rps.
Proof.
  induction rps as [|p rps IH]; intros i Hps; simpl.
  - now rewrite Z.mod_1_r.
  - inversion Hps as [|? ? Hp Hps']; subst.
    destruct (is_word (type p)) eqn:Hw; simpl; rewrite ?Hw.
    + now apply IH.
    + specialize (Hp Hw). pose proof (mask_product_pos rps Hps').
      rewrite IH by assumption.
      symmetry. apply Z.rem_mul_r; lia.
Qed.

Lemma index_from_last_range rps rds :
  Forall radix_ok rps -> Forall2 digit_ok rps rds ->
  0 <= index_from_last rps rds < mask_product rps.
Proof.
  intros Hps Hds. induction Hds as [|p d rps rds Hd Hds IH]; simpl; [lia|].
  inversion Hps as [|? ? Hp Hps']; subst. specialize (IH Hps').
  unfold digit_ok in Hd.
  destruct (is_word (type p)) eqn:Hw; [exact IH|].
  specialize (Hp Hw). nia.
Qed.

Lemma digits_of_index_from_last rps rds :
  Forall radix_ok rps -> Forall2 digit_ok rps rds ->
  digits_from_last rps (index_from_last rps rds) = rds.
Proof.
  intros Hps Hds. induction Hds as [|p d rps rds Hd Hds IH]; simpl; [reflexivity|].
  inversion Hps as [|? ? Hp Hps']; subst. specialize (IH Hps').
  unfold digit_ok in Hd.
  destruct (is_word (type p)) eqn:Hw.
  - subst d. now rewrite IH.
  - specialize (Hp Hw).
    assert ((d + charset_len p * index_from_last rps rds) mod charset_len p = d) as ->.
    { replace (d + charset_len p * index_from_last rps rds)
        with (d + index_from_last rps rds * charset_len p) by ring.
      rewrite Z.mod_add by lia. apply Z.mod_small. lia. }
    assert ((d + charset_len p * index_from_last rps rds) / charset_len p
            = index_from_last rps rds) as ->.
    { replace (d + charset_len p * index_from_last rps rds)
        with (d + index_from_last rps rds * charset_len p) by ring.
      rewrite Z.div_add by lia. rewrite Z.div_small by lia. lia. }
    now rewrite IH.
Qed.

Lemma valid_digits_reverse ps ds :
  valid_digits ps ds <-> Forall2 digit_ok (reverse ps) (reverse ds).
Proof.
  unfold valid_digits. split; intros H.
  - now apply Forall2_reverse.
  - rewrite <- (reverse_involutive ps), <- (reverse_involutive ds).
    now apply Forall2_reverse.
Qed.

Lemma index_to_digits_length ps i : length (index_to_digits ps i) = length ps.
Proof.
  unfold index_to_digits.
  now rewrite length_reverse, digits_from_last_length, length_reverse.
Qed.

(** The in-place loop of [index_to_mask_indices] computes the odometer
    digits into the first [k] entries and leaves the other entries alone. *)
Lemma mask_indices_loop_spec ps : forall k remaining indices,
  Forall radix_ok ps -> 0 <= remaining ->
  (k <= length ps)%nat -> (length ps <= length indices)%nat ->
  mask_indices_loop ps k remaining indices
  = reverse (digits_from_last (reverse (take k ps)) remaining) ++ drop k indices.
Proof.
  induction k as [|i IH]; intros remaining indices Hps Hrem Hk Hlen.
  - reflexivity.
  - destruct (lookup_lt_is_Some_2 ps i ltac:(lia)) as [p Hp].
    pose proof (proj1 (Forall_lookup _ _) Hps i p Hp) as Hrad.
    cbn [mask_indices_loop]. rewrite Hp.
    rewrite (take_S_r _ _ _ Hp), reverse_snoc. cbn [digits_from_last].
    destruct (lookup_lt_is_Some_2 indices i ltac:(lia)) as [x Hx].
    destruct (is_word (type p)) eqn:Hw.
    + rewrite IH by (rewrite ?length_insert; (assumption || lia)).
      rewrite reverse_cons, <- app_assoc. f_equal.
      rewrite drop_insert_ge by lia. rewrite Nat.sub_diag.
      now rewrite (drop_S _ _ _ Hx).
    + specialize (Hrad Hw).
      pose proof (Z.mod_pos_bound remaining (charset_len p) ltac:(lia)).
      rewrite wrap32_small by (unfold is_u32; lia).
      rewrite IH by (rewrite ?length_insert; try assumption; try lia;
                     apply Z.div_pos; lia).
      rewrite reverse_cons, <- app_assoc. f_equal.
      rewrite drop_insert_ge by lia. rewrite Nat.sub_diag.
      now rewrite (drop_S _ _ _ Hx).
Qed.

Lemma index_to_mask_indices_spec ctx mask_idx indices :
  Forall radix_ok (positions ctx) -> 0 <= mask_idx ->
  (length (positions ctx) <= length indices)%nat ->
  index_to_mask_indices ctx mask_idx indices
  = index_to_digits (positions ctx) mask_idx
    ++ drop (length (positions ctx)) indices.
Proof.
  intros Hps Hi Hlen. unfold index_to_mask_indices, index_to_digits.
  rewrite mask_indices_loop_spec by (assumption || lia).
  now rewrite firstn_all.
Qed.

Lemma index_to_digits_valid ps i :
  Forall radix_ok ps -> 0 <= i -> valid_digits ps (index_to_digits ps i).
Proof.
  intros Hps Hi. apply valid_digits_reverse. unfold index_to_digits.
  rewrite reverse_involutive.
  apply digits_from_last_valid; [now apply radix_ok_reverse | assumption].
Qed.

Lemma digits_to_index_to_digits ps i :
  Forall radix_ok ps -> 0 <= i < mask_product ps ->
  digits_to_index ps (index_to_digits ps i) = i.
Proof.
  intros Hps Hi. unfold digits_to_index, index_to_digits.
  rewrite reverse_involutive.
  rewrite index_of_digits_from_last by now apply radix_ok_reverse.
  rewrite mask_product_reverse. apply Z.mod_small. lia.
Qed.

Lemma index_to_digits_to_index ps ds :
  Forall radix_ok ps -> valid_digits ps ds ->
  index_to_digits ps (digits_to_index ps ds) = ds
  /\ 0 <= digits_to_index ps ds < mask_product ps.
Proof.
  intros Hps Hds. apply valid_digits_reverse in Hds.
  pose proof (radix_ok_reverse ps Hps) as Hrps.
  unfold digits_to_index, index_to_digits. split.
  - rewrite digits_of_index_from_last by assumption.
    apply reverse_involutive.
  - rewrite <- (mask_product_reverse ps).
    now apply index_from_last_range.
Qed.

(** ** Outcomes *)

Lemma bind_Ok {A B : Type} (m : outcome A) (k : A -> outcome B) (b : B) :
  m ≫= k = Ok b -> exists a, m = Ok a /\ k a = Ok b.
Proof.
  unfold mbind, outcome_bind.
  destruct m as [a| |]; intros H; try discriminate. eauto.
Qed.

Lemma bind_Err {A B : Type} (m : outcome A) (k : A -> outcome B) (e : pd_error) :
  m ≫= k = Err e -> m = Err e \/ exists a, m = Ok a /\ k a = Err e.
Proof.
  unfold mbind, outcome_bind.
  destruct m as [a|e'|]; intros H;
    [right; eauto | left; congruence | discriminate].
Qed.

Lemma rd_Ok {A : Type} (a : list A) (i : Z) (x : A) :
  rd a i = Ok x <-> 0 <= i /\ a !! Z.to_nat i = Some x.
Proof.
  unfold rd. destruct (Z.leb_spec 0 i).
  - destruct (a !! Z.to_nat i); split; intros H'; try discriminate.
    + inversion H'; subst. now split.
    + destruct H' as [_ H']. now inversion H'.
    + now destruct H'.
  - split; [discriminate | lia].
Qed.

Lemma rd_in_range {A : Type} (a : list A) (i : Z) :
  0 <= i < Z.of_nat (length a) -> exists x, rd a i = Ok x.
Proof.
  intros Hi. destruct (lookup_lt_is_Some_2 a (Z.to_nat i) ltac:(lia)) as [x Hx].
  exists x. apply rd_Ok. split; [lia | assumption].
Qed.

Lemma rd_not_Err {A : Type} (a : list A) (i : Z) (e : pd_error) :
  rd a i <> Err e.
Proof.
  unfold rd. destruct (0 <=? i); [destruct (a !! Z.to_nat i)|]; discriminate.
Qed.

Lemma rd_nat {A : Type} (a : list A) (k : nat) (x : A) :
  a !! k = Some x -> rd a (Z.of_nat k) = Ok x.
Proof. intros H. apply rd_Ok. rewrite Nat2Z.id. split; [lia | assumption]. Qed.

(** ** Custom charsets: the registry invariant *)

Lemma init_charsets_registry_ok : registry_ok init_charsets.
Proof.
  unfold registry_ok, init_charsets; simpl. repeat split.
  - repeat constructor.
  - intros k H. do 4 (destruct k as [|k]; [discriminate|]). discriminate.
Qed.

Lemma memcpy_Ok dst off src n :
  0 <= off -> 0 <= n -> n <= Z.of_nat (length src) ->
  off + n <= Z.of_nat (length dst) ->
  memcpy dst off src n
  = Ok (take (Z.to_nat off) dst ++ take (Z.to_nat n) src
        ++ drop (Z.to_nat (off + n)) dst).
Proof.
  intros H1 H2 H3 H4. unfold memcpy.
  replace (0 <=? off) with true by (symmetry; apply Z.leb_le; lia).
  replace (0 <=? n) with true by (symmetry; apply Z.leb_le; lia).
  replace (n <=? Z.of_nat (length src)) with true by (symmetry; apply Z.leb_le; lia).
  replace (off + n <=? Z.of_nat (length dst)) with true by (symmetry; apply Z.leb_le; lia).
  reflexivity.
Qed.

Lemma memcpy_result dst off src n buf :
  memcpy dst off src n = Ok buf ->
  0 <= off /\ 0 <= n
  /\ length buf = length dst
  /\ take (Z.to_nat (off + n)) buf
     = take (Z.to_nat off) dst ++ take (Z.to_nat n) src.
Proof.
  unfold memcpy. intros H.
  destruct (Z.leb_spec 0 off); [|discriminate].
  destruct (Z.leb_spec 0 n); [|discriminate].
  destruct (Z.leb_spec n (Z.of_nat (length src))); [|discriminate].
  destruct (Z.leb_spec (off + n) (Z.of_nat (length dst))); [|discriminate].
  simpl in H. inversion H; subst buf; clear H.
  repeat split; try assumption.
  - rewrite !length_app, !length_take, length_drop. lia.
  - rewrite app_assoc. rewrite take_app_length'; [reflexivity|].
    rewrite length_app, !length_take. lia.
Qed.

Lemma copy_charset_result cs_buf cs_len src aliased src_len buf len :
  length cs_buf = 256%nat -> 0 <= cs_len < 256 ->
  copy_charset cs_buf cs_len src aliased src_len = Ok (buf, len) ->
  length buf = 256%nat
  /\ len = cs_len + Z.max 0 (Z.min src_len (256 - cs_len))
  /\ take (Z.to_nat len) buf
     = take (Z.to_nat cs_len) cs_buf ++ take (Z.to_nat (len - cs_len)) src.
Proof.
  intros Hlen Hcs. unfold copy_charset, CS_CUSTOM_MAX.
  destruct (Z.ltb_spec 0 src_len) as [Hpos|Hnp].
  - destruct (aliased && _); [discriminate|].
    intros H. apply bind_Ok in H as (b & Hm & Hb).
    inversion Hb; subst; clear Hb.
    apply memcpy_result in Hm as (_ & _ & Hl & Ht).
    split; [congruence|]. split.
    + destruct (Z.leb_spec (cs_len + src_len) 256); lia.
    + rewrite Ht. do 2 f_equal. lia.
  - intros H. inversion H; subst; clear H.
    split; [assumption|]. split; [lia|].
    rewrite Z.sub_diag. simpl. now rewrite app_nil_r.
Qed.

(** A copy from another object never fails: it is cut to the room left. *)
Lemma copy_charset_Ok cs_buf cs_len src src_len :
  length cs_buf = 256%nat -> 0 <= cs_len < 256 ->
  0 < src_len <= Z.of_nat (length src) ->
  exists buf, copy_charset cs_buf cs_len src false src_len
              = Ok (buf, cs_len + Z.min src_len (256 - cs_len)).
Proof.
  intros Hlen Hcs Hsrc. unfold copy_charset, CS_CUSTOM_MAX.
  replace (0 <? src_len) with true by (symmetry; apply Z.ltb_lt; lia).
  simpl.
  destruct (Z.leb_spec (cs_len + src_len) 256).
  - rewrite memcpy_Ok by lia. simpl. rewrite Z.min_l by lia. eauto.
  - rewrite memcpy_Ok by lia. simpl. rewrite Z.min_r by lia. eauto.
Qed.

Lemma add_if_fits_result cs_buf cs_len src src_len buf len :
  length cs_buf = 256%nat -> 0 <= cs_len <= 256 -> 0 <= src_len ->
  add_if_fits (cs_buf, cs_len) src src_len = Ok (buf, len) ->
  length buf = 256%nat
  /\ len = (if cs_len + src_len <=? 256 then cs_len + src_len else cs_len)
  /\ take (Z.to_nat len) buf
     = take (Z.to_nat cs_len) cs_buf ++ take (Z.to_nat (len - cs_len)) src.
Proof.
  intros Hlen Hcs Hsrc. unfold add_if_fits, CS_CUSTOM_MAX.
  destruct (Z.leb_spec (cs_len + src_len) 256) as [Hfit|Hno].
  - intros H. apply bind_Ok in H as (b & Hm & Hb).
    inversion Hb; subst; clear Hb.
    apply memcpy_result in Hm as (_ & _ & Hl & Ht).
    split; [congruence|]. split; [reflexivity|].
    rewrite Ht. do 2 f_equal. lia.
  - intros H. inversion H; subst; clear H.
    split; [assumption|]. split; [reflexivity|].
    rewrite Z.sub_diag. simpl. now rewrite app_nil_r.
Qed.

Lemma registry_slot ctx k :
  registry_ok ctx -> cs_custom_defined ctx !! k = Some true ->
  exists buf len,
    cs_custom ctx !! k = Some buf /\ length buf = 256%nat
    /\ cs_custom_len ctx !! k = Some len /\ 1 <= len <= 256.
Proof.
  intros (H1 & H2 & H3 & H4 & H5) Hd.
  destruct (H5 k Hd) as (len & Hl & Hr).
  apply lookup_lt_Some in Hd.
  destruct (lookup_lt_is_Some_2 (cs_custom ctx) k ltac:(lia)) as [buf Hb].
  exists buf, len. repeat split; try assumption; try lia.
  exact (proj1 (Forall_lookup _ _) H4 k buf Hb).
Qed.

Ltac cs_consts :=
  unfold CS_ALL_LEN, CS_LOWER_LEN, CS_UPPER_LEN, CS_DIGIT_LEN, CS_SPECIAL_LEN,
    CS_HEX_LOW_LEN, CS_HEX_UP_LEN, CS_BINARY_LEN, CS_CUSTOM_MAX,
    CUSTOM_CHARSET_COUNT, PATTERN_MAX_POSITIONS in *.

Ltac case_if :=
  match goal with
  | |- context [if ?b then _ else _] => destruct b eqn:?
  end.

(** One escape of a definition keeps the buffer size, never shrinks the
    expansion, stays within the cap and, from an empty expansion, adds at
    least one byte. *)
Lemma cs_expand_inv ctx k spec cs_buf cs_len buf len :
  registry_ok ctx -> length cs_buf = 256%nat -> 0 <= cs_len < 256 ->
  cs_expand ctx k spec cs_buf cs_len = Ok (buf, len) ->
  length buf = 256%nat /\ cs_len <= len <= 256 /\ (cs_len = 0 -> 0 < len).
Proof.
  intros Hreg Hlen Hcs. unfold cs_expand.
  assert (Hcopy : forall src al n, 0 < n ->
            copy_charset cs_buf cs_len src al n = Ok (buf, len) ->
            length buf = 256%nat /\ cs_len <= len <= 256 /\ (cs_len = 0 -> 0 < len)).
  { intros src al n Hn H.
    apply copy_charset_result in H as (Hl & Hv & _); try assumption.
    split; [assumption|]. lia. }
  do 7 (case_if; [apply Hcopy; reflexivity|]).
  case_if.
  { intros H.
    apply bind_Ok in H as ([b1 l1] & H1 & Ha).
    apply bind_Ok in Ha as ([b2 l2] & H2 & Hb).
    apply bind_Ok in Hb as ([b3 l3] & H3 & H4).
    unfold CS_LOWER_LEN, CS_UPPER_LEN, CS_DIGIT_LEN, CS_SPECIAL_LEN in *.
    apply add_if_fits_result in H1 as (L1 & V1 & _); [|assumption|lia|lia].
    assert (0 <= l1 <= 256 /\ cs_len <= l1 /\ (cs_len = 0 -> 0 < l1)) as (R1 & M1 & P1)
      by (destruct (Z.leb_spec (cs_len + 26) 256); lia).
    apply add_if_fits_result in H2 as (L2 & V2 & _); [|assumption|lia|lia].
    assert (0 <= l2 <= 256 /\ l1 <= l2) as (R2 & M2)
      by (destruct (Z.leb_spec (l1 + 26) 256); lia).
    apply add_if_fits_result in H3 as (L3 & V3 & _); [|assumption|lia|lia].
    assert (0 <= l3 <= 256 /\ l2 <= l3) as (R3 & M3)
      by (destruct (Z.leb_spec (l2 + 10) 256); lia).
    apply add_if_fits_result in H4 as (L4 & V4 & _); [|assumption|lia|lia].
    split; [assumption|].
    destruct (Z.leb_spec (l3 + 33) 256); lia. }
  case_if.
  { intros H. apply bind_Ok in H as (defined & Hd & Ha).
    destruct defined; simpl in Ha; [|discriminate].
    apply rd_Ok in Hd as (_ & Hd). rewrite Nat2Z.id in Hd.
    destruct (registry_slot ctx _ Hreg Hd) as (sb & sl & Hsb & Hsbl & Hsl & Hslr).
    apply bind_Ok in Ha as (src_len & Hr & Hb).
    apply rd_Ok in Hr as (_ & Hr). rewrite Nat2Z.id in Hr.
    assert (src_len = sl) as -> by congruence.
    destruct (Nat.eqb _ k) in Hb.
    - eapply Hcopy; [|exact Hb]. lia.
    - apply bind_Ok in Hb as (src & _ & Hc). eapply Hcopy; [|exact Hc]. lia. }
  case_if; [|discriminate].
  unfold CS_CUSTOM_MAX.
  destruct (Z.ltb_spec cs_len 256) as [Hlt|Hge]; [|lia].
  intros H. inversion H; subst; clear H.
  rewrite length_insert. split; [assumption|]. lia.
Qed.

Lemma cs_scan_inv ctx k :
  registry_ok ctx ->
  forall n cs_def cs_buf cs_len buf len,
    (length cs_def <= n)%nat ->
    length cs_buf = 256%nat -> 0 <= cs_len <= 256 ->
    cs_scan ctx k cs_def cs_buf cs_len = Ok (buf, len) ->
    length buf = 256%nat /\ cs_len <= len <= 256
    /\ (cs_len = 0 -> cs_def <> [] -> 0 < len).
Proof.
  intros Hreg. induction n as [|n IH]; intros cs_def cs_buf cs_len buf len Hn Hlen Hcs.
  - destruct cs_def; [|simpl in Hn; lia]. simpl. intros H. inversion H; subst.
    repeat split; try assumption; try lia. congruence.
  - destruct cs_def as [|c rest].
    { simpl. intros H. inversion H; subst.
      repeat split; try assumption; try lia. congruence. }
    cbn [cs_scan]. unfold CS_CUSTOM_MAX.
    destruct (Z.ltb_spec cs_len 256) as [Hlt|Hge]; cbn [negb].
    2:{ intros H. inversion H; subst. repeat split; try assumption; lia. }
    destruct (c =? "?")%char.
    + destruct rest as [|spec rest']; [discriminate|].
      intros H. apply bind_Ok in H as ([b1 l1] & He & Hs).
      apply cs_expand_inv in He as (Hb1 & Hl1 & Hp1); try assumption; try lia.
      cbn [fst snd] in Hs. simpl in Hn.
      apply IH in Hs as (Hb & Hl & _); try assumption; lia.
    + intros H. simpl in Hn.
      apply IH in H as (Hb & Hl & _); rewrite ?length_insert; try assumption; lia.
Qed.

(** A successful definition fills slot [cs_idx] with between 1 and
    [CS_CUSTOM_MAX] bytes, marks it defined and touches nothing else. *)
Lemma parse_custom_charset_Ok ctx cs_idx cs_def ctx' :
  registry_ok ctx ->
  parse_custom_charset ctx cs_idx cs_def = Ok ctx' ->
  0 <= cs_idx < 4 /\ cs_def <> []
  /\ (exists buf len,
        cs_custom ctx' = <[Z.to_nat cs_idx := buf]> (cs_custom ctx)
        /\ cs_custom_len ctx' = <[Z.to_nat cs_idx := len]> (cs_custom_len ctx)
        /\ cs_custom_defined ctx'
           = <[Z.to_nat cs_idx := true]> (cs_custom_defined ctx)
        /\ length buf = 256%nat /\ 1 <= len <= 256)
  /\ positions ctx' = positions ctx.
Proof.
  intros Hreg. unfold parse_custom_charset, CUSTOM_CHARSET_COUNT.
  destruct (Z.ltb_spec cs_idx 0) as [Hneg|Hnn]; [discriminate|].
  destruct (Z.leb_spec 4 cs_idx) as [Hbig|Hsm]; [discriminate|]. cbn [orb].
  intros H. apply bind_Ok in H as (cs_buf & Hrd & H1).
  apply bind_Ok in H1 as ([buf len] & Hscan & H2). cbn [fst snd] in H2.
  destruct (Z.eqb_spec len 0) as [Hz|Hnz]; [discriminate|].
  inversion H2; subst ctx'; clear H2. cbn.
  apply rd_Ok in Hrd as (_ & Hrd).
  destruct Hreg as (R1 & R2 & R3 & R4 & R5).
  pose proof (proj1 (Forall_lookup _ _) R4 _ _ Hrd) as Hbl.
  pose proof Hscan as Hscan'.
  apply (cs_scan_inv ctx _ (conj R1 (conj R2 (conj R3 (conj R4 R5)))) (length cs_def))
    in Hscan as (Hb & Hl & Hp); try assumption; try lia.
  split; [lia|]. split.
  - intros ->. simpl in Hscan'. inversion Hscan'. lia.
  - split; [|reflexivity]. exists buf, len. repeat split; try assumption; lia.
Qed.

Lemma parse_custom_charset_registry_ok ctx cs_idx cs_def ctx' :
  registry_ok ctx ->
  parse_custom_charset ctx cs_idx cs_def = Ok ctx' ->
  registry_ok ctx'.
Proof.
  intros Hreg H.
  destruct (parse_custom_charset_Ok _ _ _ _ Hreg H)
    as (Hidx & _ & (buf & len & E1 & E2 & E3 & Hb & Hl) & _).
  destruct Hreg as (R1 & R2 & R3 & R4 & R5).
  unfold registry_ok. rewrite E1, E2, E3, !length_insert.
  repeat split; try assumption.
  - apply Forall_insert; assumption.
  - intros k Hk.
    destruct (decide (k = Z.to_nat cs_idx)) as [->|Hne].
    + exists len. split; [|assumption].
      apply list_lookup_insert_eq. lia.
    + rewrite list_lookup_insert_ne in Hk by congruence.
      rewrite list_lookup_insert_ne by congruence. now apply R5.
Qed.

Lemma parse_options_registry_ok : forall n args ctx ctx' rest,
  (length args <= n)%nat ->
  registry_ok ctx -> parse_options ctx args = Ok (ctx', rest) ->
  registry_ok ctx' /\ positions ctx' = positions ctx.
Proof.
  induction n as [|n IH]; intros args ctx ctx' rest Hn Hreg.
  - destruct args; [|simpl in Hn; lia]. simpl. intros H. now inversion H; subst.
  - destruct args as [|a args]; [simpl; intros H; now inversion H; subst|].
    cbn [parse_options]. destruct (cs_option a) as [cs_idx|].
    + destruct args as [|cs_def args']; [discriminate|].
      intros H. apply bind_Ok in H as (ctx1 & H1 & H2).
      pose proof (parse_custom_charset_registry_ok _ _ _ _ Hreg H1) as Hreg1.
      destruct (parse_custom_charset_Ok _ _ _ _ Hreg H1) as (_ & _ & _ & Hp).
      apply IH in H2 as (Hr & Hp2); [|simpl in Hn; lia|assumption].
      split; [assumption | congruence].
    + intros H. now inversion H; subst.
Qed.

(** ** Pattern compiler: what a compiled pattern satisfies *)

Lemma pos_ok_radix_ok ctx p : pos_ok ctx p -> radix_ok p.
Proof. intros H Hw. destruct (H Hw) as [Hr _]. lia. Qed.

Lemma builtin_readable (tab : list byte) (n d : Z) :
  Z.of_nat (length tab) = n -> 0 <= d < n -> exists c, rd tab d = Ok c.
Proof. intros <- Hd. now apply rd_in_range. Qed.

Lemma custom_position_Ok ctx k t p :
  registry_ok ctx -> is_word t = false ->
  custom_position ctx k t = Ok p ->
  type p = t /\ pos_ok ctx p.
Proof.
  intros Hreg Ht H. unfold custom_position in H.
  apply bind_Ok in H as (defined & Hd & H1).
  destruct defined; cbn [negb] in H1; [|discriminate].
  apply bind_Ok in H1 as (len & Hl & H2). inversion H2; subst p; clear H2.
  apply rd_Ok in Hd as (_ & Hd). apply rd_Ok in Hl as (_ & Hl).
  rewrite Nat2Z.id in Hd, Hl.
  destruct (registry_slot _ _ Hreg Hd) as (buf & len' & Hb & Hbl & Hl' & Hr).
  assert (len' = len) as -> by congruence.
  split; [reflexivity|]. intros _. cbn. split; [assumption|].
  intros d Hd'. unfold charset_read; cbn.
  rewrite (rd_nat _ _ _ Hb). cbn.
  apply rd_in_range. lia.
Qed.

(** The position an escape produces: a checked non-word position that leaves
    the word bookkeeping alone, or the word position, recorded at [num]. *)
Lemma pattern_escape_Ok ctx spec num wp found p wp' found' :
  registry_ok ctx ->
  pattern_escape ctx spec num wp found = Ok (p, wp', found') ->
  pos_ok ctx p
  /\ ((spec = "W"%char /\ is_word (type p) = true /\ found = false
       /\ found' = true /\ wp' = num)
      \/ (spec <> "W"%char /\ nonword p /\ found' = found /\ wp' = wp)).
Proof.
  intros Hreg. unfold pattern_escape.
  assert (Hbuiltin : forall t len ptr tab,
            is_word t = false -> 1 <= len <= 256 ->
            Z.of_nat (length tab) = len ->
            (forall d, charset_read ctx (mkPos t (ascii_of_nat 0) len ptr) d = rd tab d) ->
            pos_ok ctx (mkPos t (ascii_of_nat 0) len ptr)).
  { intros t len ptr tab Ht Hl Htab Hrd _. cbn. split; [assumption|].
    intros d Hd. rewrite Hrd. eapply builtin_readable; eassumption. }
  assert (Hkeep : forall b (q : pattern_position),
            (spec =? "W")%char = false -> (spec =? b)%char = true ->
            nonword q -> pos_ok ctx q ->
            Ok (q, wp, found) = Ok (p, wp', found') ->
            pos_ok ctx p
            /\ ((spec = "W"%char /\ is_word (type p) = true /\ found = false
                 /\ found' = true /\ wp' = num)
                \/ (spec <> "W"%char /\ nonword p /\ found' = found /\ wp' = wp))).
  { intros b q HW _ Hq Hok E. inversion E; subst. split; [assumption|].
    right. repeat split; try assumption. now apply Ascii.eqb_neq. }
  assert (Hcustom : forall b k t,
            (spec =? "W")%char = false -> (spec =? b)%char = true ->
            is_word t = false ->
            (custom_position ctx k t ≫= λ q, Ok (q, wp, found)) = Ok (p, wp', found') ->
            pos_ok ctx p
            /\ ((spec = "W"%char /\ is_word (type p) = true /\ found = false
                 /\ found' = true /\ wp' = num)
                \/ (spec <> "W"%char /\ nonword p /\ found' = found /\ wp' = wp))).
  { intros b k t HW Hb Ht E. apply bind_Ok in E as (q & Hq & E).
    destruct (custom_position_Ok _ _ _ _ Hreg Ht Hq) as (Hty & Hok).
    eapply Hkeep; try eassumption. unfold nonword. now rewrite Hty. }
  destruct (spec =? "W")%char eqn:HW.
  - apply Ascii.eqb_eq in HW. subst spec. cbn.
    destruct found; [discriminate|].
    intros E. inversion E; subst. split; [intros Hn; discriminate Hn|].
    left. repeat split.
  - case_if; [eapply Hkeep; try eassumption; try reflexivity;
              eapply (Hbuiltin _ _ _ CHARSET_LOWER); try reflexivity; cs_consts; lia|].
    case_if; [eapply Hkeep; try eassumption; try reflexivity;
              eapply (Hbuiltin _ _ _ CHARSET_UPPER); try reflexivity; cs_consts; lia|].
    case_if; [eapply Hkeep; try eassumption; try reflexivity;
              eapply (Hbuiltin _ _ _ CHARSET_DIGIT); try reflexivity; cs_consts; lia|].
    case_if; [eapply Hkeep; try eassumption; try reflexivity;
              eapply (Hbuiltin _ _ _ CHARSET_SPECIAL); try reflexivity; cs_consts; lia|].
    case_if; [eapply Hkeep; try eassumption; try reflexivity;
              eapply (Hbuiltin _ _ _ CHARSET_ALL); try reflexivity; cs_consts; lia|].
    case_if; [eapply Hkeep; try eassumption; try reflexivity;
              eapply (Hbuiltin _ _ _ CHARSET_HEX_LOW); try reflexivity; cs_consts; lia|].
    case_if; [eapply Hkeep; try eassumption; try reflexivity;
              eapply (Hbuiltin _ _ _ CHARSET_HEX_UP); try reflexivity; cs_consts; lia|].
    case_if; [eapply Hkeep; try eassumption; try reflexivity;
              eapply (Hbuiltin _ _ _ CHARSET_BINARY); try reflexivity; cs_consts; lia|].
    do 4 (case_if; [eapply Hcustom; try eassumption; reflexivity|]).
    case_if; [|discriminate].
    eapply Hkeep; try eassumption; try reflexivity.
    intros _. cbn. split; [lia|]. intros d Hd. unfold charset_read; cbn.
    apply rd_in_range. simpl. lia.
Qed.

Lemma word_at_snoc ps wp p :
  word_at ps wp -> nonword p -> word_at (ps ++ [p]) wp.
Proof.
  intros (pre & w & suf & -> & Hw & Hpre & Hsuf & ->) Hp.
  exists pre, w, (suf ++ [p]). repeat split; try assumption.
  - now rewrite <- app_assoc.
  - apply Forall_app. split; [assumption | now constructor].
Qed.

Lemma word_at_new ps w :
  Forall nonword ps -> is_word (type w) = true ->
  word_at (ps ++ [w]) (Z.of_nat (length ps)).
Proof.
  intros Hps Hw. exists ps, w, []. repeat split; try assumption. constructor.
Qed.

Lemma pattern_scan_Ok ctx :
  registry_ok ctx ->
  forall n pattern ps wp found ps' wp' found',
    (length pattern <= n)%nat ->
    scan_state_ok ctx ps wp found ->
    pattern_scan ctx pattern ps wp found = Ok (ps', wp', found') ->
    scan_state_ok ctx ps' wp' found'
    /\ (Nat.b2n found + word_escapes pattern = Nat.b2n found')%nat.
Proof.
  intros Hreg.
  induction n as [|n IH]; intros pattern ps wp found ps' wp' found' Hn Hst.
  - destruct pattern; [|simpl in Hn; lia]. simpl. intros H. inversion H; subst.
    split; [assumption | lia].
  - destruct pattern as [|c rest].
    { simpl. intros H. inversion H; subst. split; [assumption | lia]. }
    cbn [pattern_scan word_escapes]. unfold PATTERN_MAX_POSITIONS.
    destruct (Z.leb_spec 32 (Z.of_nat (length ps))) as [Hfull|Hroom];
      [discriminate|].
    destruct Hst as (Hlen & Hok & Hword).
    destruct (c =? "?")%char.
    + destruct rest as [|spec rest']; [discriminate|].
      intros H. apply bind_Ok in H as ([[p wp1] found1] & He & Hs).
      cbn [fst snd] in Hs. simpl in Hn.
      destruct (pattern_escape_Ok _ _ _ _ _ _ _ _ Hreg He) as (Hp & Hcase).
      apply IH in Hs as (Hst' & Hcnt); [| lia |].
      * split; [assumption|].
        destruct Hcase as [(-> & _ & -> & -> & _) | (Hne & _ & -> & _)].
        -- simpl in *. lia.
        -- apply Ascii.eqb_neq in Hne. rewrite Hne. simpl. lia.
      * split; [rewrite length_app; simpl; lia|].
        split; [apply Forall_app; split; [assumption | now constructor]|].
        destruct Hcase as [(_ & Hw & -> & -> & ->) | (_ & Hnw & -> & ->)].
        -- now apply word_at_new.
        -- destruct found.
           ++ now apply word_at_snoc.
           ++ apply Forall_app. split; [assumption | now constructor].
    + intros H. simpl in Hn.
      assert (Hlit : nonword (mkPos POS_LITERAL c 1 PtrLiteral)) by reflexivity.
      apply IH in H as (Hst' & Hcnt); [| lia |].
      * split; [assumption | lia].
      * split; [rewrite length_app; simpl; lia|].
        split.
        -- apply Forall_app. split; [assumption|]. constructor; [|constructor].
           intros _. cbn. split; [lia|]. intros d Hd. unfold charset_read; cbn.
           apply rd_in_range. simpl. lia.
        -- destruct found.
           ++ now apply word_at_snoc.
           ++ apply Forall_app. split; [assumption | now constructor].
Qed.

(** A pattern that compiles has exactly one [?W] escape, and the context it
    leaves satisfies [compiled]. *)
Lemma parse_pattern_Ok ctx pattern ctx' :
  registry_ok ctx ->
  parse_pattern ctx pattern = Ok ctx' ->
  compiled ctx' /\ word_escapes pattern = 1%nat
  /\ cs_custom ctx' = cs_custom ctx.
Proof.
  intros Hreg H. unfold parse_pattern in H.
  apply bind_Ok in H as ([[ps wp] found] & Hs & H1).
  apply (pattern_scan_Ok ctx Hreg (length pattern)) in Hs as (Hst & Hcnt);
    [| lia | repeat split; simpl; try lia; constructor].
  destruct found; cbn [negb] in H1; [|discriminate].
  destruct (count_prefix_suffix _ _) as [pre suf].
  inversion H1; subst ctx'; clear H1.
  destruct Hst as (Hlen & Hok & Hw).
  split; [|split; [simpl in Hcnt; lia | reflexivity]].
  unfold compiled; cbn. repeat split; try assumption; try apply Hreg.
Qed.

Lemma global_init_compiled workv ctx :
  global_init workv = Ok ctx -> compiled ctx.
Proof.
  unfold global_init. intros H.
  apply bind_Ok in H as ([ctx1 rest] & Ho & Hp). cbn [fst snd] in Hp.
  apply (parse_options_registry_ok (length (drop 1 workv))) in Ho as (Hreg & _);
    [| lia | apply init_charsets_registry_ok].
  destruct rest as [|pattern [|wordlist rest']]; try discriminate.
  now apply parse_pattern_Ok in Hp as (Hc & _).
Qed.

Lemma compiled_radix_ok ctx : compiled ctx -> Forall radix_ok (positions ctx).
Proof.
  intros (_ & _ & Hok & _). eapply Forall_impl; [exact Hok|].
  intros p. apply pos_ok_radix_ok.
Qed.

(** ** Keyspace of a compiled pattern *)

Lemma count_words_range data : is_u64 (count_words data).
Proof.
  unfold count_words.
  assert (H : forall (l : list byte) acc, is_u64 acc ->
            is_u64 (fold_left (fun (count : Z) (c : byte) =>
                       if (c =? NL)%char then wrap64 (count + 1) else count) l acc)).
  { induction l as [|c l IH]; intros acc Hacc; simpl; [assumption|].
    apply IH. destruct (c =? NL)%char; [apply wrap64_range | assumption]. }
  specialize (H data 0 ltac:(unfold is_u64; lia)).
  destruct (last data) as [c|]; [|assumption].
  destruct (c =? NL)%char; [assumption | apply wrap64_range].
Qed.

(** What [build_word_index] leaves alone, and the count it stores. *)
Lemma build_word_index_fields ctx data ctx' :
  build_word_index ctx data = Ok ctx' ->
  positions ctx' = positions ctx
  /\ word_position ctx' = word_position ctx
  /\ cs_custom ctx' = cs_custom ctx
  /\ cs_custom_len ctx' = cs_custom_len ctx
  /\ cs_custom_defined ctx' = cs_custom_defined ctx
  /\ word_count ctx' = count_words data
  /\ 0 < count_words data <= SIZE_MAX / 8.
Proof.
  unfold build_word_index.
  destruct (Z.eqb_spec (count_words data) 0) as [Hz|Hnz]; [discriminate|].
  destruct (Z.ltb_spec (SIZE_MAX / 8) (count_words data)) as [Hbig|Hfit];
    [discriminate|].
  intros H. apply bind_Ok in H as (st & _ & H1).
  apply bind_Ok in H1 as (tabs & _ & H2).
  inversion H2; subst ctx'; cbn.
  pose proof (count_words_range data) as Hr. unfold is_u64 in Hr.
  repeat split; try reflexivity; try assumption. lia.
Qed.

Lemma thread_init_Ok ctx file tctx :
  thread_init ctx file = Ok tctx ->
  file <> [] /\ fd_mem tctx = file /\ fd_len tctx = Z.of_nat (length file)
  /\ current_word_idx tctx = 0 /\ current_mask_idx tctx = 0
  /\ current_offset tctx = 0
  /\ mask_indices tctx
     = index_to_mask_indices ctx 0 (replicate (Z.to_nat PATTERN_MAX_POSITIONS) 0).
Proof.
  unfold thread_init.
  destruct (Z.eqb_spec (Z.of_nat (length file)) 0) as [Hz|Hnz]; [discriminate|].
  intros H. inversion H; subst tctx; cbn. repeat split.
  intros ->. simpl in Hnz. lia.
Qed.

(** The context [global_keyspace] leaves: the compiled pattern is kept, the
    word index is built from the file, and the two keyspace fields are
    computed from them. *)
Lemma global_keyspace_Ok ctx0 file ctx :
  global_keyspace ctx0 file = Ok ctx ->
  exists ctx1,
    build_word_index ctx0 file = Ok ctx1
    /\ file <> []
    /\ positions ctx = positions ctx0
    /\ word_position ctx = word_position ctx0
    /\ cs_custom ctx = cs_custom ctx0
    /\ cs_custom_len ctx = cs_custom_len ctx0
    /\ cs_custom_defined ctx = cs_custom_defined ctx0
    /\ word_count ctx = count_words file
    /\ word_offsets ctx = word_offsets ctx1
    /\ word_lengths ctx = word_lengths ctx1
    /\ mask_keyspace ctx = calculate_mask_keyspace ctx0
    /\ total_keyspace ctx
       = calculate_total_keyspace (word_count ctx) (mask_keyspace ctx).
Proof.
  unfold global_keyspace. intros H.
  apply bind_Ok in H as (tctx & Ht & H1).
  apply thread_init_Ok in Ht as (Hne & Hmem & _).
  rewrite Hmem in H1.
  apply bind_Ok in H1 as (ctx1 & Hb & H2).
  exists ctx1. split; [assumption|]. split; [assumption|].
  destruct (build_word_index_fields _ _ _ Hb) as (E1 & E2 & E3 & E4 & E5 & E6 & _).
  inversion H2; subst ctx; cbn.
  unfold calculate_mask_keyspace. rewrite E1.
  repeat split; assumption.
Qed.

Lemma global_keyspace_compiled ctx0 file ctx :
  compiled ctx0 -> global_keyspace ctx0 file = Ok ctx -> compiled ctx.
Proof.
  intros (Hreg & Hlen & Hok & Hw) H.
  apply global_keyspace_Ok in H
    as (ctx1 & _ & _ & E1 & E2 & E3 & E4 & E5 & _).
  unfold compiled, registry_ok in *. rewrite E1, E2, E3, E4, E5.
  repeat split; try apply Hreg; try assumption.
  eapply Forall_impl; [exact Hok|].
  intros p Hp Hn. destruct (Hp Hn) as (Hr & Hrd). split; [assumption|].
  intros d Hd. destruct (Hrd d Hd) as (c & Hc). exists c.
  unfold charset_read in *. now rewrite E3.
Qed.

Lemma calculate_mask_keyspace_range ctx :
  Forall radix_ok (positions ctx) ->
  1 <= calculate_mask_keyspace ctx <= UINT64_MAX.
Proof.
  intros H. rewrite calculate_mask_keyspace_spec by assumption.
  pose proof (mask_product_pos _ H). unfold UINT64_MAX in *. lia.
Qed.

(** C2: for every compiled pattern, [mask_keyspace] is the exact product of
    the charset sizes of the non-word positions when that product fits 64
    unsigned bits and [UINT64_MAX] when it does not; [total_keyspace] is
    [word_count * mask_keyspace] under the same saturation rule. *)
Theorem keyspace_saturates workv ctx0 :
  global_init workv = Ok ctx0 ->
  let exact := mask_product (positions ctx0) in
  (exact <= UINT64_MAX -> calculate_mask_keyspace ctx0 = exact)
  /\ (UINT64_MAX < exact -> calculate_mask_keyspace ctx0 = UINT64_MAX)
  /\ forall file ctx,
       global_keyspace ctx0 file = Ok ctx ->
       mask_keyspace ctx = calculate_mask_keyspace ctx0
       /\ (word_count ctx * mask_keyspace ctx <= UINT64_MAX ->
           total_keyspace ctx = word_count ctx * mask_keyspace ctx)
       /\ (UINT64_MAX < word_count ctx * mask_keyspace ctx ->
           total_keyspace ctx = UINT64_MAX).
Proof.
  intros Hinit exact.
  pose proof (compiled_radix_ok _ (global_init_compiled _ _ Hinit)) as Hrad.
  pose proof (calculate_mask_keyspace_spec ctx0 Hrad) as Hmk.
  fold exact in Hmk.
  split; [intros H; lia|]. split; [intros H; lia|].
  intros file ctx Hks.
  apply global_keyspace_Ok in Hks
    as (ctx1 & _ & _ & _ & _ & _ & _ & _ & Hwc & _ & _ & Emk & Etot).
  split; [assumption|].
  pose proof (count_words_range file) as Hcnt. rewrite <- Hwc in Hcnt.
  pose proof (calculate_mask_keyspace_range ctx0 Hrad) as Hmr.
  rewrite Etot, calculate_total_keyspace_spec;
    [| assumption | rewrite Emk; unfold is_u64, UINT64_MAX in *; lia].
  split; intros H; lia.
Qed.

(** C3: for every compiled pattern, saturated or not, [index_to_mask_indices]
    writes the odometer digits of the mask index (last position least
    significant, digit [0] at the word position) into the first
    [num_positions] entries, and these digits are below the charset sizes;
    when [mask_keyspace] is not saturated the digits, restricted to
    [[0, mask_keyspace)], are a bijection onto the digit arrays whose
    non-word digits are below the charset sizes. *)
Theorem index_to_digits_bijection workv ctx :
  global_init workv = Ok ctx ->
  let ps := positions ctx in
  let mk := calculate_mask_keyspace ctx in
  (forall i indices,
     is_u64 i -> (length ps <= length indices)%nat ->
     index_to_mask_indices ctx i indices
     = index_to_digits ps i ++ drop (length ps) indices)
  /\ (forall i, 0 <= i -> valid_digits ps (index_to_digits ps i))
  /\ (mask_product ps <= UINT64_MAX ->
      (forall i, 0 <= i < mk -> digits_to_index ps (index_to_digits ps i) = i)
      /\ (forall i j, 0 <= i < mk -> 0 <= j < mk ->
            index_to_digits ps i = index_to_digits ps j -> i = j)
      /\ (forall ds, valid_digits ps ds ->
            exists i, 0 <= i < mk /\ index_to_digits ps i = ds)).
Proof.
  intros Hinit ps mk.
  pose proof (compiled_radix_ok _ (global_init_compiled _ _ Hinit)) as Hrad.
  fold ps in Hrad.
  split; [|split].
  - intros i indices Hi Hlen.
    apply index_to_mask_indices_spec; [assumption | unfold is_u64 in Hi; lia | assumption].
  - intros i Hi. apply index_to_digits_valid; assumption.
  - intros Hfit.
    assert (Hmk : mk = mask_product ps).
    { unfold mk. rewrite calculate_mask_keyspace_spec by assumption.
      fold ps. lia. }
    rewrite Hmk. repeat split.
    + intros i Hi. now apply digits_to_index_to_digits.
    + intros i j Hi Hj Heq.
      rewrite <- (digits_to_index_to_digits ps i), <- (digits_to_index_to_digits ps j)
        by assumption.
      now rewrite Heq.
    + intros ds Hds.
      destruct (index_to_digits_to_index ps ds Hrad Hds) as (Hrt & Hrange).
      exists (digits_to_index ps ds). split; assumption.
Qed.

(** ** Seek *)

(** An accepted offset never divides by zero when [total_keyspace] is the
    value [global_keyspace] computes. *)
Lemma accepted_offset_divisor wc mk offset :
  is_u64 wc -> is_u64 mk ->
  0 <= offset < calculate_total_keyspace wc mk -> 0 < mk /\ 0 < wc.
Proof.
  intros Hwc Hmk Ho.
  rewrite calculate_total_keyspace_spec in Ho by assumption.
  unfold is_u64 in *. nia.
Qed.

(** C1: [thread_seek] fails, setting an error, exactly when
    [offset >= total_keyspace], and then leaves the thread context as it
    was; every smaller offset is accepted and sets the word index, the mask
    index, the linear offset and the digit array from it. *)
Theorem thread_seek_spec ctx tctx offset :
  is_u64 offset ->
  let '(ret, err, tctx') := thread_seek ctx tctx offset in
  (ret = false <-> total_keyspace ctx <= offset)
  /\ (ret = false -> err = Some OffsetOutOfRange /\ tctx' = tctx)
  /\ (offset < total_keyspace ctx ->
      ret = true /\ err = None
      /\ current_word_idx tctx' = offset / mask_keyspace ctx
      /\ current_mask_idx tctx' = offset mod mask_keyspace ctx
      /\ current_offset tctx' = offset
      /\ mask_indices tctx'
         = index_to_mask_indices ctx (offset mod mask_keyspace ctx)
             (mask_indices tctx)
      /\ fd_mem tctx' = fd_mem tctx /\ fd_len tctx' = fd_len tctx
      /\ (compiled ctx -> 0 < mask_keyspace ctx ->
          (length (positions ctx) <= length (mask_indices tctx))%nat ->
          mask_indices tctx'
          = index_to_digits (positions ctx) (offset mod mask_keyspace ctx)
            ++ drop (length (positions ctx)) (mask_indices tctx))).
Proof.
  intros Hoff. unfold thread_seek.
  destruct (Z.leb_spec (total_keyspace ctx) offset) as [Hout|Hin].
  - split; [tauto|]. split; [tauto|]. lia.
  - split; [split; [discriminate | lia]|]. split; [discriminate|].
    intros _. cbn. repeat split.
    intros Hc Hmk Hlen. apply index_to_mask_indices_spec.
    + now apply compiled_radix_ok.
    + apply Z.mod_pos_bound. lia.
    + assumption.
Qed.

(** C10: an accepted seek leaves [word_index < word_count] and
    [mask_index < mask_keyspace], whether or not the keyspace values are
    saturated, so the word tables are then indexed within bounds. *)
Theorem thread_seek_in_bounds ctx tctx offset :
  is_u64 offset -> is_u64 (word_count ctx) -> is_u64 (mask_keyspace ctx) ->
  total_keyspace ctx
  = calculate_total_keyspace (word_count ctx) (mask_keyspace ctx) ->
  offset < total_keyspace ctx ->
  let '(ret, _, tctx') := thread_seek ctx tctx offset in
  ret = true
  /\ 0 <= current_word_idx tctx' < word_count ctx
  /\ 0 <= current_mask_idx tctx' < mask_keyspace ctx
  /\ (length (word_offsets ctx) = Z.to_nat (word_count ctx) ->
      exists off, rd (word_offsets ctx) (current_word_idx tctx') = Ok off)
  /\ (length (word_lengths ctx) = Z.to_nat (word_count ctx) ->
      exists len, rd (word_lengths ctx) (current_word_idx tctx') = Ok len).
Proof.
  intros Hoff Hwc Hmk Htot Hacc. unfold thread_seek.
  destruct (Z.leb_spec (total_keyspace ctx) offset) as [Hout|_]; [lia|].
  cbn. rewrite Htot in Hacc.
  destruct (accepted_offset_divisor _ _ offset Hwc Hmk) as (Hmpos & Hwpos);
    [unfold is_u64 in Hoff; lia|].
  rewrite calculate_total_keyspace_spec in Hacc by assumption.
  unfold is_u64, UINT64_MAX in *.
  assert (Hw : 0 <= offset / mask_keyspace ctx < word_count ctx).
  { split; [apply Z.div_pos; lia|].
    apply Z.div_lt_upper_bound; [lia|].
    destruct (Z.le_gt_cases (word_count ctx * mask_keyspace ctx) (2 ^ 64 - 1)); lia. }
  split; [reflexivity|]. split; [assumption|].
  split; [apply Z.mod_pos_bound; lia|].
  split; intros Hlen; apply rd_in_range; lia.
Qed.

(** ** Word index *)

Lemma split_closed_join : forall rest cur,
  cur ++ rest
  = concat (map (fun l => l ++ [NL]) (split_closed cur rest).1)
    ++ (split_closed cur rest).2.
Proof.
  induction rest as [|c rest IH]; intros cur; simpl.
  - now rewrite app_nil_r.
  - destruct (Ascii.eqb_spec c NL) as [->|Hne]; simpl.
    + rewrite <- !app_assoc. simpl. do 2 f_equal. apply (IH []).
    + rewrite <- IH, <- app_assoc. reflexivity.
Qed.

Lemma split_closed_length : forall rest cur,
  (length (split_closed cur rest).1 <= length rest)%nat.
Proof.
  induction rest as [|c rest IH]; intros cur; simpl; [lia|].
  destruct (c =? NL)%char; simpl.
  - specialize (IH []). lia.
  - specialize (IH (cur ++ [c])). lia.
Qed.

Lemma split_closed_filter : forall rest cur,
  length (split_closed cur rest).1 = length (filter (fun c => c = NL) rest).
Proof.
  induction rest as [|c rest IH]; intros cur; simpl; [reflexivity|].
  rewrite filter_cons.
  destruct (Ascii.eqb_spec c NL) as [->|Hne]; simpl.
  - f_equal. apply (IH []).
  - rewrite decide_False by assumption. apply IH.
Qed.

Lemma split_closed_remainder : forall rest cur,
  (split_closed cur rest).2 = [] <->
  match last rest with Some c => c = NL | None => cur = [] end.
Proof.
  induction rest as [|c rest IH]; intros cur.
  - simpl. tauto.
  - cbn [split_closed].
    destruct (Ascii.eqb_spec c NL) as [->|Hne]; cbn [fst snd].
    + destruct rest as [|c' rest'].
      * simpl. tauto.
      * rewrite last_cons_cons. rewrite (IH []).
        destruct (last (c' :: rest')) eqn:Hl; [tauto|].
        apply last_None in Hl. discriminate.
    + destruct rest as [|c' rest'].
      * simpl. split; [intros H; now destruct cur | congruence].
      * rewrite last_cons_cons. rewrite (IH (cur ++ [c])).
        destruct (last (c' :: rest')) eqn:Hl; [tauto|].
        apply last_None in Hl. discriminate.
Qed.

(** Pass 1 counts the lines. *)
Lemma count_words_lines data :
  Z.of_nat (length data) <= SIZE_MAX ->
  count_words data = Z.of_nat (length (lines data))
  /\ count_words data = line_count data.
Proof.
  intros Hlen. unfold count_words, line_count, lines.
  assert (Hfold : forall (rest : list byte) (acc : Z),
            0 <= acc -> acc + Z.of_nat (length rest) < 2 ^ 64 ->
            fold_left (fun (count : Z) (c : byte) =>
                         if (c =? NL)%char then wrap64 (count + 1) else count)
                      rest acc
            = acc + Z.of_nat (length (filter (fun c => c = NL) rest))).
  { induction rest as [|c rest IH]; intros acc Ha Hb; simpl; [lia|].
    rewrite filter_cons. simpl in Hb.
    destruct (Ascii.eqb_spec c NL) as [->|Hne].
    - rewrite decide_True by reflexivity.
      rewrite wrap64_small by (unfold is_u64; lia).
      rewrite IH by lia. simpl. lia.
    - rewrite decide_False by assumption. apply IH; lia. }
  unfold SIZE_MAX in Hlen. rewrite Hfold by lia. rewrite Z.add_0_l.
  pose proof (length_filter (fun c => c = NL) data) as Hfl.
  rewrite length_app, split_closed_filter.
  pose proof (split_closed_remainder data []) as Hrem.
  destruct (last data) as [c|] eqn:Hlast.
  - destruct (Ascii.eqb_spec c NL) as [->|Hne].
    + rewrite (proj2 Hrem eq_refl). simpl.
      split; lia.
    + destruct ((split_closed [] data).2) eqn:Hr; [tauto|].
      assert (length (filter (fun c => c = NL) data) < length data)%nat.
      { destruct (proj1 (last_Some _ _) Hlast) as (l' & ->).
        rewrite filter_app, !length_app, filter_cons, decide_False by assumption.
        simpl. pose proof (length_filter (fun c => c = NL) l'). lia. }
      rewrite wrap64_small by (unfold is_u64; lia).
      simpl. split; lia.
  - rewrite (proj2 Hrem eq_refl). simpl. split; lia.
Qed.

Lemma wr_next {A : Type} (so : list A) (m : nat) (z v : A) :
  (0 < m)%nat ->
  wr (so ++ replicate m z) (Z.of_nat (length so)) v
  = Ok ((so ++ [v]) ++ replicate (m - 1) z).
Proof.
  intros Hm. unfold wr. rewrite length_app, length_replicate.
  replace (0 <=? Z.of_nat (length so)) with true by (symmetry; apply Z.leb_le; lia).
  replace (Z.of_nat (length so) <? Z.of_nat (length so + m)) with true
    by (symmetry; apply Z.ltb_lt; lia).
  cbn [andb]. rewrite Nat2Z.id.
  destruct m as [|m]; [lia|]. cbn [replicate].
  replace (length so) with (length so + 0)%nat at 1 by lia.
  rewrite insert_app_r. cbn. rewrite Nat.sub_0_r, <- app_assoc. reflexivity.
Qed.

Lemma strip_cr_spec data pre cur rest :
  data = pre ++ cur ++ rest ->
  strip_cr data (Z.of_nat (length pre)) (Z.of_nat (length cur))
  = Ok (trimmed_length cur).
Proof.
  intros ->. unfold strip_cr, trimmed_length.
  destruct (last cur) as [c|] eqn:Hlast.
  - destruct (proj1 (last_Some _ _) Hlast) as (cur' & ->).
    rewrite length_app. simpl.
    replace (0 <? Z.of_nat (length cur' + 1)) with true
      by (symmetry; apply Z.ltb_lt; lia).
    assert (Hrd : rd (pre ++ (cur' ++ [c]) ++ rest)
                    (Z.of_nat (length pre) + Z.of_nat (length cur' + 1) - 1) = Ok c).
    { apply rd_Ok. split; [lia|].
      replace (Z.to_nat (Z.of_nat (length pre) + Z.of_nat (length cur' + 1) - 1))
        with (length pre + length cur')%nat by lia.
      rewrite lookup_app_r by lia.
      replace (length pre + length cur' - length pre)%nat with (length cur') by lia.
      rewrite <- app_assoc. rewrite lookup_app_r by lia.
      now rewrite Nat.sub_diag. }
    rewrite Hrd. cbn. destruct (c =? CR)%char; reflexivity.
  - apply last_None in Hlast. subst cur. reflexivity.
Qed.

(** The second pass stores, for every newline met, the entry of the line it
    closes, in order, and keeps [line_start] at the start of the line being
    read. [so] and [sl] are the entries stored before, [m] the free slots. *)
Lemma index_pass_spec data : forall rest pre cur so sl m,
  data = pre ++ cur ++ rest ->
  length so = length sl ->
  (length (split_closed cur rest).1 <= m)%nat ->
  Z.of_nat (length so + m) < 2 ^ 64 ->
  let ls := (split_closed cur rest).1 in
  let es := line_entries (Z.of_nat (length pre)) ls in
  index_pass data rest (Z.of_nat (length pre + length cur))
    (mkIndexState (Z.of_nat (length so)) (Z.of_nat (length pre))
                  (so ++ replicate m 0) (sl ++ replicate m 0))
  = Ok (mkIndexState
          (Z.of_nat (length so + length ls))
          (Z.of_nat (length data - length (split_closed cur rest).2))
          (so ++ map fst es ++ replicate (m - length ls) 0)
          (sl ++ map (fun e => wrap32 e.2) es ++ replicate (m - length ls) 0)).
Proof.
  induction rest as [|c rest IH]; intros pre cur so sl m Hdata Hlen Hm Hbound.
  - cbn. rewrite Nat.add_0_r, Nat.sub_0_r. do 2 f_equal.
    subst data. rewrite app_nil_r, length_app. f_equal. lia.
  - cbn [index_pass split_closed].
    destruct (Ascii.eqb_spec c NL) as [->|Hne]; cbn [fst snd st_line_start st_word_idx
                                                        st_offsets st_lengths].
    + cbn [split_closed fst snd] in Hm.
      rewrite (Ascii.eqb_refl NL) in Hm. cbn [fst snd length] in Hm.
      unfold store_word. cbn [st_line_start st_word_idx st_offsets st_lengths].
      replace (Z.of_nat (length pre + length cur) - Z.of_nat (length pre))
        with (Z.of_nat (length cur)) by lia.
      rewrite (strip_cr_spec data pre cur (NL :: rest) Hdata). cbn.
      rewrite wr_next by lia. cbn.
      rewrite Hlen, wr_next by lia. cbn. rewrite <- Hlen.
      rewrite wrap64_small by (unfold is_u64; lia).
      specialize (IH (pre ++ cur ++ [NL]) [] (so ++ [Z.of_nat (length pre)])
                     (sl ++ [wrap32 (trimmed_length cur)]) (m - 1)%nat).
      rewrite !length_app in IH. cbn [length] in IH.
      rewrite Nat.add_0_r in IH.
      replace (Z.of_nat (length pre + length cur) + 1)
        with (Z.of_nat (length pre + (length cur + 1))) by lia.
      replace (Z.of_nat (length so) + 1) with (Z.of_nat (length so + 1)) by lia.
      rewrite IH; try lia.
      * cbn zeta. f_equal.
        replace (Z.of_nat (length pre) + Z.of_nat (length cur) + 1)
          with (Z.of_nat (length pre + (length cur + 1))) by lia.
        f_equal; [lia | |].
        -- rewrite <- !app_assoc. cbn. do 3 f_equal. f_equal. lia.
        -- rewrite <- !app_assoc. cbn. do 3 f_equal. f_equal. lia.
      * subst data. now rewrite <- !app_assoc.
    + cbn [split_closed fst snd] in Hm.
      rewrite (proj2 (Ascii.eqb_neq c NL) Hne) in Hm.
      specialize (IH pre (cur ++ [c]) so sl m).
      rewrite length_app in IH. cbn [length] in IH.
      replace (Z.of_nat (length pre + length cur) + 1)
        with (Z.of_nat (length pre + (length cur + 1))) by lia.
      apply IH; try assumption.
      subst data. now rewrite <- !app_assoc.
Qed.

Lemma line_entries_app : forall ls1 ls2 start,
  line_entries start (ls1 ++ ls2)
  = line_entries start ls1
    ++ line_entries
         (start + Z.of_nat (length (concat (map (fun l => l ++ [NL]) ls1)))) ls2.
Proof.
  induction ls1 as [|l ls1 IH]; intros ls2 start; simpl.
  - now rewrite Z.add_0_r.
  - rewrite IH. do 3 f_equal. rewrite !length_app. simpl. lia.
Qed.

Lemma line_entries_length ls start :
  length (line_entries start ls) = length ls.
Proof.
  revert start. induction ls as [|l ls IH]; intros start; simpl;
    [reflexivity | now rewrite IH].
Qed.

(** The word index of a buffer: one entry per line, in buffer order, with
    the line's start offset and its trimmed length narrowed to [u32]. *)
Lemma build_word_index_spec ctx data :
  Z.of_nat (length data) <= SIZE_MAX ->
  let n := Z.of_nat (length (lines data)) in
  let es := line_entries 0 (lines data) in
  count_words data = n
  /\ (n = 0 -> build_word_index ctx data = Err EmptyWordlist)
  /\ (SIZE_MAX / 8 < n -> build_word_index ctx data = Err CapacityExceeded)
  /\ (0 < n <= SIZE_MAX / 8 ->
      exists ctx',
        build_word_index ctx data = Ok ctx'
        /\ word_count ctx' = n
        /\ word_offsets ctx' = map fst es
        /\ word_lengths ctx' = map (fun e => wrap32 e.2) es).
Proof.
  intros Hsize n es.
  destruct (count_words_lines data Hsize) as (Hcount & _). fold n in Hcount.
  split; [assumption|]. unfold build_word_index. rewrite Hcount.
  split; [intros ->; reflexivity|].
  split.
  { intros Hbig.
    destruct (Z.eqb_spec n 0) as [Hz|_];
      [change (SIZE_MAX / 8) with 2305843009213693951 in Hbig; lia|].
    now rewrite (proj2 (Z.ltb_lt _ _) Hbig). }
  intros Hn.
  destruct (Z.eqb_spec n 0) as [|_]; [lia|].
  destruct (Z.ltb_spec (SIZE_MAX / 8) n) as [|_]; [lia|].
  change (SIZE_MAX / 8) with 2305843009213693951 in Hn.
  pose proof (index_pass_spec data data [] [] [] [] (Z.to_nat n) eq_refl eq_refl)
    as Hpass.
  pose proof (split_closed_join data []) as Hjoin.
  pose proof (split_closed_length data []) as Hcl.
  unfold n, es, lines in *. clear n es.
  destruct (split_closed [] data) as [ls r] eqn:Hsplit. cbn [fst snd] in *.
  rewrite length_app in *.
  assert (Hr : length (match r with [] => [] | _ :: _ => [r] end)
               = if decide (r = []) then 0%nat else 1%nat).
  { destruct r; reflexivity. }
  rewrite Hr in *.
  cbn [length app Nat.add] in Hpass.
  change (Z.of_nat 0) with 0 in Hpass.
  change (2 ^ 64) with (SIZE_MAX + 1) in Hpass.
  rewrite Hpass by (unfold SIZE_MAX in *; lia). clear Hpass.
  cbn [mbind outcome_bind st_line_start st_word_idx st_offsets st_lengths].
  destruct (decide (r = [])) as [->|Hne].
  - cbn [length]. rewrite Nat.sub_0_r, Z.ltb_irrefl.
    cbn [mbind outcome_bind fst snd].
    eexists. split; [reflexivity|]. cbn.
    rewrite !app_nil_r.
    replace (Z.to_nat (Z.of_nat (length ls + 0)) - length ls)%nat with 0%nat by lia.
    cbn. rewrite !app_nil_r. repeat split; lia.
  - assert (Hrl : (0 < length r)%nat) by (destruct r; [congruence | simpl; lia]).
    assert (Hdl : length data
                  = (length (concat (map (fun l => l ++ [NL]) ls)) + length r)%nat).
    { rewrite Hjoin at 1. now rewrite length_app. }
    replace (Z.of_nat (length data - length r) <? Z.of_nat (length data))
      with true by (symmetry; apply Z.ltb_lt; lia).
    unfold store_word.
    cbn [st_line_start st_word_idx st_offsets st_lengths].
    replace (Z.of_nat (length data) - Z.of_nat (length data - length r))
      with (Z.of_nat (length r)) by lia.
    replace (length data - length r)%nat
      with (length (concat (map (fun l => l ++ [NL]) ls))) by lia.
    rewrite (strip_cr_spec data _ r []) by (now rewrite app_nil_r).
    cbn [mbind outcome_bind].
    replace (Z.to_nat (Z.of_nat (length ls + 1)) - length ls)%nat with 1%nat by lia.
    pose proof (line_entries_length ls 0) as Hel.
    replace (Z.of_nat (length ls))
      with (Z.of_nat (length (map fst (line_entries 0 ls))))
      by (now rewrite length_map, Hel).
    rewrite wr_next by lia. cbn [mbind outcome_bind].
    replace (Z.of_nat (length (map fst (line_entries 0 ls))))
      with (Z.of_nat (length (map (fun e : Z * Z => wrap32 e.2) (line_entries 0 ls))))
      by (now rewrite !length_map).
    rewrite wr_next by lia. cbn [mbind outcome_bind fst snd].
    eexists. split; [reflexivity|]. cbn.
    rewrite !app_nil_r. split; [lia|].
    assert (Hlast : (match r with [] => [] | _ :: _ => [r] end) = [r])
      by (destruct r; [congruence | reflexivity]).
    rewrite Hlast, line_entries_app, !map_app. cbn. now rewrite Z.add_0_l.
Qed.

Lemma split_closed_no_newline : forall rest cur,
  NL ∉ cur ->
  Forall (fun l => NL ∉ l) (split_closed cur rest).1
  /\ NL ∉ (split_closed cur rest).2.
Proof.
  induction rest as [|c rest IH]; intros cur Hcur; simpl.
  - split; [constructor | assumption].
  - destruct (Ascii.eqb_spec c NL) as [->|Hne]; simpl.
    + destruct (IH [] ltac:(apply not_elem_of_nil)) as (H1 & H2).
      split; [now constructor | assumption].
    + apply IH. rewrite elem_of_app, list_elem_of_singleton. intros [H|H]; congruence.
Qed.

(** [lines] cuts the buffer at its newlines and nowhere else. *)
Lemma lines_characterized data :
  Forall (fun l => NL ∉ l) (lines data)
  /\ concat (map (fun l => l ++ [NL]) (lines data))
     = match last data with
       | Some c => if (c =? NL)%char then data else data ++ [NL]
       | None => data
       end.
Proof.
  unfold lines.
  destruct (split_closed_no_newline data [] ltac:(apply not_elem_of_nil)) as (H1 & H2).
  pose proof (split_closed_join data []) as Hjoin.
  pose proof (split_closed_remainder data []) as Hrem.
  destruct (split_closed [] data) as [ls r]. cbn [fst snd] in *.
  destruct r as [|c r].
  - rewrite !app_nil_r in *. split; [assumption|].
    rewrite <- Hjoin. simpl.
    destruct (last data) as [c|]; [|reflexivity].
    rewrite (proj1 Hrem eq_refl). now rewrite Ascii.eqb_refl.
  - split; [apply Forall_app; split; [assumption | now repeat constructor]|].
    rewrite map_app, concat_app. simpl in Hjoin |- *. rewrite app_nil_r.
    destruct (last data) as [c'|] eqn:Hl.
    + destruct (Ascii.eqb_spec c' NL) as [->|Hne].
      * now pose proof (proj2 Hrem eq_refl).
      * rewrite Hjoin. now rewrite <- app_assoc.
    + now pose proof (proj2 Hrem eq_refl).
Qed.

(** C7 (as amended): pass 1 counts the newline bytes, plus one for a
    non-empty buffer that does not end in a newline; a count of zero fails
    with the empty-wordlist error and a count above [SIZE_MAX / 8] with the
    capacity error; otherwise the build records exactly that many entries,
    in buffer order, each with the start offset of its line and the line's
    length without the newline and without one trailing [\r], reduced
    modulo [2^32] by the [u32] length table. *)
Theorem word_index_entries ctx data :
  Z.of_nat (length data) <= SIZE_MAX ->
  let n := line_count data in
  let es := line_entries 0 (lines data) in
  count_words data = n
  /\ Z.of_nat (length (lines data)) = n
  /\ (n = 0 -> build_word_index ctx data = Err EmptyWordlist)
  /\ (SIZE_MAX / 8 < n -> build_word_index ctx data = Err CapacityExceeded)
  /\ (0 < n <= SIZE_MAX / 8 ->
      exists ctx',
        build_word_index ctx data = Ok ctx'
        /\ word_count ctx' = n
        /\ Z.of_nat (length (word_offsets ctx')) = n
        /\ Z.of_nat (length (word_lengths ctx')) = n
        /\ word_offsets ctx' = map fst es
        /\ word_lengths ctx' = map (fun e => wrap32 e.2) es).
Proof.
  intros Hsize n es.
  destruct (count_words_lines data Hsize) as (Hc1 & Hc2).
  destruct (build_word_index_spec ctx data Hsize) as (_ & Hz & Hbig & Hok).
  assert (Hn : Z.of_nat (length (lines data)) = n) by (unfold n; lia).
  rewrite Hn in Hz, Hbig, Hok.
  split; [assumption|]. split; [assumption|].
  split; [assumption|]. split; [assumption|].
  intros Hrange. destruct (Hok Hrange) as (ctx' & Hb & Hwc & Ho & Hl).
  exists ctx'. split; [assumption|]. split; [assumption|].
  rewrite Ho, Hl, !length_map. unfold es. rewrite line_entries_length.
  repeat split; assumption.
Qed.

Lemma split_closed_replicate c : c <> NL -> forall n cur rest,
  split_closed cur (replicate n c ++ rest)
  = split_closed (cur ++ replicate n c) rest.
Proof.
  intros Hc. induction n as [|n IH]; intros cur rest; simpl.
  - now rewrite app_nil_r.
  - rewrite (proj2 (Ascii.eqb_neq c NL) Hc), IH.
    now rewrite <- app_assoc.
Qed.

(** A buffer made of one line of [n] copies of [c], with or without its
    newline: the one entry recorded for it. *)
Lemma one_long_line ctx (c : byte) (n : nat) (terminated : bool) :
  c <> NL -> c <> CR -> (0 < n)%nat -> Z.of_nat n + 1 <= SIZE_MAX ->
  let data := replicate n c ++ (if terminated then [NL] else []) in
  lines data = [replicate n c]
  /\ trimmed_length (replicate n c) = Z.of_nat n
  /\ exists ctx',
       build_word_index ctx data = Ok ctx'
       /\ positions ctx' = positions ctx
       /\ word_position ctx' = word_position ctx
       /\ word_count ctx' = 1
       /\ word_offsets ctx' = [0]
       /\ word_lengths ctx' = [wrap32 (Z.of_nat n)].
Proof.
  intros Hnl Hcr Hn Hsize data.
  assert (Hlines : lines data = [replicate n c]).
  { unfold lines, data. rewrite split_closed_replicate by assumption.
    destruct terminated; simpl; [reflexivity|].
    destruct n; [lia | reflexivity]. }
  assert (Htrim : trimmed_length (replicate n c) = Z.of_nat n).
  { unfold trimmed_length. destruct n as [|n']; [lia|].
    rewrite replicate_S_end, last_snoc, length_app, length_replicate.
    rewrite (proj2 (Ascii.eqb_neq c CR) Hcr). simpl. lia. }
  split; [assumption|]. split; [assumption|].
  assert (Hlen : Z.of_nat (length data) <= SIZE_MAX).
  { unfold data. rewrite length_app, length_replicate.
    destruct terminated; simpl; lia. }
  destruct (build_word_index_spec ctx data Hlen) as (_ & _ & _ & Hok).
  rewrite Hlines in Hok. cbn [length line_entries map fst snd] in Hok.
  destruct Hok as (ctx' & Hb & Hwc & Ho & Hl).
  { change (SIZE_MAX / 8) with 2305843009213693951. lia. }
  exists ctx'. rewrite Htrim in Hl.
  destruct (build_word_index_fields _ _ _ Hb) as (E1 & E2 & _).
  repeat split; assumption.
Qed.

(** A line of [2^32] bytes is recorded with length [0]: the recorded length
    is not the line length. *)
Lemma word_index_length_narrowed :
  let line := replicate (Z.to_nat 4294967296) "a"%char in
  let data := line ++ [NL] in
  lines data = [line]
  /\ map snd (line_entries 0 (lines data)) = [4294967296]
  /\ exists ctx',
       build_word_index init_charsets data = Ok ctx'
       /\ word_lengths ctx' = [0]
       /\ word_lengths ctx' <> map snd (line_entries 0 (lines data)).
Proof.
  intros line data.
  assert (Ha : "a"%char <> NL) by discriminate.
  assert (Hb : "a"%char <> CR) by discriminate.
  destruct (one_long_line init_charsets "a"%char (Z.to_nat 4294967296) true Ha Hb)
    as (Hlines & Htrim & ctx' & Hbuild & _ & _ & _ & _ & Hl);
    [lia | unfold SIZE_MAX; lia |].
  change (lines data = [line]) in Hlines.
  change (trimmed_length line = Z.of_nat (Z.to_nat 4294967296)) in Htrim.
  change (build_word_index init_charsets data = Ok ctx') in Hbuild.
  rewrite Z2Nat.id in Htrim, Hl by lia.
  assert (Hes : map snd (line_entries 0 (lines data)) = [4294967296]).
  { rewrite Hlines. cbn [line_entries map snd]. now rewrite Htrim. }
  split; [assumption|]. split; [assumption|].
  exists ctx'. split; [assumption|].
  change (wrap32 4294967296) with 0 in Hl.
  split; [assumption|]. rewrite Hl, Hes. discriminate.
Qed.

(** ** Candidate generator *)

Lemma render_length ctx ps ds :
  Forall2 digit_ok ps ds -> length (render ctx ps ds) = length ps.
Proof.
  intros H. unfold render. rewrite length_zip_with.
  apply Forall2_length in H. lia.
Qed.

Lemma emit_position_Ok ctx tctx A p C DA d DC out :
  positions ctx = A ++ p :: C ->
  mask_indices tctx = DA ++ d :: DC ->
  length DA = length A ->
  pos_ok ctx p -> nonword p -> digit_ok p d ->
  emit_position ctx tctx (Z.of_nat (length A)) out
  = Ok (out.1 ++ [char_at ctx p d], wrap32 (out.2 + 1)).
Proof.
  intros Hps Hds Hlen Hok Hnw Hd. unfold emit_position.
  rewrite Hps, Hds.
  rewrite (rd_nat (A ++ p :: C) (length A) p)
    by (rewrite lookup_app_r by lia; now rewrite Nat.sub_diag).
  cbn [mbind outcome_bind].
  rewrite (rd_nat (DA ++ d :: DC) (length A) d)
    by (rewrite <- Hlen, lookup_app_r by lia; now rewrite Nat.sub_diag).
  cbn [mbind outcome_bind].
  unfold digit_ok in Hd. rewrite Hnw in Hd.
  destruct (Hok Hnw) as (_ & Hrd). destruct (Hrd d Hd) as (c & Hc).
  unfold char_at. rewrite Hc. reflexivity.
Qed.

Lemma seqZ_succ a (k : nat) :
  seqZ a (Z.of_nat (S k)) = a :: seqZ (a + 1) (Z.of_nat k).
Proof.
  rewrite seqZ_cons by lia. f_equal. f_equal; lia.
Qed.

(** The prefix loop over a run [B] of non-word positions with digits [DB]. *)
Lemma emit_prefix_run ctx tctx : forall B A C DA DB DC out len,
  positions ctx = A ++ B ++ C ->
  mask_indices tctx = DA ++ DB ++ DC ->
  length DA = length A ->
  Forall (pos_ok ctx) B -> Forall nonword B -> Forall2 digit_ok B DB ->
  0 <= len -> len + Z.of_nat (length B) < 2 ^ 32 ->
  emit_prefix ctx tctx (seqZ (Z.of_nat (length A)) (Z.of_nat (length B))) (out, len)
  = Ok (out ++ render ctx B DB, len + Z.of_nat (length B)).
Proof.
  induction B as [|p B IH]; intros A C DA DB DC out len Hps Hds Hlen Hok Hnw Hdig Hl0 Hl1.
  - inversion Hdig; subst. cbn. now rewrite app_nil_r, Z.add_0_r.
  - inversion Hdig as [|? d ? DB' Hd Hdig']; subst.
    inversion Hok; subst. inversion Hnw; subst.
    cbn [length]. rewrite seqZ_succ. cbn [emit_prefix].
    rewrite (emit_position_Ok ctx tctx A p (B ++ C) DA d (DB' ++ DC)) by assumption.
    cbn [mbind outcome_bind fst snd]. cbn [length] in Hl1.
    rewrite wrap32_small by (unfold is_u32; lia).
    specialize (IH (A ++ [p]) C (DA ++ [d]) DB' DC (out ++ [char_at ctx p d]) (len + 1)).
    rewrite !length_app in IH. cbn [length] in IH.
    replace (Z.of_nat (length A) + 1) with (Z.of_nat (length A + 1)) by lia.
    rewrite IH; try assumption; try lia.
    + unfold render. cbn [zip_with]. rewrite <- app_assoc. cbn.
      do 2 f_equal. cbn [length]. lia.
    + now rewrite <- app_assoc.
    + now rewrite <- app_assoc.
Qed.

Section GeneratorProperties.

Variable PW_MAX : Z.

(** The suffix loop over a run [B]: it stops once [out_len] has reached
    [PW_MAX]. *)
Lemma emit_suffix_run ctx tctx : forall B A C DA DB DC out len,
  positions ctx = A ++ B ++ C ->
  mask_indices tctx = DA ++ DB ++ DC ->
  length DA = length A ->
  Forall (pos_ok ctx) B -> Forall nonword B -> Forall2 digit_ok B DB ->
  0 <= len -> len + Z.of_nat (length B) < 2 ^ 32 ->
  emit_suffix PW_MAX ctx tctx
    (seqZ (Z.of_nat (length A)) (Z.of_nat (length B))) (out, len)
  = Ok (out ++ take (Z.to_nat (PW_MAX - len)) (render ctx B DB),
        len + Z.min (Z.of_nat (length B)) (Z.max 0 (PW_MAX - len))).
Proof.
  induction B as [|p B IH]; intros A C DA DB DC out len Hps Hds Hlen Hok Hnw Hdig Hl0 Hl1.
  - inversion Hdig; subst. cbn. rewrite take_nil, app_nil_r.
    do 2 f_equal. lia.
  - inversion Hdig as [|? d ? DB' Hd Hdig']; subst.
    inversion Hok; subst. inversion Hnw; subst.
    cbn [length]. rewrite seqZ_succ. cbn [emit_suffix fst snd].
    destruct (Z.leb_spec PW_MAX len) as [Hfull|Hroom].
    + replace (Z.to_nat (PW_MAX - len)) with 0%nat by lia.
      cbn. rewrite app_nil_r. do 2 f_equal. lia.
    + rewrite (emit_position_Ok ctx tctx A p (B ++ C) DA d (DB' ++ DC)) by assumption.
      cbn [mbind outcome_bind fst snd]. cbn [length] in Hl1.
      rewrite wrap32_small by (unfold is_u32; lia).
      specialize (IH (A ++ [p]) C (DA ++ [d]) DB' DC (out ++ [char_at ctx p d]) (len + 1)).
      rewrite !length_app in IH. cbn [length] in IH.
      replace (Z.of_nat (length A) + 1) with (Z.of_nat (length A + 1)) by lia.
      rewrite IH; try assumption; try lia.
      * unfold render. cbn [zip_with].
        replace (Z.to_nat (PW_MAX - len)) with (S (Z.to_nat (PW_MAX - (len + 1)))) by lia.
        cbn [take]. rewrite <- app_assoc. cbn.
        do 2 f_equal. cbn [length]. lia.
      * now rewrite <- app_assoc.
      * now rewrite <- app_assoc.
Qed.

End GeneratorProperties.

Section CandidateProperties.

Variable PW_MAX : Z.

(** [generate_candidate] on a pattern [pre ++ w :: suf] with digits
    [dpre ++ dw :: dsuf] and the word entry [(off, wl)]: the bytes stored
    and the value returned, with the truncation test and the counter as
    the code computes them in [u32]. *)
Lemma generate_candidate_unfold ctx tctx pre w suf dpre dw dsuf drest off wl :
  positions ctx = pre ++ w :: suf ->
  word_position ctx = Z.of_nat (length pre) ->
  Forall (pos_ok ctx) pre -> Forall nonword pre ->
  Forall (pos_ok ctx) suf -> Forall nonword suf ->
  mask_indices tctx = dpre ++ dw :: dsuf ++ drest ->
  Forall2 digit_ok pre dpre -> Forall2 digit_ok suf dsuf ->
  rd (word_offsets ctx) (current_word_idx tctx) = Ok off ->
  rd (word_lengths ctx) (current_word_idx tctx) = Ok wl ->
  let p := Z.of_nat (length pre) in
  let wl' := if PW_MAX <? wrap32 (p + wl) then wrap32 (PW_MAX - p) else wl in
  let len2 := wrap32 (p + wl') in
  p < 2 ^ 32 ->
  off + wl' <= fd_len tctx ->
  len2 + Z.of_nat (length suf) < 2 ^ 32 ->
  generate_candidate PW_MAX ctx tctx
  = Ok (render ctx pre dpre
        ++ take (Z.to_nat wl') (drop (Z.to_nat off) (fd_mem tctx))
        ++ take (Z.to_nat (PW_MAX - len2)) (render ctx suf dsuf),
        to_int (len2 + Z.min (Z.of_nat (length suf)) (Z.max 0 (PW_MAX - len2)))).
Proof.
  intros Hps Hwp Hokp Hnwp Hoks Hnws Hds Hdp Hdsuf Hoff Hwl p wl' len2 Hp Hfd Hlen2.
  unfold generate_candidate. rewrite Hoff, Hwl. cbn [mbind outcome_bind].
  rewrite Hwp.
  pose proof (emit_prefix_run ctx tctx pre [] (w :: suf) [] dpre
                (dw :: dsuf ++ drest) [] 0 Hps Hds eq_refl Hokp Hnwp Hdp
                ltac:(lia) ltac:(fold p; lia)) as Hpre.
  cbn [length app] in Hpre. change (Z.of_nat 0) with 0 in Hpre.
  rewrite Hpre. cbn [mbind outcome_bind fst snd]. rewrite Z.add_0_l.
  fold p. fold wl'.
  destruct (Z.ltb_spec (fd_len tctx) (off + wl')) as [Hbad|_]; [lia|].
  fold len2.
  assert (Hnum : num_positions ctx - (p + 1) = Z.of_nat (length suf)).
  { unfold num_positions, p. rewrite Hps, length_app. cbn [length]. lia. }
  rewrite Hnum.
  assert (Hps' : positions ctx = (pre ++ [w]) ++ suf ++ [])
    by (now rewrite app_nil_r, <- app_assoc).
  assert (Hds' : mask_indices tctx = (dpre ++ [dw]) ++ dsuf ++ drest)
    by (now rewrite <- app_assoc).
  assert (Hlen' : length (dpre ++ [dw]) = length (pre ++ [w])).
  { rewrite !length_app. apply Forall2_length in Hdp. cbn. lia. }
  assert (Hlen2' : 0 <= len2) by (apply wrap32_range).
  pose proof (emit_suffix_run PW_MAX ctx tctx suf (pre ++ [w]) [] (dpre ++ [dw])
                dsuf drest
                (render ctx pre dpre
                 ++ take (Z.to_nat wl') (drop (Z.to_nat off) (fd_mem tctx)))
                len2 Hps' Hds' Hlen' Hoks Hnws Hdsuf Hlen2' Hlen2) as Hsuf.
  rewrite length_app in Hsuf. cbn [length] in Hsuf.
  replace (Z.of_nat (length pre + 1)) with (p + 1) in Hsuf by (unfold p; lia).
  rewrite Hsuf. cbn [mbind outcome_bind fst snd].
  now rewrite <- app_assoc.
Qed.

End CandidateProperties.

(** ** The word tables stay inside the buffer *)

Lemma trimmed_length_range l : 0 <= trimmed_length l <= Z.of_nat (length l).
Proof.
  unfold trimmed_length. destruct (last l) as [c|] eqn:Hl; [|lia].
  assert (0 < length l)%nat.
  { destruct l; [discriminate | simpl; lia]. }
  destruct (c =? CR)%char; lia.
Qed.

Lemma line_entries_within : forall ls start,
  Forall (entry_within start
            (start + Z.of_nat (length (concat (map (fun l => l ++ [NL]) ls)))))
         (line_entries start ls).
Proof.
  induction ls as [|l ls IH]; intros start; simpl; [constructor|].
  pose proof (trimmed_length_range l) as Ht.
  rewrite !length_app. cbn [length]. constructor.
  - unfold entry_within; cbn. lia.
  - eapply Forall_impl; [apply IH|].
    intros e (H1 & H2 & H3). unfold entry_within. lia.
Qed.

Lemma lines_entries_within data :
  Forall (entry_within 0 (Z.of_nat (length data))) (line_entries 0 (lines data)).
Proof.
  unfold lines.
  pose proof (split_closed_join data []) as Hjoin. simpl in Hjoin.
  destruct (split_closed [] data) as [ls r]. cbn [fst snd] in *.
  assert (Hlen : length data
                 = (length (concat (map (fun l => l ++ [NL]) ls)) + length r)%nat).
  { rewrite Hjoin at 1. now rewrite length_app. }
  rewrite line_entries_app. apply Forall_app. split.
  - eapply Forall_impl; [apply line_entries_within|].
    intros e (H1 & H2 & H3). unfold entry_within. lia.
  - destruct r as [|c r]; [constructor|].
    cbn [line_entries]. constructor; [|constructor].
    pose proof (trimmed_length_range (c :: r)) as Ht.
    unfold entry_within; cbn [fst snd]. lia.
Qed.

Lemma build_word_index_tables_ok ctx data ctx' :
  Z.of_nat (length data) <= SIZE_MAX ->
  build_word_index ctx data = Ok ctx' ->
  tables_ok ctx' (Z.of_nat (length data)).
Proof.
  intros Hsize Hb.
  destruct (build_word_index_fields _ _ _ Hb) as (_ & _ & _ & _ & _ & Hwc & Hrange).
  destruct (build_word_index_spec ctx data Hsize) as (Hcnt & _ & _ & Hok).
  destruct Hok as (ctx2 & Hb2 & Hwc2 & Ho & Hl); [lia|].
  assert (ctx2 = ctx') as -> by congruence.
  unfold tables_ok. rewrite Ho, Hl, !length_map, line_entries_length, Hwc2.
  split; [reflexivity|]. split; [reflexivity|].
  intros k off wl Hko Hkl.
  rewrite list_lookup_fmap in Hko, Hkl.
  destruct (line_entries 0 (lines data) !! k) as [e|] eqn:He; [|discriminate].
  cbn in Hko, Hkl. inversion Hko; inversion Hkl; subst.
  pose proof (proj1 (Forall_lookup _ _) (lines_entries_within data) k e He)
    as (H1 & H2 & H3).
  pose proof (wrap32_range e.2) as Hw. unfold is_u32 in Hw.
  assert (wrap32 e.2 <= e.2) by (unfold wrap32; apply Z.mod_le; lia).
  lia.
Qed.

Section SafeCandidates.

Variable PW_MAX : Z.
Hypothesis PW_MAX_range : PATTERN_MAX_POSITIONS <= PW_MAX < 2 ^ 31.

(** Where [out_len + word_len] does not wrap, the candidate is the whole
    prefix, the word cut to the room left, and the suffix characters that
    still fit; the value returned is the number of bytes stored, at most
    [PW_MAX]. *)
Lemma generate_candidate_safe ctx tctx pre w suf dpre dw dsuf drest off wl :
  positions ctx = pre ++ w :: suf ->
  (length (positions ctx) <= 32)%nat ->
  word_position ctx = Z.of_nat (length pre) ->
  Forall (pos_ok ctx) pre -> Forall nonword pre ->
  Forall (pos_ok ctx) suf -> Forall nonword suf ->
  mask_indices tctx = dpre ++ dw :: dsuf ++ drest ->
  Forall2 digit_ok pre dpre -> Forall2 digit_ok suf dsuf ->
  rd (word_offsets ctx) (current_word_idx tctx) = Ok off ->
  rd (word_lengths ctx) (current_word_idx tctx) = Ok wl ->
  0 <= off -> 0 <= wl -> off + wl <= fd_len tctx ->
  fd_len tctx = Z.of_nat (length (fd_mem tctx)) ->
  Z.of_nat (length pre) + wl < 2 ^ 32 ->
  let p := Z.of_nat (length pre) in
  let word := take (Z.to_nat wl) (drop (Z.to_nat off) (fd_mem tctx)) in
  let bytes :=
    render ctx pre dpre
    ++ take (Z.to_nat (PW_MAX - p)) word
    ++ take (Z.to_nat (PW_MAX - p - wl)) (render ctx suf dsuf) in
  generate_candidate PW_MAX ctx tctx = Ok (bytes, Z.of_nat (length bytes))
  /\ Z.of_nat (length bytes)
     = Z.min (p + wl + Z.of_nat (length suf)) PW_MAX
  /\ Z.of_nat (length word) = wl.
Proof.
  intros Hps Hn Hwp Hokp Hnwp Hoks Hnws Hds Hdp Hdsuf Hoff Hwl
         Hoff0 Hwl0 Hfd Hfdlen Hnowrap p word bytes.
  unfold PATTERN_MAX_POSITIONS in PW_MAX_range.
  rewrite Hps, length_app in Hn. cbn [length] in Hn.
  assert (Hwordlen : Z.of_nat (length word) = wl).
  { unfold word. rewrite length_take, length_drop. lia. }
  assert (Hblen : Z.of_nat (length bytes)
                  = Z.min (p + wl + Z.of_nat (length suf)) PW_MAX).
  { unfold bytes. rewrite !length_app, !length_take, !render_length by assumption.
    fold p. lia. }
  pose proof (generate_candidate_unfold PW_MAX ctx tctx pre w suf dpre dw dsuf
                drest off wl Hps Hwp Hokp Hnwp Hoks Hnws Hds Hdp Hdsuf Hoff Hwl)
    as Hgen.
  cbn zeta in Hgen. fold p in Hgen.
  rewrite (wrap32_small (p + wl)) in Hgen by (unfold is_u32, p; lia).
  split; [|split; assumption].
  destruct (Z.ltb_spec PW_MAX (p + wl)) as [Hcut|Hfit].
  - rewrite (wrap32_small (PW_MAX - p)) in Hgen by (unfold is_u32, p; lia).
    replace (p + (PW_MAX - p)) with PW_MAX in Hgen by lia.
    rewrite (wrap32_small PW_MAX) in Hgen by (unfold is_u32; lia).
    rewrite Hgen by (unfold p; lia).
    rewrite Hblen. f_equal. f_equal.
    + unfold bytes, word. rewrite take_take.
      replace (Z.to_nat (PW_MAX - p) `min` Z.to_nat wl)%nat
        with (Z.to_nat (PW_MAX - p)) by lia.
      replace (Z.to_nat (PW_MAX - PW_MAX)) with 0%nat by lia.
      replace (Z.to_nat (PW_MAX - p - wl)) with 0%nat by lia.
      reflexivity.
    + unfold to_int.
      destruct (Z.ltb_spec (PW_MAX + Z.of_nat (length suf) `min` (0 `max` (PW_MAX - PW_MAX)))
                           (2 ^ 31)); lia.
  - rewrite (wrap32_small (p + wl)) in Hgen by (unfold is_u32, p; lia).
    rewrite Hgen by (unfold p; lia).
    rewrite Hblen. f_equal. f_equal.
    + unfold bytes, word. rewrite take_take.
      replace (Z.to_nat (PW_MAX - p) `min` Z.to_nat wl)%nat
        with (Z.to_nat wl) by lia.
      do 3 f_equal. lia.
    + unfold to_int.
      destruct (Z.ltb_spec (p + wl + Z.of_nat (length suf) `min` (0 `max` (PW_MAX - (p + wl))))
                           (2 ^ 31)); lia.
Qed.

End SafeCandidates.

(** ** Cursor *)

Lemma div_mod_succ k mk :
  0 <= k -> 0 < mk ->
  (k mod mk + 1 < mk ->
   (k + 1) / mk = k / mk /\ (k + 1) mod mk = k mod mk + 1)
  /\ (mk <= k mod mk + 1 ->
      (k + 1) / mk = k / mk + 1 /\ (k + 1) mod mk = 0).
Proof.
  intros Hk Hmk.
  pose proof (Z.div_mod k mk ltac:(lia)) as Hdm.
  pose proof (Z.mod_pos_bound k mk Hmk) as Hm.
  split; intros Hcase.
  - assert (Heq : k + 1 = mk * (k / mk) + (k mod mk + 1)) by lia.
    split.
    + symmetry. apply (Z.div_unique_pos _ _ _ (k mod mk + 1)); lia.
    + symmetry. apply (Z.mod_unique_pos _ _ (k / mk)); lia.
  - assert (Heq : k + 1 = mk * (k / mk + 1) + 0) by lia.
    split.
    + symmetry. apply (Z.div_unique_pos _ _ _ 0); lia.
    + symmetry. apply (Z.mod_unique_pos _ _ (k / mk + 1)); lia.
Qed.

Lemma index_to_mask_indices_inv ctx mask_idx indices :
  Forall radix_ok (positions ctx) -> 0 <= mask_idx ->
  (length (positions ctx) <= length indices)%nat ->
  digits_inv ctx (index_to_mask_indices ctx mask_idx indices)
  /\ length (index_to_mask_indices ctx mask_idx indices) = length indices.
Proof.
  intros Hrad Hm Hlen.
  rewrite index_to_mask_indices_spec by assumption.
  split.
  - eexists _, _. split; [reflexivity|]. now apply index_to_digits_valid.
  - rewrite length_app, index_to_digits_length, length_drop. lia.
Qed.

(** Recomputing the digits forgets the digits that were there. *)
Lemma index_to_mask_indices_twice ctx m m' indices :
  Forall radix_ok (positions ctx) -> 0 <= m -> 0 <= m' ->
  (length (positions ctx) <= length indices)%nat ->
  index_to_mask_indices ctx m' (index_to_mask_indices ctx m indices)
  = index_to_mask_indices ctx m' indices.
Proof.
  intros Hrad Hm Hm' Hlen.
  destruct (index_to_mask_indices_inv ctx m indices Hrad Hm Hlen) as (_ & Hl).
  rewrite (index_to_mask_indices_spec ctx m' (index_to_mask_indices ctx m indices))
    by (try assumption; lia).
  rewrite (index_to_mask_indices_spec ctx m indices) by assumption.
  rewrite (index_to_mask_indices_spec ctx m' indices) by assumption.
  f_equal. rewrite drop_app_length'; [reflexivity|].
  symmetry. apply index_to_digits_length.
Qed.

(** A digit array with digits for every position gives a readable character
    at every non-word position. *)
Lemma digits_inv_lookup ctx indices i p d :
  Forall (pos_ok ctx) (positions ctx) ->
  digits_inv ctx indices ->
  positions ctx !! i = Some p -> nonword p -> indices !! i = Some d ->
  0 <= d < charset_len p /\ exists c, charset_read ctx p d = Ok c.
Proof.
  intros Hok (ds & rest & -> & Hv) Hp Hnw Hd.
  pose proof (Forall2_length _ _ _ Hv) as Hlen.
  pose proof (lookup_lt_Some _ _ _ Hp) as Hi.
  rewrite lookup_app_l in Hd by lia.
  pose proof (Forall2_lookup_lr _ _ _ _ _ _ Hv Hp Hd) as Hdig.
  unfold digit_ok in Hdig. rewrite Hnw in Hdig.
  split; [assumption|].
  pose proof (proj1 (Forall_lookup _ _) Hok i p Hp) as Hpos.
  destruct (Hpos Hnw) as (_ & Hrd). now apply Hrd.
Qed.

Lemma word_at_split_digits ps wp ds :
  word_at ps wp -> valid_digits ps ds ->
  exists pre w suf dpre dw dsuf,
    ps = pre ++ w :: suf /\ wp = Z.of_nat (length pre)
    /\ Forall nonword pre /\ Forall nonword suf
    /\ ds = dpre ++ dw :: dsuf
    /\ Forall2 digit_ok pre dpre /\ Forall2 digit_ok suf dsuf.
Proof.
  intros (pre & w & suf & -> & Hw & Hpre & Hsuf & ->) Hv.
  apply Forall2_app_inv_l in Hv as (dpre & d' & Hdp & Hrest & ->).
  apply Forall2_cons_inv_l in Hrest as (dw & dsuf & _ & Hds & ->).
  exists pre, w, suf, dpre, dw, dsuf. repeat split; assumption.
Qed.

Lemma engine_facts workv file ctx :
  engine workv file ctx ->
  compiled ctx
  /\ tables_ok ctx (Z.of_nat (length file))
  /\ mask_keyspace ctx = Z.min (mask_product (positions ctx)) UINT64_MAX
  /\ 1 <= mask_keyspace ctx <= UINT64_MAX
  /\ 1 <= word_count ctx <= SIZE_MAX / 8
  /\ total_keyspace ctx
     = Z.min (word_count ctx * mask_keyspace ctx) UINT64_MAX.
Proof.
  intros (ctx0 & Hinit & Hsize & Hks).
  pose proof (global_init_compiled _ _ Hinit) as Hc0.
  pose proof (global_keyspace_compiled _ _ _ Hc0 Hks) as Hc.
  destruct (global_keyspace_Ok _ _ _ Hks)
    as (ctx1 & Hb & _ & Eps & _ & _ & _ & _ & Ewc & Eo & El & Emk & Etot).
  pose proof (build_word_index_tables_ok _ _ _ Hsize Hb) as (T1 & T2 & T3).
  destruct (build_word_index_fields _ _ _ Hb) as (_ & _ & _ & _ & _ & Ewc1 & Hrange).
  pose proof (compiled_radix_ok _ Hc0) as Hrad.
  pose proof (calculate_mask_keyspace_range _ Hrad) as Hmr.
  rewrite <- Emk in Hmr.
  split; [assumption|]. split.
  { unfold tables_ok. rewrite Eo, El, Ewc, <- Ewc1.
    split; [assumption|]. split; assumption. }
  split; [rewrite Emk, Eps; now apply calculate_mask_keyspace_spec|].
  split; [assumption|]. split; [lia|].
  rewrite Etot. apply calculate_total_keyspace_spec.
  - rewrite Ewc. apply count_words_range.
  - unfold is_u64, UINT64_MAX in *. lia.
Qed.

Lemma thread_init_cursor_ok ctx file tctx :
  compiled ctx -> thread_init ctx file = Ok tctx -> cursor_ok ctx file tctx.
Proof.
  intros Hc Hi. pose proof (compiled_radix_ok _ Hc) as Hrad.
  destruct Hc as (_ & Hn & _).
  apply thread_init_Ok in Hi as (_ & Hm & Hl & _ & _ & _ & Hd).
  assert (Hlen : (length (positions ctx)
                  <= length (replicate (Z.to_nat PATTERN_MAX_POSITIONS) 0%Z))%nat).
  { rewrite length_replicate. unfold PATTERN_MAX_POSITIONS. lia. }
  destruct (index_to_mask_indices_inv ctx 0 _ Hrad ltac:(lia) Hlen) as (Hinv & Hl').
  unfold cursor_ok. rewrite Hm, Hl, Hd, Hl'. repeat split; assumption.
Qed.

Lemma advance_position_cursor_ok ctx file tctx :
  compiled ctx -> cursor_ok ctx file tctx ->
  cursor_ok ctx file (advance_position tctx ctx).
Proof.
  intros Hc (Hm & Hl & Hlen & Hinv). pose proof (compiled_radix_ok _ Hc) as Hrad.
  unfold cursor_ok, advance_position; cbn.
  split; [assumption|]. split; [assumption|].
  set (mask2 := if mask_keyspace ctx <=? wrap64 (current_mask_idx tctx + 1)
                then 0 else wrap64 (current_mask_idx tctx + 1)).
  assert (Hm2 : 0 <= mask2).
  { unfold mask2. destruct (mask_keyspace ctx <=? _); [lia | apply wrap64_range]. }
  destruct (_ <? word_count ctx); [|split; assumption].
  destruct (index_to_mask_indices_inv ctx mask2 _ Hrad Hm2 Hlen) as (Hi & Hl').
  rewrite Hl'. split; assumption.
Qed.

Lemma thread_seek_cursor_ok ctx file tctx offset tctx' :
  compiled ctx -> 0 < mask_keyspace ctx -> cursor_ok ctx file tctx ->
  thread_seek ctx tctx offset = (true, None, tctx') ->
  cursor_ok ctx file tctx'.
Proof.
  intros Hc Hmk (Hm & Hl & Hlen & Hinv) Hs.
  pose proof (compiled_radix_ok _ Hc) as Hrad.
  unfold thread_seek in Hs.
  destruct (total_keyspace ctx <=? offset); [discriminate|].
  inversion Hs; subst tctx'; clear Hs. unfold cursor_ok; cbn.
  split; [assumption|]. split; [assumption|].
  assert (Hm0 : 0 <= offset mod mask_keyspace ctx)
    by (apply Z.mod_pos_bound; lia).
  destruct (index_to_mask_indices_inv ctx _ _ Hrad Hm0 Hlen) as (Hi & Hl').
  rewrite Hl'. split; assumption.
Qed.

Section Cursor.

Variable PW_MAX : Z.
Hypothesis PW_MAX_range : PATTERN_MAX_POSITIONS <= PW_MAX < 2 ^ 31.

(** On a valid cursor that is not exhausted [generate_candidate] reads only
    inside the tables, the charsets and the file; where [out_len + word_len]
    does not wrap it returns the number of bytes it stored, the smaller of
    the candidate's natural length and [PW_MAX]. *)
Lemma generate_candidate_defined ctx file tctx :
  compiled ctx -> tables_ok ctx (Z.of_nat (length file)) ->
  cursor_ok ctx file tctx ->
  0 <= current_word_idx tctx < word_count ctx ->
  exists out ret off wl,
    generate_candidate PW_MAX ctx tctx = Ok (out, ret)
    /\ rd (word_offsets ctx) (current_word_idx tctx) = Ok off
    /\ rd (word_lengths ctx) (current_word_idx tctx) = Ok wl
    /\ 0 <= wl < 2 ^ 32
    /\ (word_position ctx + wl < 2 ^ 32 ->
        ret = Z.of_nat (length out)
        /\ ret = Z.min (wl + (num_positions ctx - 1)) PW_MAX).
Proof.
  intros Hc (T1 & T2 & T3) (Hm & Hl & Hlen & (ds & rest & Hds & Hv)) Hidx.
  destruct Hc as (_ & Hn & Hok & Hw).
  destruct (word_at_split_digits _ _ _ Hw Hv)
    as (pre & w & suf & dpre & dw & dsuf & Hps & Hwp & Hnwp & Hnws & -> & Hdp & Hdsuf).
  rewrite <- app_assoc in Hds. cbn [app] in Hds.
  destruct (rd_in_range (word_offsets ctx) (current_word_idx tctx) ltac:(lia))
    as (off & Hoff).
  destruct (rd_in_range (word_lengths ctx) (current_word_idx tctx) ltac:(lia))
    as (wl & Hwl).
  destruct (T3 _ off wl (proj2 (proj1 (rd_Ok _ _ _) Hoff)) (proj2 (proj1 (rd_Ok _ _ _) Hwl)))
    as (Ho0 & Hwlr & Hfit).
  rewrite Hps in Hok. apply Forall_app in Hok as (Hokp & Hoks).
  apply Forall_cons in Hoks as (_ & Hoks).
  pose proof Hn as Hn'. rewrite Hps, length_app in Hn'. cbn [length] in Hn'.
  unfold PATTERN_MAX_POSITIONS in PW_MAX_range.
  assert (Hnum : num_positions ctx - 1
                 = Z.of_nat (length pre) + Z.of_nat (length suf)).
  { unfold num_positions. rewrite Hps, length_app. cbn [length]. lia. }
  destruct (Z.lt_ge_cases (Z.of_nat (length pre) + wl) (2 ^ 32)) as [Hnowrap|Hwrap].
  - destruct (generate_candidate_safe PW_MAX PW_MAX_range ctx tctx pre w suf dpre dw
                dsuf rest off wl Hps Hn Hwp Hokp Hnwp Hoks Hnws Hds Hdp Hdsuf
                Hoff Hwl Ho0 ltac:(lia) ltac:(lia) ltac:(congruence) Hnowrap)
      as (Hgen & Hblen & _).
    eexists _, _, off, wl. split; [exact Hgen|].
    split; [assumption|]. split; [assumption|]. split; [assumption|].
    intros _. split; [reflexivity|]. lia.
  - pose proof (generate_candidate_unfold PW_MAX ctx tctx pre w suf dpre dw dsuf
                  rest off wl Hps Hwp Hokp Hnwp Hoks Hnws Hds Hdp Hdsuf Hoff Hwl)
      as Hgen.
    cbn zeta in Hgen.
    assert (Hw32 : wrap32 (Z.of_nat (length pre) + wl)
                   = Z.of_nat (length pre) + wl - 2 ^ 32).
    { unfold wrap32. symmetry.
      apply (Z.mod_unique_pos _ _ 1); lia. }
    rewrite Hw32 in Hgen.
    destruct (Z.ltb_spec PW_MAX (Z.of_nat (length pre) + wl - 2 ^ 32)) as [|_]; [lia|].
    rewrite Hw32 in Hgen.
    eexists _, _, off, wl. split; [apply Hgen; lia|].
    split; [assumption|]. split; [assumption|]. split; [assumption|].
    rewrite Hwp. lia.
Qed.

(** [thread_next] on a valid cursor: it returns, and leaves a valid cursor. *)
Lemma thread_next_defined ctx file tctx :
  compiled ctx -> tables_ok ctx (Z.of_nat (length file)) ->
  cursor_ok ctx file tctx -> 0 <= current_word_idx tctx ->
  exists ret out,
    thread_next PW_MAX ctx tctx = Ok (ret, out, 
      if word_count ctx <=? current_word_idx tctx then tctx
      else advance_position tctx ctx)
    /\ (word_count ctx <= current_word_idx tctx -> ret = 0 /\ out = [])
    /\ (current_word_idx tctx < word_count ctx ->
        generate_candidate PW_MAX ctx tctx = Ok (out, ret)).
Proof.
  intros Hc Ht Hcur Hidx. unfold thread_next.
  destruct (Z.leb_spec (word_count ctx) (current_word_idx tctx)) as [Hex|Hact].
  - exists 0, []. split; [reflexivity|]. split; [tauto | lia].
  - destruct (generate_candidate_defined ctx file tctx Hc Ht Hcur ltac:(lia))
      as (out & ret & off & wl & Hgen & _).
    exists ret, out. rewrite Hgen. cbn.
    split; [reflexivity|]. split; [lia | tauto].
Qed.

Lemma cursor_reachable_ok ctx file tctx :
  compiled ctx -> 0 < mask_keyspace ctx ->
  cursor_reachable PW_MAX ctx file tctx -> cursor_ok ctx file tctx.
Proof.
  intros Hc Hmk Hr.
  induction Hr as [tctx Hi | tctx ret out tctx' _ IH Hn | tctx offset tctx' _ IH Ho Hs].
  - now apply thread_init_cursor_ok.
  - unfold thread_next in Hn.
    destruct (word_count ctx <=? current_word_idx tctx).
    + inversion Hn; subst. assumption.
    + apply bind_Ok in Hn as (r & _ & Hn). inversion Hn; subst.
      now apply advance_position_cursor_ok.
  - eapply thread_seek_cursor_ok; eassumption.
Qed.

(** C9: on every cursor produced by initialization, [thread_next] and
    accepted seeks, each digit at a non-word position is below that
    position's charset size, so the generator's charset reads are in
    bounds, also when the keyspace values are saturated. *)
Theorem digits_below_charset_size workv file ctx tctx :
  engine workv file ctx ->
  cursor_reachable PW_MAX ctx file tctx ->
  forall i p,
    positions ctx !! i = Some p -> nonword p ->
    exists d,
      mask_indices tctx !! i = Some d
      /\ 0 <= d < charset_len p
      /\ exists c, charset_read ctx p d = Ok c.
Proof.
  intros Heng Hr i p Hp Hnw.
  destruct (engine_facts _ _ _ Heng) as (Hc & _ & _ & Hmk & _).
  pose proof (cursor_reachable_ok ctx file tctx Hc ltac:(lia) Hr)
    as (_ & _ & Hlen & Hinv).
  pose proof (lookup_lt_Some _ _ _ Hp) as Hi.
  destruct (lookup_lt_is_Some_2 (mask_indices tctx) i ltac:(lia)) as (d & Hd).
  exists d. split; [assumption|].
  destruct Hc as (_ & _ & Hok & _).
  eapply digits_inv_lookup; eassumption.
Qed.

End Cursor.

(** ** Exhaustion *)

Lemma seek_state_fields ctx tctx offset :
  offset < total_keyspace ctx ->
  seek_state ctx tctx offset
  = {| fd_mem := fd_mem tctx;
       fd_len := fd_len tctx;
       current_word_idx := offset / mask_keyspace ctx;
       current_mask_idx := offset mod mask_keyspace ctx;
       current_offset := offset;
       mask_indices :=
         index_to_mask_indices ctx (offset mod mask_keyspace ctx)
           (mask_indices tctx) |}.
Proof.
  intros H. unfold seek_state, thread_seek.
  destruct (Z.leb_spec (total_keyspace ctx) offset); [lia | reflexivity].
Qed.

(** A fresh cursor is the cursor of offset [0]. *)
Lemma thread_init_seek_state ctx file tctx :
  compiled ctx -> 0 < total_keyspace ctx ->
  thread_init ctx file = Ok tctx -> seek_state ctx tctx 0 = tctx.
Proof.
  intros Hc Htot Hi. pose proof (compiled_radix_ok _ Hc) as Hrad.
  destruct Hc as (_ & Hn & _).
  rewrite seek_state_fields by assumption.
  unfold thread_init in Hi.
  destruct (Z.of_nat (length file) =? 0); [discriminate|].
  inversion Hi; subst tctx; clear Hi. cbn.
  f_equal. apply index_to_mask_indices_twice; try assumption; cbn [length]; lia.
Qed.

Section Exhaustion.

Variable PW_MAX : Z.
Hypothesis PW_MAX_range : PATTERN_MAX_POSITIONS <= PW_MAX < 2 ^ 31.

Variables (ctx : pd_feed_global) (file : list byte) (t0 : pd_feed_thread).
Hypothesis Hcompiled : compiled ctx.
Hypothesis Htables : tables_ok ctx (Z.of_nat (length file)).
Hypothesis Hcursor : cursor_ok ctx file t0.
Hypothesis Hmk : 1 <= mask_keyspace ctx <= UINT64_MAX.
Hypothesis Hwc : 1 <= word_count ctx.
Hypothesis Htotal : total_keyspace ctx = word_count ctx * mask_keyspace ctx.
Hypothesis Hfits : total_keyspace ctx <= UINT64_MAX.

Lemma seek_state_cursor_ok k :
  0 <= k < total_keyspace ctx -> cursor_ok ctx file (seek_state ctx t0 k).
Proof.
  intros Hk. apply (thread_seek_cursor_ok ctx file t0 k); try assumption; [lia|].
  unfold seek_state, thread_seek.
  destruct (Z.leb_spec (total_keyspace ctx) k); [lia | reflexivity].
Qed.

Lemma seek_state_word_idx k :
  0 <= k < total_keyspace ctx ->
  0 <= current_word_idx (seek_state ctx t0 k) < word_count ctx.
Proof.
  intros Hk. rewrite seek_state_fields by lia. cbn.
  split; [apply Z.div_pos; lia|].
  apply Z.div_lt_upper_bound; lia.
Qed.

(** Advancing the cursor of offset [k] gives the cursor of offset [k + 1]. *)
Lemma advance_seek_state k :
  0 <= k -> k + 1 < total_keyspace ctx ->
  advance_position (seek_state ctx t0 k) ctx = seek_state ctx t0 (k + 1).
Proof.
  intros Hk Hk1. pose proof (compiled_radix_ok _ Hcompiled) as Hrad.
  destruct Hcursor as (_ & _ & Hlen & _).
  rewrite !seek_state_fields by lia.
  unfold advance_position; cbn.
  pose proof (Z.mod_pos_bound k (mask_keyspace ctx) ltac:(lia)) as Hm.
  pose proof (div_mod_succ k (mask_keyspace ctx) Hk ltac:(lia)) as (Hstay & Hcarry).
  assert (Hw1 : 0 <= (k + 1) / mask_keyspace ctx < word_count ctx).
  { split; [apply Z.div_pos; lia|]. apply Z.div_lt_upper_bound; lia. }
  assert (Hwcb : word_count ctx <= UINT64_MAX) by nia.
  unfold UINT64_MAX in *.
  rewrite (wrap64_small (k mod mask_keyspace ctx + 1)) by (unfold is_u64; lia).
  rewrite (wrap64_small (k + 1)) by (unfold is_u64; lia).
  destruct (Z.leb_spec (mask_keyspace ctx) (k mod mask_keyspace ctx + 1)) as [Hc|Hs].
  - destruct (Hcarry Hc) as (Ed & Em).
    assert (Hkd : 0 <= k / mask_keyspace ctx) by (apply Z.div_pos; lia).
    rewrite (wrap64_small (k / mask_keyspace ctx + 1)) by (unfold is_u64; lia).
    rewrite <- Ed, <- Em.
    replace ((k + 1) / mask_keyspace ctx <? word_count ctx) with true
      by (symmetry; apply Z.ltb_lt; lia).
    f_equal. apply index_to_mask_indices_twice; try assumption; lia.
  - destruct (Hstay Hs) as (Ed & Em). rewrite <- Ed, <- Em.
    replace ((k + 1) / mask_keyspace ctx <? word_count ctx) with true
      by (symmetry; apply Z.ltb_lt; lia).
    f_equal. apply index_to_mask_indices_twice; try assumption; lia.
Qed.

(** Advancing the cursor of the last offset exhausts it. *)
Lemma advance_last_state k :
  0 <= k -> k + 1 = total_keyspace ctx ->
  current_word_idx (advance_position (seek_state ctx t0 k) ctx) = word_count ctx.
Proof.
  intros Hk Hk1. rewrite seek_state_fields by lia.
  unfold advance_position; cbn.
  pose proof (Z.mod_pos_bound k (mask_keyspace ctx) ltac:(lia)) as Hm.
  pose proof (div_mod_succ k (mask_keyspace ctx) Hk ltac:(lia)) as (Hstay & Hcarry).
  assert (Hdiv : (k + 1) / mask_keyspace ctx = word_count ctx).
  { rewrite Hk1, Htotal. apply Z.div_mul. lia. }
  assert (Hmod : (k + 1) mod mask_keyspace ctx = 0).
  { rewrite Hk1, Htotal. apply Z.mod_mul. lia. }
  assert (Hwcb : word_count ctx <= UINT64_MAX) by nia.
  unfold UINT64_MAX in *.
  rewrite (wrap64_small (k mod mask_keyspace ctx + 1)) by (unfold is_u64; lia).
  destruct (Z.leb_spec (mask_keyspace ctx) (k mod mask_keyspace ctx + 1)) as [Hc|Hs].
  - destruct (Hcarry Hc) as (Ed & _).
    assert (Hkd : 0 <= k / mask_keyspace ctx) by (apply Z.div_pos; lia).
    rewrite wrap64_small by (unfold is_u64; lia). lia.
  - destruct (Hstay Hs) as (_ & Em). lia.
Qed.


(** From the cursor of offset [k], [n] calls that stay within the keyspace
    return the candidates of offsets [k], ..., [k + n - 1]. *)
Lemma next_calls_run : forall (n : nat) (k : Z),
  0 <= k -> k + Z.of_nat n <= total_keyspace ctx ->
  k < total_keyspace ctx ->
  exists rs tn,
    next_calls PW_MAX n ctx (seek_state ctx t0 k) = Ok (rs, tn)
    /\ length rs = n
    /\ at_offset ctx file t0 (k + Z.of_nat n) tn
    /\ forall (i : nat) ret out,
         rs !! i = Some (ret, out) ->
         generate_candidate PW_MAX ctx (seek_state ctx t0 (k + Z.of_nat i))
         = Ok (out, ret).
Proof.
  induction n as [|n IH]; intros k Hk Hkn Hkt.
  - exists [], (seek_state ctx t0 k). cbn. repeat split.
    + left. split; [lia|]. f_equal. lia.
    + intros i ret out Hi. discriminate.
  - pose proof (seek_state_cursor_ok k ltac:(lia)) as Hcur.
    pose proof (seek_state_word_idx k ltac:(lia)) as Hidx.
    destruct (thread_next_defined PW_MAX PW_MAX_range ctx file _ Hcompiled Htables
                Hcur ltac:(lia)) as (ret & out & Hnext & _ & Hgen).
    replace (word_count ctx <=? current_word_idx (seek_state ctx t0 k)) with false
      in Hnext by (symmetry; apply Z.leb_gt; lia).
    specialize (Hgen ltac:(lia)).
    cbn [next_calls]. rewrite Hnext. cbn [mbind outcome_bind fst snd].
    destruct (Z.eq_dec (k + 1) (total_keyspace ctx)) as [Hlast|Hmore].
    + assert (n = 0%nat) as -> by lia.
      cbn [next_calls mbind outcome_bind fst snd].
      eexists _, _. split; [reflexivity|]. split; [reflexivity|]. split.
      * right. split; [lia|]. split.
        -- now apply advance_position_cursor_ok.
        -- now apply advance_last_state.
      * intros [|i] ret' out' Hi; [|discriminate].
        inversion Hi; subst. rewrite Z.add_0_r. assumption.
    + rewrite advance_seek_state by lia.
      destruct (IH (k + 1) ltac:(lia) ltac:(lia) ltac:(lia))
        as (rs & tn & Hrun & Hlen & Hat & Hrs).
      rewrite Hrun. cbn [mbind outcome_bind fst snd].
      eexists _, _. split; [reflexivity|]. split; [cbn; lia|]. split.
      * replace (k + Z.of_nat (S n)) with (k + 1 + Z.of_nat n) by lia. assumption.
      * intros [|i] ret' out' Hi.
        -- inversion Hi; subst. rewrite Z.add_0_r. assumption.
        -- cbn in Hi. apply Hrs in Hi.
           replace (k + Z.of_nat (S i)) with (k + 1 + Z.of_nat i) by lia. assumption.
Qed.

End Exhaustion.

Lemma next_calls_app PW_MAX ctx : forall (a b : nat) tctx,
  next_calls PW_MAX (a + b) ctx tctx
  = (r1 ← next_calls PW_MAX a ctx tctx;
     r2 ← next_calls PW_MAX b ctx r1.2;
     Ok (r1.1 ++ r2.1, r2.2)).
Proof.
  induction a as [|a IH]; intros b tctx.
  - cbn. destruct (next_calls PW_MAX b ctx tctx) as [[rs t]| |]; reflexivity.
  - cbn [Nat.add next_calls].
    destruct (thread_next PW_MAX ctx tctx) as [[[ret out] t1]| |]; try reflexivity.
    cbn [mbind outcome_bind fst snd]. rewrite IH.
    destruct (next_calls PW_MAX a ctx t1) as [[rs1 t2]| |]; try reflexivity.
    cbn [mbind outcome_bind fst snd].
    destruct (next_calls PW_MAX b ctx t2) as [[rs2 t3]| |]; reflexivity.
Qed.



(** ** A word of [2^32 - 1] bytes *)

(** [global_keyspace] on a file made of one unterminated line of [n] copies
    of [c]. *)
Lemma global_keyspace_one_long_line ctx0 (c : byte) (n : nat) :
  c <> NL -> c <> CR -> (0 < n)%nat -> Z.of_nat n + 1 <= SIZE_MAX ->
  exists ctx,
    global_keyspace ctx0 (replicate n c) = Ok ctx
    /\ positions ctx = positions ctx0
    /\ word_position ctx = word_position ctx0
    /\ cs_custom ctx = cs_custom ctx0
    /\ word_count ctx = 1
    /\ word_offsets ctx = [0]
    /\ word_lengths ctx = [wrap32 (Z.of_nat n)].
Proof.
  intros Hnl Hcr Hn Hsize.
  destruct (one_long_line ctx0 c n false Hnl Hcr Hn Hsize)
    as (_ & _ & ctx1 & Hb & Eps & Ewp & Ewc & Eo & El).
  cbn iota in Hb. rewrite app_nil_r in Hb.
  destruct (build_word_index_fields _ _ _ Hb) as (_ & _ & Ecs & _).
  unfold global_keyspace, thread_init. rewrite length_replicate.
  destruct (Z.eqb_spec (Z.of_nat n) 0) as [|_]; [lia|].
  cbn [mbind outcome_bind fd_mem]. rewrite Hb. cbn [mbind outcome_bind].
  eexists. split; [reflexivity|]. cbn. repeat split; assumption.
Qed.

(** Pattern [?d?W] over a file that is one unterminated line of
    [n = 2^32 - 1] bytes: what [generate_candidate] does on the fresh
    cursor. *)
Lemma generate_candidate_wraps (n : nat) ctx0 :
  Z.of_nat n = 4294967295 ->
  positions ctx0
  = [mkPos POS_DIGIT (ascii_of_nat 0) CS_DIGIT_LEN PtrDigit;
     mkPos POS_WORD (ascii_of_nat 0) 0 PtrNull] ->
  word_position ctx0 = 1 ->
  let file : list byte := replicate n "a"%char in
  exists ctx t0 out,
    global_keyspace ctx0 file = Ok ctx
    /\ thread_init ctx file = Ok t0
    /\ word_lengths ctx = [4294967295]
    /\ generate_candidate 256 ctx t0 = Ok (out, 0)
    /\ Z.of_nat (length out) = 4294967296
    /\ 256 < Z.of_nat (length out).
Proof.
  intros Hn Eps0 Ewp0 file.
  assert (Ha : "a"%char <> NL) by discriminate.
  assert (Hb : "a"%char <> CR) by discriminate.
  destruct (global_keyspace_one_long_line ctx0 "a"%char n Ha Hb
              ltac:(lia) ltac:(unfold SIZE_MAX; lia))
    as (ctx & Hks & Eps & Ewp & Ecs & Ewc & Eo & El).
  rewrite Eps0 in Eps. rewrite Ewp0 in Ewp.
  rewrite Hn in El. change (wrap32 4294967295) with 4294967295 in El.
  assert (Hlen : Z.of_nat (length file) = 4294967295).
  { unfold file. rewrite length_replicate. lia. }
  assert (Hidx : index_to_mask_indices ctx 0
                   (replicate (Z.to_nat PATTERN_MAX_POSITIONS) 0)
                 = [0] ++ 0 :: [] ++ replicate 30 0).
  { unfold index_to_mask_indices. rewrite Eps. reflexivity. }
  set (pd := mkPos POS_DIGIT (ascii_of_nat 0) CS_DIGIT_LEN PtrDigit) in *.
  set (pw := mkPos POS_WORD (ascii_of_nat 0) 0 PtrNull) in *.
  set (t0 := {| fd_mem := file;
                fd_len := 4294967295;
                current_word_idx := 0;
                current_mask_idx := 0;
                current_offset := 0;
                mask_indices := [0] ++ 0 :: [] ++ replicate 30 0 |}).
  set (out := render ctx [pd] [0]
              ++ take (Z.to_nat 4294967295) (drop (Z.to_nat 0) file)
              ++ take (Z.to_nat (256 - 0)) (render ctx [] [])).
  exists ctx, t0, out.
  split; [exact Hks|].
  split.
  { unfold thread_init. rewrite Hlen. cbn [Z.eqb]. rewrite Hidx. reflexivity. }
  split; [assumption|].
  assert (Hok : Forall (pos_ok ctx) [pd]).
  { constructor; [|constructor]. intros _. cbn. split; [cs_consts; lia|].
    intros d Hd. unfold charset_read; cbn.
    apply (builtin_readable CHARSET_DIGIT 10 d); [reflexivity | cs_consts; lia]. }
  assert (Hnw : Forall nonword [pd]) by (repeat constructor).
  assert (Hdig : Forall2 digit_ok [pd] [0]).
  { repeat constructor. unfold digit_ok; cbn. cs_consts. lia. }
  assert (Hro : rd (word_offsets ctx) (current_word_idx t0) = Ok 0)
    by (rewrite Eo; reflexivity).
  assert (Hrl : rd (word_lengths ctx) (current_word_idx t0) = Ok 4294967295)
    by (rewrite El; reflexivity).
  pose proof (generate_candidate_unfold 256 ctx t0 [pd] pw [] [0] 0 []
                (replicate 30 0) 0 4294967295 Eps Ewp Hok Hnw
                (Forall_nil_2 _) (Forall_nil_2 _) eq_refl Hdig
                (Forall2_nil_2 _ _ _) Hro Hrl) as Hgen.
  cbn zeta in Hgen. cbn [length] in Hgen.
  assert (Hw : wrap32 (Z.of_nat 1 + 4294967295) = 0) by reflexivity.
  assert (Hr : to_int (0 + Z.of_nat 0 `min` (0 `max` (256 - 0))) = 0) by reflexivity.
  rewrite !Hw in Hgen.
  change (256 <? 0) with false in Hgen. cbv iota in Hgen.
  rewrite !Hw, Hr in Hgen.
  change (fd_mem t0) with file in Hgen.
  specialize (Hgen ltac:(reflexivity)
                   ltac:(change (0 + 4294967295 <= 4294967295); lia)
                   ltac:(reflexivity)).
  split; [exact Hgen|].
  assert (Hout : Z.of_nat (length out) = 4294967296).
  { unfold out. rewrite !length_app, length_take, length_drop.
    unfold file. rewrite length_replicate.
    change (render ctx [] []) with (@nil byte). rewrite take_nil.
    change (length (render ctx [pd] [0])) with 1%nat.
    change (length (@nil byte)) with 0%nat. lia. }
  split; [exact Hout | rewrite Hout; lia].
Qed.

(** C5 (the defect): pattern [?d?W] over a word list whose only line has
    [2^32 - 1] bytes. [out_len + word_len] wraps to [0], the truncation test
    does not fire, and [generate_candidate] stores [2^32] bytes, far more
    than [PW_MAX = 256], while it returns [0]. *)
Theorem generate_candidate_overflow :
  exists ctx0,
    global_init (map list_ascii_of_string ["feed"; "?d?W"; "words"]%string) = Ok ctx0
    /\ exists ctx t0 out,
         global_keyspace ctx0 (replicate (Z.to_nat 4294967295) "a"%char) = Ok ctx
         /\ thread_init ctx (replicate (Z.to_nat 4294967295) "a"%char) = Ok t0
         /\ word_lengths ctx = [4294967295]
         /\ generate_candidate 256 ctx t0 = Ok (out, 0)
         /\ Z.of_nat (length out) = 4294967296
         /\ 256 < Z.of_nat (length out).
Proof.
  eexists. split; [vm_compute; reflexivity|].
  apply (generate_candidate_wraps (Z.to_nat 4294967295));
    [apply Z2Nat.id; lia | reflexivity | reflexivity].
Qed.

(** ** Pattern compiler: the word placeholder rule *)

Lemma custom_position_not_word_error ctx k t e :
  custom_position ctx k t = Err e -> e = CustomNotDefined k.
Proof.
  unfold custom_position. intros H.
  apply bind_Err in H as [H | (defined & _ & H)]; [now apply rd_not_Err in H|].
  destruct defined; cbn [negb] in H; [|now inversion H].
  apply bind_Err in H as [H | (len & _ & H)]; [now apply rd_not_Err in H | discriminate].
Qed.

(** An escape fails with the duplicate error exactly at a [?W] met when a
    word position is already there, and never with the missing error. *)
Lemma pattern_escape_Err ctx spec num wp found e :
  pattern_escape ctx spec num wp found = Err e ->
  e <> WordPlaceholderMissing
  /\ (e = WordPlaceholderDuplicated -> spec = "W"%char /\ found = true).
Proof.
  unfold pattern_escape.
  assert (Hcustom : forall k t,
            (custom_position ctx k t ≫= λ p, Ok (p, wp, found)) = Err e ->
            e <> WordPlaceholderMissing
            /\ (e = WordPlaceholderDuplicated -> spec = "W"%char /\ found = true)).
  { intros k t H. apply bind_Err in H as [H | (p & _ & H)]; [|discriminate].
    apply custom_position_not_word_error in H. subst e.
    split; [discriminate | intros H'; discriminate H']. }
  do 8 (case_if; [discriminate|]).
  do 4 (case_if; [apply Hcustom|]).
  case_if.
  - destruct found; [|discriminate]. intros H. inversion H; subst.
    split; [discriminate|]. intros _. split; [now apply Ascii.eqb_eq | reflexivity].
  - case_if; [discriminate|]. intros H. inversion H; subst.
    split; [discriminate | intros H'; discriminate H'].
Qed.

Lemma pattern_scan_Err ctx :
  registry_ok ctx ->
  forall n pattern ps wp found e,
    (length pattern <= n)%nat ->
    pattern_scan ctx pattern ps wp found = Err e ->
    e <> WordPlaceholderMissing
    /\ (e = WordPlaceholderDuplicated ->
        (2 <= Nat.b2n found + word_escapes pattern)%nat).
Proof.
  intros Hreg. induction n as [|n IH]; intros pattern ps wp found e Hn.
  - destruct pattern; [|simpl in Hn; lia]. discriminate.
  - destruct pattern as [|c rest]; [discriminate|].
    cbn [pattern_scan word_escapes].
    destruct (PATTERN_MAX_POSITIONS <=? Z.of_nat (length ps)).
    { intros H. inversion H; subst. split; [discriminate | intros H'; discriminate H']. }
    destruct (c =? "?")%char.
    + destruct rest as [|spec rest'].
      { intros H. inversion H; subst. split; [discriminate | intros H'; discriminate H']. }
      simpl in Hn. intros H.
      apply bind_Err in H as [He | ([[p wp1] found1] & He & Hs)].
      * apply pattern_escape_Err in He as (Hm & Hd). split; [assumption|].
        intros ->. destruct (Hd eq_refl) as (-> & ->). simpl. lia.
      * cbn [fst snd] in Hs.
        apply IH in Hs as (Hm & Hd); [|lia]. split; [assumption|].
        intros ->. specialize (Hd eq_refl).
        destruct (pattern_escape_Ok _ _ _ _ _ _ _ _ Hreg He)
          as (_ & [(-> & _ & -> & -> & _) | (Hne & _ & -> & _)]).
        -- simpl in *. lia.
        -- apply Ascii.eqb_neq in Hne. rewrite Hne. simpl. lia.
    + simpl in Hn. intros H. apply IH in H; [assumption | lia].
Qed.

Lemma custom_position_defined ctx k t :
  registry_ok ctx -> slot_defined ctx k = true ->
  exists p, custom_position ctx k t = Ok p.
Proof.
  intros Hreg Hd. unfold slot_defined in Hd.
  destruct (cs_custom_defined ctx !! k) as [[|]|] eqn:Hk; try discriminate.
  destruct (registry_slot _ _ Hreg Hk) as (buf & len & _ & _ & Hl & _).
  unfold custom_position.
  rewrite (rd_nat _ _ _ Hk). cbn. rewrite (rd_nat _ _ _ Hl). cbn. eauto.
Qed.

(** A known escape yields a position, except a [?W] met after the word
    position is there, which is the duplicate error. *)
Lemma pattern_escape_known ctx spec num wp found :
  registry_ok ctx -> escape_known ctx spec = true ->
  (spec = "W"%char /\ found = true
   /\ pattern_escape ctx spec num wp found = Err WordPlaceholderDuplicated)
  \/ (exists r, pattern_escape ctx spec num wp found = Ok r).
Proof.
  intros Hreg. unfold escape_known, pattern_escape.
  do 8 (case_if; [intros _; right; eexists; reflexivity|]).
  destruct (spec =? "1")%char eqn:E1.
  { apply Ascii.eqb_eq in E1. subst spec. cbn. intros Hs. rewrite ?orb_false_r in Hs.
    destruct (custom_position_defined ctx 0 POS_CUSTOM_1 Hreg Hs) as (p & Hp).
    right. rewrite Hp. eexists. reflexivity. }
  destruct (spec =? "2")%char eqn:E2.
  { apply Ascii.eqb_eq in E2. subst spec. cbn. intros Hs. rewrite ?orb_false_r in Hs.
    destruct (custom_position_defined ctx 1 POS_CUSTOM_2 Hreg Hs) as (p & Hp).
    right. rewrite Hp. eexists. reflexivity. }
  destruct (spec =? "3")%char eqn:E3.
  { apply Ascii.eqb_eq in E3. subst spec. cbn. intros Hs. rewrite ?orb_false_r in Hs.
    destruct (custom_position_defined ctx 2 POS_CUSTOM_3 Hreg Hs) as (p & Hp).
    right. rewrite Hp. eexists. reflexivity. }
  destruct (spec =? "4")%char eqn:E4.
  { apply Ascii.eqb_eq in E4. subst spec. cbn. intros Hs. rewrite ?orb_false_r in Hs.
    destruct (custom_position_defined ctx 3 POS_CUSTOM_4 Hreg Hs) as (p & Hp).
    right. rewrite Hp. eexists. reflexivity. }
  destruct (spec =? "W")%char eqn:EW.
  { apply Ascii.eqb_eq in EW. subst spec. intros _.
    destruct found; [left; repeat split | right; eexists; reflexivity]. }
  destruct (spec =? "?")%char eqn:EQ.
  { intros _. right. eexists. reflexivity. }
  cbn. discriminate.
Qed.

(** On a pattern with no other defect the scan ends well when it meets at
    most one [?W], and with the duplicate error when it meets a second. *)
Lemma pattern_scan_clean ctx :
  registry_ok ctx ->
  forall n pattern ps wp found,
    (length pattern <= n)%nat ->
    scan_clean ctx pattern (length ps) = true ->
    ((Nat.b2n found + word_escapes pattern <= 1)%nat ->
     exists r, pattern_scan ctx pattern ps wp found = Ok r)
    /\ ((2 <= Nat.b2n found + word_escapes pattern)%nat ->
        pattern_scan ctx pattern ps wp found = Err WordPlaceholderDuplicated).
Proof.
  intros Hreg. induction n as [|n IH]; intros pattern ps wp found Hn Hclean.
  - destruct pattern; [|simpl in Hn; lia]. simpl.
    split; [eauto | destruct found; simpl; lia].
  - destruct pattern as [|c rest].
    { simpl. split; [eauto | destruct found; simpl; lia]. }
    cbn [pattern_scan word_escapes scan_clean] in *.
    apply andb_true_iff in Hclean as (Hroom & Hclean).
    apply Z.ltb_lt in Hroom.
    destruct (Z.leb_spec PATTERN_MAX_POSITIONS (Z.of_nat (length ps))) as [|_]; [lia|].
    destruct (c =? "?")%char.
    + destruct rest as [|spec rest']; [discriminate|].
      apply andb_true_iff in Hclean as (Hknown & Hclean). simpl in Hn.
      destruct (pattern_escape_known ctx spec (Z.of_nat (length ps)) wp found Hreg Hknown)
        as [(-> & -> & He) | ([[p wp1] found1] & He)].
      * rewrite He. cbn. split; [lia | reflexivity].
      * rewrite He. cbn [mbind outcome_bind fst snd].
        assert (Hlen : length (ps ++ [p]) = S (length ps))
          by (rewrite length_app; simpl; lia).
        rewrite <- Hlen in Hclean.
        destruct (IH rest' (ps ++ [p]) wp1 found1 ltac:(lia) Hclean) as (IH1 & IH2).
        assert (Hcnt : (Nat.b2n found
                        + ((if (spec =? "W")%char then 1 else 0) + word_escapes rest')
                        = Nat.b2n found1 + word_escapes rest')%nat).
        { destruct (pattern_escape_Ok _ _ _ _ _ _ _ _ Hreg He)
            as (_ & [(-> & _ & -> & -> & _) | (Hne & _ & -> & _)]).
          - simpl. lia.
          - apply Ascii.eqb_neq in Hne. rewrite Hne. simpl. lia. }
        rewrite Hcnt. split; assumption.
    + simpl in Hn.
      assert (Hlen : length (ps ++ [mkPos POS_LITERAL c 1 PtrLiteral]) = S (length ps))
        by (rewrite length_app; simpl; lia).
      rewrite <- Hlen in Hclean.
      apply IH; [lia | assumption].
Qed.

Lemma custom_position_Ok_defined ctx k t p :
  custom_position ctx k t = Ok p -> slot_defined ctx k = true.
Proof.
  unfold custom_position, slot_defined. intros H.
  apply bind_Ok in H as (d & Hd & H).
  apply rd_Ok in Hd as (_ & Hd). rewrite Nat2Z.id in Hd. rewrite Hd.
  destruct d; [reflexivity | discriminate].
Qed.

(** An escape that yields a position is a known one. *)
Lemma pattern_escape_Ok_known ctx spec num wp found r :
  pattern_escape ctx spec num wp found = Ok r -> escape_known ctx spec = true.
Proof.
  unfold pattern_escape, escape_known.
  assert (Hcustom : forall k t,
            (custom_position ctx k t ≫= λ p, Ok (p, wp, found)) = Ok r ->
            slot_defined ctx k = true).
  { intros k t H. apply bind_Ok in H as (p & Hp & _).
    now apply custom_position_Ok_defined in Hp. }
  do 8 (destruct (spec =? _)%char; [reflexivity|]).
  cbn [orb].
  destruct (spec =? "1")%char eqn:E1.
  { apply Ascii.eqb_eq in E1. subst spec. intros H. apply Hcustom in H.
    rewrite H. reflexivity. }
  destruct (spec =? "2")%char eqn:E2.
  { apply Ascii.eqb_eq in E2. subst spec. intros H. apply Hcustom in H.
    rewrite H. reflexivity. }
  destruct (spec =? "3")%char eqn:E3.
  { apply Ascii.eqb_eq in E3. subst spec. intros H. apply Hcustom in H.
    rewrite H. reflexivity. }
  destruct (spec =? "4")%char eqn:E4.
  { apply Ascii.eqb_eq in E4. subst spec. intros H. apply Hcustom in H.
    rewrite H. reflexivity. }
  destruct (spec =? "W")%char; [reflexivity|].
  destruct (spec =? "?")%char; [reflexivity | discriminate].
Qed.

(** A scan that ends well has met no defect. *)
Lemma pattern_scan_Ok_clean ctx :
  forall n pattern ps wp found r,
    (length pattern <= n)%nat ->
    pattern_scan ctx pattern ps wp found = Ok r ->
    scan_clean ctx pattern (length ps) = true.
Proof.
  induction n as [|n IH]; intros pattern ps wp found r Hn.
  - destruct pattern; [reflexivity | simpl in Hn; lia].
  - destruct pattern as [|c rest]; [reflexivity|].
    cbn [pattern_scan scan_clean].
    destruct (Z.leb_spec PATTERN_MAX_POSITIONS (Z.of_nat (length ps))) as [|Hroom];
      [discriminate|].
    apply Z.ltb_lt in Hroom. rewrite Hroom. cbn [andb].
    destruct (c =? "?")%char.
    + destruct rest as [|spec rest']; [discriminate|].
      simpl in Hn. intros H.
      apply bind_Ok in H as ([[p wp1] found1] & He & Hs). cbn [fst snd] in Hs.
      rewrite (pattern_escape_Ok_known _ _ _ _ _ _ He). cbn [andb].
      apply IH in Hs; [|lia].
      rewrite length_app in Hs. cbn [length] in Hs.
      now replace (length ps + 1)%nat with (S (length ps)) in Hs by lia.
    + simpl in Hn. intros H. apply IH in H; [|lia].
      rewrite length_app in H. cbn [length] in H.
      now replace (length ps + 1)%nat with (S (length ps)) in H by lia.
Qed.

(** The scan stops with the duplicate error at a [?W] that follows a prefix
    scanned without defect in which the word position was found, whatever
    comes after it. *)
Lemma pattern_scan_second_word ctx :
  registry_ok ctx ->
  forall n pre rest ps wp found,
    (length pre <= n)%nat ->
    aligned pre = true ->
    scan_clean ctx (pre ++ ["?"; "W"]%char) (length ps) = true ->
    (Nat.b2n found + word_escapes pre = 1)%nat ->
    pattern_scan ctx (pre ++ "?"%char :: "W"%char :: rest) ps wp found
    = Err WordPlaceholderDuplicated.
Proof.
  intros Hreg. induction n as [|n IH]; intros pre rest ps wp found Hn Hal Hclean Hcnt.
  - destruct pre; [|simpl in Hn; lia].
    cbn [app pattern_scan scan_clean word_escapes] in *.
    apply andb_true_iff in Hclean as (Hroom & _). apply Z.ltb_lt in Hroom.
    destruct (Z.leb_spec PATTERN_MAX_POSITIONS (Z.of_nat (length ps))) as [|_]; [lia|].
    destruct found; [reflexivity | simpl in Hcnt; lia].
  - destruct pre as [|c pre].
    { apply (IH [] rest ps wp found); [simpl; lia | assumption..]. }
    cbn [app pattern_scan scan_clean word_escapes aligned] in *.
    apply andb_true_iff in Hclean as (Hroom & Hclean). apply Z.ltb_lt in Hroom.
    destruct (Z.leb_spec PATTERN_MAX_POSITIONS (Z.of_nat (length ps))) as [|_]; [lia|].
    destruct (c =? "?")%char.
    + destruct pre as [|spec pre']; [discriminate|].
      cbn [app] in *.
      apply andb_true_iff in Hclean as (Hknown & Hclean). simpl in Hn.
      destruct (pattern_escape_known ctx spec (Z.of_nat (length ps)) wp found Hreg Hknown)
        as [(-> & -> & He) | ([[p wp1] found1] & He)].
      * simpl in Hcnt. lia.
      * rewrite He. cbn [mbind outcome_bind fst snd].
        apply IH; [lia | assumption | |].
        -- rewrite length_app. cbn [length].
           now replace (length ps + 1)%nat with (S (length ps)) by lia.
        -- destruct (pattern_escape_Ok _ _ _ _ _ _ _ _ Hreg He)
             as (_ & [(-> & _ & -> & -> & _) | (Hne & _ & -> & _)]).
           ++ simpl in *. lia.
           ++ apply Ascii.eqb_neq in Hne. rewrite Hne in Hcnt. simpl in *. lia.
    + simpl in Hn. apply IH; [lia | assumption | | assumption].
      rewrite length_app. cbn [length].
      now replace (length ps + 1)%nat with (S (length ps)) by lia.
Qed.

(** Conversely, the duplicate error is raised only there. *)
Lemma pattern_scan_Err_duplicated ctx :
  registry_ok ctx ->
  forall n pattern ps wp found,
    (length pattern <= n)%nat ->
    pattern_scan ctx pattern ps wp found = Err WordPlaceholderDuplicated ->
    exists pre rest,
      pattern = pre ++ "?"%char :: "W"%char :: rest
      /\ aligned pre = true
      /\ scan_clean ctx (pre ++ ["?"; "W"]%char) (length ps) = true
      /\ (Nat.b2n found + word_escapes pre = 1)%nat.
Proof.
  intros Hreg. induction n as [|n IH]; intros pattern ps wp found Hn.
  - destruct pattern; [discriminate | simpl in Hn; lia].
  - destruct pattern as [|c rest0]; [discriminate|].
    cbn [pattern_scan].
    destruct (Z.leb_spec PATTERN_MAX_POSITIONS (Z.of_nat (length ps))) as [|Hroom];
      [discriminate|].
    apply Z.ltb_lt in Hroom.
    destruct (c =? "?")%char eqn:Ec.
    + destruct rest0 as [|spec rest']; [discriminate|].
      simpl in Hn. intros H.
      apply bind_Err in H as [He | ([[p wp1] found1] & He & Hs)].
      * destruct (pattern_escape_Err _ _ _ _ _ _ He) as (_ & Hd).
        destruct (Hd eq_refl) as (-> & ->).
        apply Ascii.eqb_eq in Ec. subst c.
        exists [], rest'. split; [reflexivity|]. split; [reflexivity|].
        split; [|reflexivity].
        cbn [app scan_clean]. rewrite Hroom. reflexivity.
      * cbn [fst snd] in Hs. apply IH in Hs; [|lia].
        destruct Hs as (pre & rest & -> & Hal & Hclean & Hcnt).
        apply Ascii.eqb_eq in Ec. subst c.
        exists ("?"%char :: spec :: pre), rest.
        split; [reflexivity|]. split; [exact Hal|].
        rewrite length_app in Hclean. cbn [length] in Hclean.
        replace (length ps + 1)%nat with (S (length ps)) in Hclean by lia.
        split.
        -- cbn [app scan_clean]. rewrite Hroom.
           rewrite (pattern_escape_Ok_known _ _ _ _ _ _ He), Hclean. reflexivity.
        -- cbn [word_escapes].
           destruct (pattern_escape_Ok _ _ _ _ _ _ _ _ Hreg He)
             as (_ & [(-> & _ & -> & -> & _) | (Hne & _ & -> & _)]).
           ++ simpl in *. lia.
           ++ apply Ascii.eqb_neq in Hne. rewrite Hne. simpl in *. lia.
    + simpl in Hn. intros H. apply IH in H; [|lia].
      destruct H as (pre & rest & -> & Hal & Hclean & Hcnt).
      exists (c :: pre), rest.
      rewrite length_app in Hclean. cbn [length] in Hclean.
      replace (length ps + 1)%nat with (S (length ps)) in Hclean by lia.
      split; [reflexivity|]. split; [cbn [aligned]; rewrite Ec; exact Hal|].
      split.
      * cbn [app scan_clean]. rewrite Hroom, Ec, Hclean. reflexivity.
      * cbn [word_escapes]. rewrite Ec. exact Hcnt.
Qed.

(** C6 (as amended): a pattern compiles exactly when its scan meets no
    other error (unknown or dangling escape, undefined custom slot, more
    than [PATTERN_MAX_POSITIONS] positions) and exactly one [?W] escape; it
    fails with the missing error exactly when the scan of the whole pattern
    meets no other error and no [?W]; it fails with the duplicate error
    exactly when the scan reaches a second [?W] without meeting another
    error before it, whatever follows that [?W], and then the pattern has at
    least two [?W]. ["??W"] scans as a literal [?] and a literal [W] and
    fails with the missing error. *)
Theorem word_placeholder_rule ctx :
  registry_ok ctx ->
  (forall pattern,
     (exists ctx', parse_pattern ctx pattern = Ok ctx')
     <-> scan_clean ctx pattern 0 = true /\ word_escapes pattern = 1%nat)
  /\ (forall pattern,
        parse_pattern ctx pattern = Err WordPlaceholderMissing
        <-> scan_clean ctx pattern 0 = true /\ word_escapes pattern = 0%nat)
  /\ (forall pattern,
        parse_pattern ctx pattern = Err WordPlaceholderDuplicated
        <-> exists pre rest,
              pattern = pre ++ "?"%char :: "W"%char :: rest
              /\ aligned pre = true
              /\ scan_clean ctx (pre ++ ["?"%char; "W"%char]) 0 = true
              /\ word_escapes pre = 1%nat)
  /\ (forall pattern,
        parse_pattern ctx pattern = Err WordPlaceholderDuplicated ->
        (2 <= word_escapes pattern)%nat)
  /\ (forall pattern,
        scan_clean ctx pattern 0 = true -> (2 <= word_escapes pattern)%nat ->
        parse_pattern ctx pattern = Err WordPlaceholderDuplicated)
  /\ pattern_scan ctx (list_ascii_of_string "??W") [] (wrap32 (-1)) false
     = Ok ([mkPos POS_LITERAL "?"%char 1 PtrLiteral;
            mkPos POS_LITERAL "W"%char 1 PtrLiteral], wrap32 (-1), false)
  /\ word_escapes (list_ascii_of_string "??W") = 0%nat
  /\ parse_pattern ctx (list_ascii_of_string "??W") = Err WordPlaceholderMissing.
Proof.
  intros Hreg.
  assert (Hstart : scan_state_ok ctx [] (wrap32 (-1)) false)
    by (repeat split; simpl; try lia; constructor).
  split.
  { intros pattern. split.
    - intros (ctx' & H). split.
      + unfold parse_pattern in H. apply bind_Ok in H as (r & Hs & _).
        exact (pattern_scan_Ok_clean ctx (length pattern) pattern [] _ _ r
                 ltac:(lia) Hs).
      + now apply parse_pattern_Ok in H as (_ & H & _).
    - intros (Hclean & H1).
      destruct (pattern_scan_clean ctx Hreg (length pattern) pattern [] (wrap32 (-1))
                  false ltac:(lia) Hclean) as (Hok & _).
      cbn [Nat.b2n Nat.add] in Hok. unfold parse_pattern.
      destruct (Hok ltac:(lia)) as ([[ps wp] found] & Hs).
      rewrite Hs. cbn [mbind outcome_bind].
      apply (pattern_scan_Ok ctx Hreg (length pattern)) in Hs as (_ & Hcnt);
        [| lia | exact Hstart].
      destruct found; simpl in Hcnt; [|lia].
      cbn [negb]. destruct (count_prefix_suffix _ _). eauto. }
  split.
  { intros pattern. split.
    - intros H. unfold parse_pattern in H.
      apply bind_Err in H as [H | ([[ps wp] found] & Hs & H)].
      + apply (pattern_scan_Err ctx Hreg (length pattern)) in H as (Hm & _); [|lia].
        congruence.
      + destruct found; cbn [negb] in H.
        { destruct (count_prefix_suffix _ _); discriminate. }
        split.
        * exact (pattern_scan_Ok_clean ctx (length pattern) pattern [] _ _ _
                   ltac:(lia) Hs).
        * apply (pattern_scan_Ok ctx Hreg (length pattern)) in Hs as (_ & Hcnt);
            [simpl in Hcnt; lia | lia | exact Hstart].
    - intros (Hclean & Hz).
      destruct (pattern_scan_clean ctx Hreg (length pattern) pattern [] (wrap32 (-1))
                  false ltac:(lia) Hclean) as (Hok & _).
      cbn [Nat.b2n Nat.add] in Hok. unfold parse_pattern.
      destruct (Hok ltac:(lia)) as ([[ps wp] found] & Hs).
      rewrite Hs. cbn [mbind outcome_bind].
      apply (pattern_scan_Ok ctx Hreg (length pattern)) in Hs as (_ & Hcnt);
        [| lia | exact Hstart].
      destruct found; simpl in Hcnt; [lia | reflexivity]. }
  split.
  { intros pattern. split.
    - intros H. unfold parse_pattern in H.
      apply bind_Err in H as [H | ([[ps wp] found] & Hs & H)].
      + exact (pattern_scan_Err_duplicated ctx Hreg (length pattern) pattern []
                 _ false ltac:(lia) H).
      + destruct found; cbn [negb] in H; [|discriminate].
        destruct (count_prefix_suffix _ _); discriminate.
    - intros (pre & rest & -> & Hal & Hclean & H1). unfold parse_pattern.
      rewrite (pattern_scan_second_word ctx Hreg (length pre) pre rest []
                 (wrap32 (-1)) false ltac:(lia) Hal Hclean H1).
      reflexivity. }
  split.
  { intros pattern H. unfold parse_pattern in H.
    apply bind_Err in H as [H | ([[ps wp] found] & Hs & H)].
    - apply (pattern_scan_Err ctx Hreg (length pattern)) in H as (_ & Hd); [|lia].
      specialize (Hd eq_refl). simpl in Hd. lia.
    - destruct found; cbn [negb] in H; [|discriminate].
      destruct (count_prefix_suffix _ _); discriminate. }
  split.
  { intros pattern Hclean H2.
    destruct (pattern_scan_clean ctx Hreg (length pattern) pattern [] (wrap32 (-1))
                false ltac:(lia) Hclean) as (_ & Hdup).
    cbn [Nat.b2n Nat.add] in Hdup. unfold parse_pattern.
    now rewrite (Hdup H2). }
  split; [reflexivity|]. split; reflexivity.
Qed.

(** Pattern ["?x"] has no [?W], yet it does not fail with the missing
    error: the scan stops at the unknown escape. *)
Lemma zero_placeholders_other_error :
  word_escapes (list_ascii_of_string "?x") = 0%nat
  /\ parse_pattern init_charsets (list_ascii_of_string "?x") = Err SpecifierInvalid
  /\ parse_pattern init_charsets (list_ascii_of_string "?x")
     <> Err WordPlaceholderMissing.
Proof. repeat split. discriminate. Qed.

(** ** Custom charset definition as an expansion to a byte sequence *)

Lemma take_insert_end {A : Type} (l : list A) (n : nat) (x : A) :
  (n < length l)%nat -> take (S n) (<[n := x]> l) = take n l ++ [x].
Proof.
  intros Hn. rewrite (take_S_r _ _ x).
  - rewrite take_insert_ge by lia. reflexivity.
  - apply list_lookup_insert_eq. assumption.
Qed.

Lemma copy_charset_refines buf len src n :
  length buf = 256%nat -> 0 <= len < 256 ->
  0 < n <= Z.of_nat (length src) ->
  filled (copy_charset buf len src false n)
  = Ok (append_capped (take (Z.to_nat len) buf) (take (Z.to_nat n) src)).
Proof.
  intros Hb Hl Hn.
  destruct (copy_charset_Ok buf len src n Hb Hl Hn) as (buf' & He).
  rewrite He. cbn [filled].
  apply copy_charset_result in He as (_ & _ & Ht); try assumption.
  rewrite Ht. unfold append_capped. f_equal. f_equal.
  rewrite length_take, take_take. f_equal. lia.
Qed.

Lemma add_if_fits_refines buf len src n :
  length buf = 256%nat -> 0 <= len <= 256 -> n = Z.of_nat (length src) ->
  exists buf' len',
    add_if_fits (buf, len) src n = Ok (buf', len')
    /\ length buf' = 256%nat /\ len <= len' <= 256
    /\ take (Z.to_nat len') buf' = append_whole (take (Z.to_nat len) buf) src.
Proof.
  intros Hb Hl ->.
  assert (Hex : exists st, add_if_fits (buf, len) src (Z.of_nat (length src)) = Ok st).
  { unfold add_if_fits, CS_CUSTOM_MAX.
    destruct (Z.leb_spec (len + Z.of_nat (length src)) 256); [|eauto].
    rewrite memcpy_Ok by lia. cbn. eauto. }
  destruct Hex as ([buf' len'] & He). exists buf', len'.
  split; [assumption|].
  apply add_if_fits_result in He as (Hb' & Hv & Ht); [|assumption|lia|lia].
  split; [assumption|].
  unfold append_whole. rewrite length_take.
  destruct (Z.leb_spec (len + Z.of_nat (length src)) 256) as [Hfit|Hno].
  - split; [lia|]. rewrite Ht. subst len'.
    replace (Z.to_nat (len + Z.of_nat (length src) - len)) with (length src) by lia.
    rewrite firstn_all.
    destruct (Nat.leb_spec (Z.to_nat len `min` length buf + length src) 256); [reflexivity|lia].
  - split; [lia|]. subst len'. rewrite Ht, Z.sub_diag, app_nil_r.
    destruct (Nat.leb_spec (Z.to_nat len `min` length buf + length src) 256); [lia|reflexivity].
Qed.

Lemma slot_defined_Some ctx j :
  registry_ok ctx -> (j < 4)%nat ->
  cs_custom_defined ctx !! j = Some (slot_defined ctx j).
Proof.
  intros (_ & _ & H3 & _) Hj. unfold slot_defined.
  destruct (lookup_lt_is_Some_2 (cs_custom_defined ctx) j ltac:(lia)) as [d Hd].
  rewrite Hd. now destruct d.
Qed.

(** One escape of the definition adds to the buffer what [expand_escape]
    appends to the sequence. *)
Lemma cs_expand_refines ctx k spec buf len :
  registry_ok ctx -> length buf = 256%nat -> 0 <= len < 256 ->
  filled (cs_expand ctx k spec buf len)
  = expand_escape ctx k spec (take (Z.to_nat len) buf).
Proof.
  intros Hreg Hb Hl. unfold cs_expand, expand_escape, builtin_set.
  assert (Hcopy : forall src n, n = Z.of_nat (length src) -> 0 < n ->
            filled (copy_charset buf len src false n)
            = Ok (append_capped (take (Z.to_nat len) buf) src)).
  { intros src n -> Hn. rewrite copy_charset_refines by lia.
    now rewrite Nat2Z.id, firstn_all. }
  destruct (spec =? "l")%char; [now apply Hcopy|].
  destruct (spec =? "u")%char; [now apply Hcopy|].
  destruct (spec =? "d")%char; [now apply Hcopy|].
  destruct (spec =? "s")%char; [now apply Hcopy|].
  destruct (spec =? "h")%char; [now apply Hcopy|].
  destruct (spec =? "H")%char; [now apply Hcopy|].
  destruct (spec =? "b")%char; [now apply Hcopy|].
  destruct (spec =? "a")%char.
  { destruct (add_if_fits_refines buf len CHARSET_LOWER CS_LOWER_LEN Hb
                ltac:(lia) eq_refl) as (b1 & l1 & E1 & B1 & R1 & T1).
    destruct (add_if_fits_refines b1 l1 CHARSET_UPPER CS_UPPER_LEN B1
                ltac:(lia) eq_refl) as (b2 & l2 & E2 & B2 & R2 & T2).
    destruct (add_if_fits_refines b2 l2 CHARSET_DIGIT CS_DIGIT_LEN B2
                ltac:(lia) eq_refl) as (b3 & l3 & E3 & B3 & R3 & T3).
    destruct (add_if_fits_refines b3 l3 CHARSET_SPECIAL CS_SPECIAL_LEN B3
                ltac:(lia) eq_refl) as (b4 & l4 & E4 & B4 & R4 & T4).
    rewrite E1. cbn [mbind outcome_bind]. rewrite E2. cbn [mbind outcome_bind].
    rewrite E3. cbn [mbind outcome_bind]. rewrite E4. cbn [filled].
    now rewrite T4, T3, T2, T1. }
  destruct ((49 <=? char_code spec) && (char_code spec <=? 52)) eqn:Hrange.
  { apply andb_true_iff in Hrange as (Hlo & Hhi).
    apply Z.leb_le in Hlo, Hhi.
    set (j := Z.to_nat (char_code spec - 49)).
    assert (Hj : (j < 4)%nat) by lia.
    rewrite (rd_nat _ _ _ (slot_defined_Some ctx j Hreg Hj)).
    cbn [mbind outcome_bind].
    destruct (slot_defined ctx j) eqn:Hd; cbn [negb]; [|reflexivity].
    unfold slot_defined in Hd.
    destruct (cs_custom_defined ctx !! j) as [[|]|] eqn:Hdj; try discriminate.
    destruct (registry_slot _ _ Hreg Hdj) as (sb & sl & Hsb & Hsbl & Hsl & Hslr).
    rewrite (rd_nat _ _ _ Hsl). cbn [mbind outcome_bind].
    assert (Hslen : slot_len ctx j = Z.to_nat sl) by (unfold slot_len; now rewrite Hsl).
    destruct (Nat.eqb j k).
    - rewrite Hslen, length_take, Hb.
      unfold copy_charset, CS_CUSTOM_MAX.
      replace (0 <? sl) with true by (symmetry; apply Z.ltb_lt; lia).
      cbn [andb].
      set (copy_len := if len + sl <=? 256 then sl else 256 - len).
      assert (Hcl : Z.to_nat copy_len = (Z.to_nat sl `min` (256 - Z.to_nat len `min` 256))%nat)
        by (unfold copy_len; destruct (Z.leb_spec (len + sl) 256); lia).
      rewrite <- Hcl.
      destruct (Z.ltb_spec len copy_len) as [Hov|Hno].
      + destruct (Nat.ltb_spec (Z.to_nat len `min` 256) (Z.to_nat copy_len)); [reflexivity|lia].
      + destruct (Nat.ltb_spec (Z.to_nat len `min` 256) (Z.to_nat copy_len)); [lia|].
        assert (0 <= copy_len) by (unfold copy_len; destruct (Z.leb_spec (len + sl) 256); lia).
        rewrite memcpy_Ok by lia. cbn [mbind outcome_bind filled].
        f_equal. rewrite app_assoc, take_app_length'.
        * f_equal. rewrite take_take. f_equal. lia.
        * rewrite length_app, !length_take. lia.
    - rewrite (rd_nat _ _ _ Hsb). cbn [mbind outcome_bind].
      rewrite copy_charset_refines by lia.
      unfold slot_bytes. now rewrite Hsb, Hslen. }
  destruct (spec =? "?")%char; [|reflexivity].
  unfold CS_CUSTOM_MAX.
  destruct (Z.ltb_spec len 256); [|lia]. cbn [filled].
  replace (Z.to_nat (len + 1)) with (S (Z.to_nat len)) by lia.
  now rewrite take_insert_end by lia.
Qed.

(** The scan loop computes the expansion of the definition. *)
Lemma cs_scan_refines ctx k :
  registry_ok ctx ->
  forall n cs_def buf len,
    (length cs_def <= n)%nat -> length buf = 256%nat -> 0 <= len <= 256 ->
    filled (cs_scan ctx k cs_def buf len)
    = expansion ctx k cs_def (take (Z.to_nat len) buf).
Proof.
  intros Hreg. induction n as [|n IH]; intros cs_def buf len Hn Hb Hl.
  - destruct cs_def; [reflexivity | simpl in Hn; lia].
  - destruct cs_def as [|c rest]; [reflexivity|].
    cbn [cs_scan expansion]. rewrite length_take, Hb. unfold CS_CUSTOM_MAX.
    destruct (Z.ltb_spec len 256) as [Hlt|Hge]; cbn [negb].
    2:{ destruct (Nat.leb_spec 256 (Z.to_nat len `min` 256)); [reflexivity|lia]. }
    destruct (Nat.leb_spec 256 (Z.to_nat len `min` 256)); [lia|].
    destruct (c =? "?")%char.
    + destruct rest as [|spec rest']; [reflexivity|]. simpl in Hn.
      rewrite <- (cs_expand_refines ctx k spec buf len Hreg Hb ltac:(lia)).
      destruct (cs_expand ctx k spec buf len) as [[b1 l1]| |] eqn:He;
        [|reflexivity|reflexivity].
      apply cs_expand_inv in He as (Hb1 & Hl1 & _); try assumption; try lia.
      cbn [mbind outcome_bind filled fst snd].
      apply IH; [lia | assumption | lia].
    + simpl in Hn.
      rewrite IH by (rewrite ?length_insert; lia).
      replace (Z.to_nat (len + 1)) with (S (Z.to_nat len)) by lia.
      now rewrite take_insert_end by lia.
Qed.

Lemma expansion_full ctx k cs_def acc :
  (256 <= length acc)%nat -> expansion ctx k cs_def acc = Ok acc.
Proof.
  intros H. destruct cs_def; [reflexivity|]. cbn [expansion].
  destruct (Nat.leb_spec 256 (length acc)); [reflexivity | lia].
Qed.

(** The expansion of a definition continues the expansion of any of its
    prefixes that ends between two escapes. *)
Lemma expansion_app ctx k :
  forall n pre rest acc,
    (length pre <= n)%nat -> aligned pre = true ->
    expansion ctx k (pre ++ rest) acc
    = (acc' ← expansion ctx k pre acc; expansion ctx k rest acc').
Proof.
  induction n as [|n IH]; intros pre rest acc Hn Hal.
  - destruct pre; [reflexivity | simpl in Hn; lia].
  - destruct pre as [|c pre]; [reflexivity|].
    cbn [expansion app aligned] in *.
    destruct (Nat.leb_spec 256 (length acc)) as [Hfull|Hroom].
    { cbn [mbind outcome_bind]. now rewrite expansion_full. }
    destruct (c =? "?")%char.
    + destruct pre as [|spec pre']; [discriminate|]. simpl in Hn.
      cbn [app].
      destruct (expand_escape ctx k spec acc) as [acc1| |]; try reflexivity.
      cbn [mbind outcome_bind]. apply IH; [lia | assumption].
    + simpl in Hn. apply IH; [lia | assumption].
Qed.

Lemma expand_escape_unknown ctx k spec acc :
  cs_specifier spec = false ->
  expand_escape ctx k spec acc = Err CharsetSpecifierInvalid.
Proof.
  unfold cs_specifier, expand_escape.
  destruct (builtin_set spec); [discriminate|].
  intros H. apply orb_false_iff in H as (H & ->).
  apply orb_false_iff in H as (-> & ->). reflexivity.
Qed.

Lemma expand_escape_undefined ctx k spec acc :
  49 <= char_code spec <= 52 ->
  slot_defined ctx (Z.to_nat (char_code spec - 49)) = false ->
  expand_escape ctx k spec acc = Err UndefinedReference.
Proof.
  intros Hr Hu. unfold expand_escape.
  assert (Hne : forall c, (char_code c <? 49) || (52 <? char_code c) = true ->
                 (spec =? c)%char = false).
  { intros c Hc. destruct (Ascii.eqb_spec spec c) as [->|_]; [|reflexivity].
    apply orb_true_iff in Hc as [Hc|Hc]; apply Z.ltb_lt in Hc; lia. }
  unfold builtin_set. rewrite !Hne by reflexivity.
  replace (49 <=? char_code spec) with true by (symmetry; apply Z.leb_le; lia).
  replace (char_code spec <=? 52) with true by (symmetry; apply Z.leb_le; lia).
  cbn [andb]. now rewrite Hu.
Qed.

(** The definition of a slot stores the expansion of its definition. *)
Lemma parse_custom_charset_refines ctx cs_idx cs_def :
  registry_ok ctx -> 0 <= cs_idx < 4 ->
  match expansion ctx (Z.to_nat cs_idx) cs_def [] with
  | Ok bytes =>
    (length bytes <= 256)%nat /\ (bytes = [] <-> cs_def = [])
    /\ (cs_def = [] -> parse_custom_charset ctx cs_idx cs_def = Err EmptyCharset)
    /\ (cs_def <> [] ->
        exists ctx', parse_custom_charset ctx cs_idx cs_def = Ok ctx'
                     /\ slot_defined ctx' (Z.to_nat cs_idx) = true
                     /\ slot_bytes ctx' (Z.to_nat cs_idx) = bytes
                     /\ registry_ok ctx')
  | Err e => parse_custom_charset ctx cs_idx cs_def = Err e
  | Undefined => parse_custom_charset ctx cs_idx cs_def = Undefined
  end.
Proof.
  intros Hreg Hidx.
  pose proof Hreg as (R1 & R2 & R3 & R4 & R5).
  destruct (lookup_lt_is_Some_2 (cs_custom ctx) (Z.to_nat cs_idx) ltac:(lia))
    as [cs_buf Hbuf].
  pose proof (proj1 (Forall_lookup _ _) R4 _ _ Hbuf) as Hbl.
  pose proof (cs_scan_refines ctx (Z.to_nat cs_idx) Hreg (length cs_def) cs_def
                cs_buf 0 ltac:(lia) Hbl ltac:(lia)) as Href.
  change (take (Z.to_nat 0) cs_buf) with (@nil byte) in Href.
  rewrite <- Href.
  unfold parse_custom_charset, CUSTOM_CHARSET_COUNT.
  destruct (Z.ltb_spec cs_idx 0) as [Hneg|_]; [lia|].
  destruct (Z.leb_spec 4 cs_idx) as [Hbig|_]; [lia|]. cbn [orb].
  assert (Hrd : rd (cs_custom ctx) cs_idx = Ok cs_buf)
    by (apply rd_Ok; split; [lia | assumption]).
  rewrite Hrd. cbn [mbind outcome_bind].
  destruct (cs_scan ctx (Z.to_nat cs_idx) cs_def cs_buf 0) as [[buf len]| |] eqn:Hscan;
    cbn [filled mbind outcome_bind fst snd]; [|reflexivity|reflexivity].
  pose proof Hscan as Hinv.
  apply (cs_scan_inv ctx _ Hreg (length cs_def)) in Hinv as (Hb & Hl & Hp);
    [|lia|assumption|lia].
  assert (Hlen : length (take (Z.to_nat len) buf) = Z.to_nat len)
    by (rewrite length_take; lia).
  assert (Hempty : take (Z.to_nat len) buf = [] <-> cs_def = []).
  { split.
    - intros Hnil. rewrite Hnil in Hlen. simpl in Hlen.
      destruct cs_def; [reflexivity|].
      assert (0 < len) by (apply Hp; [reflexivity | discriminate]). lia.
    - intros ->. simpl in Hscan. inversion Hscan; subst. reflexivity. }
  split; [lia|]. split; [assumption|]. split.
  - intros ->. simpl in Hscan. inversion Hscan; subst. reflexivity.
  - intros Hne.
    assert (0 < len).
    { apply Hp; [reflexivity | assumption]. }
    destruct (Z.eqb_spec len 0) as [Hz|_]; [lia|].
    eexists. split; [reflexivity|].
    split; [|split].
    + unfold slot_defined. cbn [cs_custom_defined].
      now rewrite list_lookup_insert_eq by lia.
    + unfold slot_bytes, slot_len. cbn [cs_custom cs_custom_len].
      now rewrite !list_lookup_insert_eq by lia.
    + apply (parse_custom_charset_registry_ok ctx cs_idx cs_def); [assumption|].
      unfold parse_custom_charset, CUSTOM_CHARSET_COUNT.
      destruct (Z.ltb_spec cs_idx 0) as [Hneg|_]; [lia|].
      destruct (Z.leb_spec 4 cs_idx) as [Hbig|_]; [lia|]. cbn [orb].
      rewrite Hrd. cbn [mbind outcome_bind]. rewrite Hscan.
      cbn [mbind outcome_bind fst snd].
      destruct (Z.eqb_spec len 0) as [Hz|_]; [lia|]. reflexivity.
Qed.

(** C8 (as amended): the definition of a custom slot stores the expansion
    of its definition string, built left to right and never longer than 256
    bytes: a single built-in set or another defined slot adds as many of its
    bytes as fit, each of the four parts of [?a] is added whole or not at
    all, and once 256 bytes are there the rest of the definition is not
    read. It fails on a reference to an undefined slot or an unknown
    specifier met before 256 bytes are there, and on the empty definition.
    Slot 1 defined as ["?l?d"] holds the 26 lowercase letters followed by
    the 10 digits, and pattern ["?1?W"] over the word list ["x"] then has a
    keyspace of 36 and yields these 36 bytes, each followed by x. *)
Theorem custom_charset_definition ctx cs_idx cs_def :
  registry_ok ctx -> 0 <= cs_idx < 4 ->
  let k := Z.to_nat cs_idx in
  let result := parse_custom_charset ctx cs_idx cs_def in
  match expansion ctx k cs_def [] with
  | Ok bytes =>
    (length bytes <= 256)%nat /\ (bytes = [] <-> cs_def = [])
    /\ (cs_def = [] -> result = Err EmptyCharset)
    /\ (cs_def <> [] ->
        exists ctx', result = Ok ctx'
                     /\ slot_defined ctx' k = true
                     /\ slot_bytes ctx' k = bytes
                     /\ registry_ok ctx')
  | Err e => result = Err e
  | Undefined => result = Undefined
  end
  /\ (forall pre spec rest acc,
        cs_def = pre ++ "?"%char :: spec :: rest ->
        aligned pre = true -> expansion ctx k pre [] = Ok acc ->
        (length acc < 256)%nat ->
        (cs_specifier spec = false -> result = Err CharsetSpecifierInvalid)
        /\ (49 <= char_code spec <= 52 ->
            slot_defined ctx (Z.to_nat (char_code spec - 49)) = false ->
            result = Err UndefinedReference))
  /\ (forall pre rest acc,
        cs_def = pre ++ rest ->
        aligned pre = true -> expansion ctx k pre [] = Ok acc ->
        length acc = 256%nat ->
        exists ctx', result = Ok ctx' /\ slot_bytes ctx' k = acc)
  /\ (exists ctx1,
        parse_custom_charset init_charsets 0 (list_ascii_of_string "?l?d") = Ok ctx1
        /\ slot_bytes ctx1 0 = CHARSET_LOWER ++ CHARSET_DIGIT
        /\ length (slot_bytes ctx1 0) = 36%nat)
  /\ (exists ctx2,
        parse_custom_charset init_charsets 0 (list_ascii_of_string "x?b") = Ok ctx2
        /\ slot_bytes ctx2 0 = "x"%char :: take 255 CHARSET_BINARY)
  /\ (exists ctx0 ctx' t0 tn,
        global_init (map list_ascii_of_string
                       ["feed_pattern_dict.so"; "-1"; "?l?d"; "?1?W"; "words.txt"]%string)
        = Ok ctx0
        /\ global_keyspace ctx0 ["x"%char] = Ok ctx'
        /\ total_keyspace ctx' = 36
        /\ thread_init ctx' ["x"%char] = Ok t0
        /\ next_calls 256 37 ctx' t0
           = Ok (map (fun c => (2, [c; "x"%char])) (CHARSET_LOWER ++ CHARSET_DIGIT)
                 ++ [(0, [])], tn)).
Proof.
  intros Hreg Hidx k result.
  pose proof (parse_custom_charset_refines ctx cs_idx cs_def Hreg Hidx) as Href.
  fold k in Href. fold result in Href.
  split; [exact Href|]. split; [|split].
  - intros pre spec rest acc -> Hal Hpre Hroom.
    rewrite (expansion_app ctx k (length pre) pre _ [] (le_n _) Hal), Hpre in Href.
    cbn [mbind outcome_bind expansion] in Href.
    destruct (Nat.leb_spec 256 (length acc)); [lia|].
    change ("?" =? "?")%char with true in Href. cbv iota in Href.
    split.
    + intros Hu. now rewrite (expand_escape_unknown ctx k spec acc Hu) in Href.
    + intros Hr Hu. now rewrite (expand_escape_undefined ctx k spec acc Hr Hu) in Href.
  - intros pre rest acc -> Hal Hpre Hfull.
    rewrite (expansion_app ctx k (length pre) pre _ [] (le_n _) Hal), Hpre in Href.
    cbn [mbind outcome_bind] in Href.
    rewrite expansion_full in Href by lia.
    destruct Href as (_ & _ & _ & Hok).
    destruct Hok as (ctx' & Hr & _ & Hb & _).
    + intros Hnil. apply app_eq_nil in Hnil as (-> & _).
      simpl in Hpre. inversion Hpre; subst acc. discriminate.
    + eauto.
  - split; [|split].
    + eexists. split; [vm_compute; reflexivity|]. split; vm_compute; reflexivity.
    + eexists. split; [vm_compute; reflexivity|]. vm_compute; reflexivity.
    + do 4 eexists.
      split; [vm_compute; reflexivity|].
      split; [vm_compute; reflexivity|].
      split; [vm_compute; reflexivity|].
      split; [vm_compute; reflexivity|].
      vm_compute; reflexivity.
Qed.

Lemma custom_charset_definition_witness :
  registry_ok init_charsets /\ 0 <= 0 < 4
  /\ exists ctx', parse_custom_charset init_charsets 0 (list_ascii_of_string "?l?d")
                  = Ok ctx'
                  /\ slot_bytes ctx' 0 = CHARSET_LOWER ++ CHARSET_DIGIT.
Proof.
  split; [exact init_charsets_registry_ok|]. split; [lia|].
  pose proof (custom_charset_definition init_charsets 0 (list_ascii_of_string "?l?d")
                init_charsets_registry_ok ltac:(lia)) as (H & _).
  destruct H as (_ & _ & _ & (ctx' & Hr & _ & Hb & _)); [discriminate|].
  exists ctx'. split; [exact Hr | exact Hb].
Defined.

(** A definition with an unknown specifier, or with a reference to an
    undefined slot, after 256 bytes are there is accepted; and [?a] met with
    14 bytes of room adds the 10 digits, not the first 14 letters. *)
Lemma specifier_after_cap_accepted :
  cs_specifier "x" = false
  /\ (exists ctx',
        parse_custom_charset init_charsets 0 (list_ascii_of_string "?b?x") = Ok ctx'
        /\ slot_bytes ctx' 0 = CHARSET_BINARY)
  /\ slot_defined init_charsets 1 = false
  /\ (exists ctx',
        parse_custom_charset init_charsets 0 (list_ascii_of_string "?b?2") = Ok ctx'
        /\ slot_bytes ctx' 0 = CHARSET_BINARY)
  /\ (exists ctx',
        parse_custom_charset init_charsets 0 (list_ascii_of_string "?a?a?l?l?a")
        = Ok ctx'
        /\ slot_bytes ctx' 0
           = CHARSET_ALL ++ CHARSET_ALL ++ CHARSET_LOWER ++ CHARSET_LOWER
             ++ CHARSET_DIGIT
        /\ length (slot_bytes ctx' 0) = 252%nat).
Proof.
  split; [reflexivity|]. split.
  { eexists. split; vm_compute; reflexivity. }
  split; [reflexivity|]. split.
  { eexists. split; vm_compute; reflexivity. }
  eexists. split; [vm_compute; reflexivity|]. split; vm_compute; reflexivity.
Qed.

(** * Worked instances *)

(** ** A small run: pattern [?d?W] over the words [ab] and [cd] *)

Lemma example_engine : engine example_workv example_file example_ctx.
Proof.
  exists example_ctx0.
  split; [reflexivity|]. split; [vm_compute; discriminate | reflexivity].
Defined.

Lemma thread_seek_spec_witness :
  is_u64 13
  /\ thread_seek example_ctx example_thread 13
     = (true, None,
        mkThread (fd_mem example_thread) (fd_len example_thread) 1 3 13
          (index_to_mask_indices example_ctx 3 (mask_indices example_thread))).
Proof.
  assert (H13 : is_u64 13) by (unfold is_u64; lia).
  split; [exact H13|].
  pose proof (thread_seek_spec example_ctx example_thread 13 H13) as Hs.
  destruct (thread_seek example_ctx example_thread 13) as [[ret err] tctx'].
  destruct Hs as (_ & _ & Hs).
  destruct (Hs ltac:(vm_compute; reflexivity))
    as (-> & -> & Hw & Hm & Ho & Hd & Hf & Hl & _).
  destruct tctx'. cbn in Hw, Hm, Ho, Hd, Hf, Hl. subst.
  reflexivity.
Defined.

Lemma keyspace_saturates_witness :
  global_init example_workv = Ok example_ctx0
  /\ calculate_mask_keyspace example_ctx0 = 10
  /\ total_keyspace example_ctx = 20.
Proof.
  assert (Hinit : global_init example_workv = Ok example_ctx0) by reflexivity.
  split; [exact Hinit|].
  destruct (keyspace_saturates example_workv example_ctx0 Hinit) as (Hmk & _ & Htot).
  split.
  - rewrite Hmk; [reflexivity | vm_compute; discriminate].
  - destruct (Htot example_file example_ctx eq_refl) as (_ & Ht & _).
    rewrite Ht; [reflexivity | vm_compute; discriminate].
Defined.

Lemma index_to_digits_bijection_witness :
  global_init example_workv = Ok example_ctx0
  /\ mask_product (positions example_ctx0) <= UINT64_MAX
  /\ digits_to_index (positions example_ctx0)
       (index_to_digits (positions example_ctx0) 7) = 7.
Proof.
  assert (Hinit : global_init example_workv = Ok example_ctx0) by reflexivity.
  assert (Hfit : mask_product (positions example_ctx0) <= UINT64_MAX)
    by (vm_compute; discriminate).
  split; [exact Hinit|]. split; [exact Hfit|].
  destruct (index_to_digits_bijection example_workv example_ctx0 Hinit)
    as (_ & _ & Hbij).
  destruct (Hbij Hfit) as (Hround & _).
  apply Hround. split; [lia | vm_compute; reflexivity].
Defined.

Lemma thread_seek_in_bounds_witness :
  is_u64 13 /\ is_u64 (word_count example_ctx)
  /\ is_u64 (mask_keyspace example_ctx)
  /\ 13 < total_keyspace example_ctx
  /\ 0 <= current_word_idx (seek_state example_ctx example_thread 13)
     < word_count example_ctx.
Proof.
  assert (H13 : is_u64 13) by (unfold is_u64; lia).
  assert (Hwc : is_u64 (word_count example_ctx))
    by (split; [vm_compute; discriminate | vm_compute; reflexivity]).
  assert (Hmk : is_u64 (mask_keyspace example_ctx))
    by (split; [vm_compute; discriminate | vm_compute; reflexivity]).
  assert (Hacc : 13 < total_keyspace example_ctx) by (vm_compute; reflexivity).
  split; [exact H13|]. split; [exact Hwc|]. split; [exact Hmk|].
  split; [exact Hacc|].
  pose proof (thread_seek_in_bounds example_ctx example_thread 13
                H13 Hwc Hmk eq_refl Hacc) as Hs.
  unfold seek_state.
  destruct (thread_seek example_ctx example_thread 13) as [[ret err] tctx'].
  destruct Hs as (_ & Hs & _). exact Hs.
Defined.

Lemma word_index_entries_witness :
  Z.of_nat (length example_file) <= SIZE_MAX
  /\ exists ctx',
       build_word_index example_ctx0 example_file = Ok ctx'
       /\ word_offsets ctx' = [0; 3] /\ word_lengths ctx' = [2; 2].
Proof.
  assert (Hsize : Z.of_nat (length example_file) <= SIZE_MAX)
    by (vm_compute; discriminate).
  split; [exact Hsize|].
  destruct (word_index_entries example_ctx0 example_file Hsize)
    as (_ & _ & _ & _ & Hok).
  destruct Hok as (ctx' & Hb & _ & _ & _ & Ho & Hl).
  - split; [vm_compute; reflexivity | vm_compute; discriminate].
  - exists ctx'. split; [exact Hb|]. split; [exact Ho | exact Hl].
Defined.

Lemma digits_below_charset_size_witness :
  engine example_workv example_file example_ctx
  /\ cursor_reachable 256 example_ctx example_file example_thread
  /\ exists d, mask_indices example_thread !! 0%nat = Some d /\ 0 <= d < 10.
Proof.
  assert (Hreach : cursor_reachable 256 example_ctx example_file example_thread)
    by (apply reach_init; reflexivity).
  split; [exact example_engine|]. split; [exact Hreach|].
  destruct (digits_below_charset_size 256 example_workv example_file example_ctx
              example_thread example_engine Hreach 0%nat
              (mkPos POS_DIGIT (ascii_of_nat 0) 10 PtrDigit) eq_refl)
    as (d & Hd & Hr & _).
  - vm_compute. auto.
  - exists d. split; [exact Hd | exact Hr].
Defined.


Lemma word_placeholder_rule_witness :
  registry_ok init_charsets
  /\ parse_pattern init_charsets (list_ascii_of_string "?d") = Err WordPlaceholderMissing
  /\ parse_pattern init_charsets (list_ascii_of_string "?W?d?W")
     = Err WordPlaceholderDuplicated
  /\ parse_pattern init_charsets (list_ascii_of_string "?W?W?x")
     = Err WordPlaceholderDuplicated.
Proof.
  split; [exact init_charsets_registry_ok|].
  destruct (word_placeholder_rule init_charsets init_charsets_registry_ok)
    as (_ & Hmiss & Hsecond & _ & Hdup & _).
  split; [|split].
  - apply (Hmiss (list_ascii_of_string "?d")). split; reflexivity.
  - apply (Hdup (list_ascii_of_string "?W?d?W")); [reflexivity | vm_compute; lia].
  - apply (Hsecond (list_ascii_of_string "?W?W?x")).
    exists (list_ascii_of_string "?W"), (list_ascii_of_string "?x").
    repeat split; reflexivity.
Defined.

(** * Further properties *)

(** ** Pattern compiler: layout and length *)

Lemma count_prefix_suffix_spec (n : nat) (wp : Z) :
  0 <= wp -> Z.of_nat n < 2 ^ 32 ->
  count_prefix_suffix (Z.of_nat n) wp
  = (Z.min (Z.of_nat n) wp, Z.max 0 (Z.of_nat n - 1 - wp)).
Proof.
  intros Hwp. unfold count_prefix_suffix.
  induction n as [|n IH]; intros Hn.
  { rewrite Z.min_l, Z.max_l by lia. reflexivity. }
  rewrite seqZ_S, fold_left_app, IH by lia. cbn [fold_left fst snd].
  rewrite Z.add_0_l.
  destruct (Z.ltb_spec (Z.of_nat n) wp) as [Hlt|Hge].
  - unfold wrap32. rewrite Z.mod_small by lia. f_equal; lia.
  - destruct (Z.ltb_spec wp (Z.of_nat n)) as [Hgt|Heq].
    + unfold wrap32. rewrite Z.mod_small by lia. f_equal; lia.
    + f_equal; lia.
Qed.

Lemma custom_position_defined_or_error ctx k t :
  registry_ok ctx -> (k < 4)%nat -> custom_position ctx k t <> Undefined.
Proof.
  intros Hreg Hk. pose proof Hreg as (R1 & R2 & R3 & _).
  unfold custom_position.
  destruct (lookup_lt_is_Some_2 (cs_custom_defined ctx) k ltac:(lia)) as [d Hd].
  destruct (lookup_lt_is_Some_2 (cs_custom_len ctx) k ltac:(lia)) as [l Hl].
  rewrite (rd_nat _ _ _ Hd). cbn [mbind outcome_bind].
  destruct d; cbn [negb]; [|discriminate].
  rewrite (rd_nat _ _ _ Hl). discriminate.
Qed.

Lemma pattern_escape_defined_or_error ctx spec num wp found :
  registry_ok ctx -> pattern_escape ctx spec num wp found <> Undefined.
Proof.
  intros Hreg. unfold pattern_escape.
  do 8 (case_if; [discriminate|]).
  do 4 (case_if;
        [match goal with
         | |- context [custom_position ctx ?k ?t] =>
           pose proof (custom_position_defined_or_error ctx k t Hreg ltac:(lia));
           destruct (custom_position ctx k t); [discriminate|discriminate|congruence]
         end|]).
  case_if; [destruct found; discriminate|].
  case_if; discriminate.
Qed.

(** A scan that ends well has added one position for each token, and has
    never held more than 32; a scan never leaves defined behaviour. *)
Lemma pattern_scan_tokens ctx :
  registry_ok ctx ->
  forall n pattern ps wp found,
    (length pattern <= n)%nat ->
    match pattern_scan ctx pattern ps wp found with
    | Ok r =>
      length r.1.1 = (length ps + pattern_tokens pattern)%nat
      /\ (pattern <> [] -> length r.1.1 <= 32)%nat
    | Err _ => True
    | Undefined => False
    end.
Proof.
  intros Hreg. induction n as [|n IH]; intros pattern ps wp found Hn.
  - destruct pattern; [|simpl in Hn; lia]. simpl. split; [lia | congruence].
  - destruct pattern as [|c rest]; [simpl; split; [lia | congruence]|].
    cbn [pattern_scan pattern_tokens]. unfold PATTERN_MAX_POSITIONS.
    destruct (Z.leb_spec 32 (Z.of_nat (length ps))) as [|Hroom]; [exact I|].
    destruct (c =? "?")%char.
    + destruct rest as [|spec rest']; [exact I|]. simpl in Hn.
      pose proof (pattern_escape_defined_or_error ctx spec (Z.of_nat (length ps))
                    wp found Hreg) as Hdef.
      destruct (pattern_escape ctx spec (Z.of_nat (length ps)) wp found)
        as [[[p wp1] f1]| |]; [|exact I|congruence].
      cbn [mbind outcome_bind fst snd].
      specialize (IH rest' (ps ++ [p]) wp1 f1 ltac:(lia)).
      destruct (pattern_scan ctx rest' (ps ++ [p]) wp1 f1) as [r| |]; try exact IH.
      destruct IH as (IH1 & IH2). rewrite length_app in IH1. cbn [length] in IH1.
      split; [lia|]. intros _.
      destruct rest' as [|c' rest'']; [|apply IH2; discriminate].
      simpl in IH1. lia.
    + simpl in Hn.
      specialize (IH rest (ps ++ [mkPos POS_LITERAL c 1 PtrLiteral]) wp found ltac:(lia)).
      destruct (pattern_scan ctx rest _ wp found) as [r| |]; try exact IH.
      destruct IH as (IH1 & IH2). rewrite length_app in IH1. cbn [length] in IH1.
      split; [lia|]. intros _.
      destruct rest as [|c' rest'']; [|apply IH2; discriminate].
      simpl in IH1. lia.
Qed.

Lemma pattern_tokens_length : forall n pattern,
  (length pattern <= n)%nat -> (length pattern <= 2 * pattern_tokens pattern)%nat.
Proof.
  induction n as [|n IH]; intros pattern Hn.
  - destruct pattern; [simpl; lia | simpl in Hn; lia].
  - destruct pattern as [|c rest]; [simpl; lia|].
    cbn [pattern_tokens]. destruct (c =? "?")%char.
    + destruct rest as [|s rest']; [simpl; lia|].
      simpl in Hn. specialize (IH rest' ltac:(lia)). simpl. lia.
    + simpl in Hn. specialize (IH rest ltac:(lia)). simpl. lia.
Qed.

(** X1: a compiled pattern has between 1 and 32 positions, one for each
    token of the pattern; exactly the position at [word_position] is the
    word; [prefix_len] counts the positions before it and [suffix_len] those
    after it. *)
Theorem compiled_pattern_layout ctx pattern ctx' :
  registry_ok ctx ->
  parse_pattern ctx pattern = Ok ctx' ->
  let n := num_positions ctx' in
  n = Z.of_nat (pattern_tokens pattern)
  /\ 1 <= n <= PATTERN_MAX_POSITIONS
  /\ 0 <= word_position ctx' < n
  /\ prefix_len ctx' = word_position ctx'
  /\ suffix_len ctx' = n - 1 - word_position ctx'
  /\ forall (i : nat) p,
       positions ctx' !! i = Some p ->
       (type p = POS_WORD <-> Z.of_nat i = word_position ctx').
Proof.
  intros Hreg H n.
  pose proof (parse_pattern_Ok _ _ _ Hreg H) as ((_ & Hlen & _ & Hw) & _ & _).
  assert (Htok : length (positions ctx') = pattern_tokens pattern
                 /\ prefix_len ctx' = (count_prefix_suffix n (word_position ctx')).1
                 /\ suffix_len ctx' = (count_prefix_suffix n (word_position ctx')).2).
  { unfold parse_pattern in H.
    apply bind_Ok in H as ([[ps wp] found] & Hs & H1).
    pose proof (pattern_scan_tokens ctx Hreg (length pattern) pattern []
                  (wrap32 (-1)) false (le_n _)) as Ht.
    rewrite Hs in Ht. cbn [fst snd length] in Ht.
    destruct found; cbn [negb] in H1; [|discriminate].
    unfold n, num_positions.
    destruct (count_prefix_suffix (Z.of_nat (length ps)) wp) as [pre suf] eqn:Hc.
    inversion H1; subst ctx'; clear H1. cbn. rewrite Hc. cbn.
    split; [lia | split; reflexivity]. }
  destruct Htok as (Htok & Hpre & Hsuf).
  destruct Hw as (pre & w & suf & Hps & Hword & Hnp & Hns & Hwp).
  assert (Hn : n = Z.of_nat (length pre) + 1 + Z.of_nat (length suf)).
  { unfold n, num_positions. rewrite Hps, length_app. cbn [length]. lia. }
  assert (Hn32 : n <= 32) by (unfold n, num_positions; lia).
  unfold n, num_positions in Hpre, Hsuf.
  rewrite count_prefix_suffix_spec in Hpre, Hsuf by lia.
  cbn [fst snd] in Hpre, Hsuf. fold (num_positions ctx') in Hpre, Hsuf. fold n in Hpre, Hsuf.
  unfold PATTERN_MAX_POSITIONS.
  split; [unfold n, num_positions; lia|].
  split; [lia|]. split; [lia|]. split; [lia|]. split; [lia|].
  intros i p Hi. rewrite Hps in Hi.
  assert (Htype : forall q, nonword q -> type q <> POS_WORD).
  { intros q Hq Ht. unfold nonword in Hq. rewrite Ht in Hq. discriminate. }
  destruct (Nat.lt_trichotomy i (length pre)) as [Hlt|[Heq|Hgt]].
  - rewrite lookup_app_l in Hi by assumption.
    pose proof (proj1 (Forall_lookup _ _) Hnp _ _ Hi) as Hq.
    split; [intros Ht; now apply Htype in Hq | lia].
  - subst i. rewrite list_lookup_middle in Hi by reflexivity.
    inversion Hi; subst p. split; [lia|]. intros _.
    destruct (type w); try discriminate. reflexivity.
  - rewrite lookup_app_r in Hi by lia.
    destruct (i - length pre)%nat as [|j] eqn:Hj; [lia|]. cbn in Hi.
    pose proof (proj1 (Forall_lookup _ _) Hns _ _ Hi) as Hq.
    split; [intros Ht; now apply Htype in Hq | lia].
Qed.

(** X2: a pattern that asks for more than 32 positions, and so every
    pattern of more than 64 characters, is rejected. *)
Theorem long_pattern_rejected ctx pattern :
  registry_ok ctx ->
  (32 < pattern_tokens pattern)%nat \/ (64 < length pattern)%nat ->
  exists e, parse_pattern ctx pattern = Err e.
Proof.
  intros Hreg Hlong.
  assert (Htok : (32 < pattern_tokens pattern)%nat).
  { destruct Hlong as [H|H]; [assumption|].
    pose proof (pattern_tokens_length (length pattern) pattern (le_n _)). lia. }
  pose proof (pattern_scan_tokens ctx Hreg (length pattern) pattern []
                (wrap32 (-1)) false (le_n _)) as Ht.
  unfold parse_pattern.
  destruct (pattern_scan ctx pattern [] (wrap32 (-1)) false) as [r|e|];
    [|eauto|contradiction].
  destruct Ht as (Ht1 & Ht2). cbn [length] in Ht1.
  assert (pattern <> []) by (intros ->; simpl in Htok; lia).
  specialize (Ht2 ltac:(assumption)). lia.
Qed.

(** ** Arguments of [global_init] *)

Lemma cs_option_range a k : cs_option a = Some k -> 0 <= k < 4.
Proof.
  unfold cs_option. destruct a as [|c0 [|c1 [|c2 a]]]; try discriminate.
  destruct (c0 =? "-")%char; [|discriminate]. cbn [andb].
  destruct (Z.leb_spec 49 (char_code c1)) as [Hlo|]; [|discriminate].
  destruct (Z.leb_spec (char_code c1) 52) as [Hhi|]; [|discriminate].
  cbn. intros Hk. inversion Hk. lia.
Qed.



Lemma expand_escape_defined ctx k spec acc :
  slot_defined ctx k = false \/ char_code spec <> 49 + Z.of_nat k ->
  expand_escape ctx k spec acc <> Undefined.
Proof.
  intros Hsafe. unfold expand_escape.
  destruct (builtin_set spec); [discriminate|].
  destruct (spec =? "a")%char; [discriminate|].
  destruct ((49 <=? char_code spec) && (char_code spec <=? 52)) eqn:Hr.
  - apply andb_true_iff in Hr as (Hlo & Hhi). apply Z.leb_le in Hlo, Hhi.
    destruct (slot_defined ctx (Z.to_nat (char_code spec - 49))) eqn:Hd;
      cbn [negb]; [|discriminate].
    destruct (Nat.eqb_spec (Z.to_nat (char_code spec - 49)) k) as [Hk|Hk];
      [|discriminate].
    exfalso. destruct Hsafe as [Hu|Hne]; [congruence | lia].
  - destruct (spec =? "?")%char; discriminate.
Qed.

Lemma expansion_defined ctx k : forall n cs_def acc,
  (length cs_def <= n)%nat ->
  slot_defined ctx k = false \/ mentions_slot (Z.of_nat k) cs_def = false ->
  expansion ctx k cs_def acc <> Undefined.
Proof.
  induction n as [|n IH]; intros cs_def acc Hn Hsafe.
  - destruct cs_def; [discriminate | simpl in Hn; lia].
  - destruct cs_def as [|c rest]; [discriminate|].
    cbn [expansion]. destruct (256 <=? length acc)%nat; [discriminate|].
    assert (Hrest : forall l, (exists pre, c :: rest = pre ++ l) ->
              slot_defined ctx k = false \/ mentions_slot (Z.of_nat k) l = false).
    { intros l (pre & Hl). destruct Hsafe as [Hu|Hm]; [now left | right].
      unfold mentions_slot in *. rewrite Hl, existsb_app in Hm.
      now apply orb_false_iff in Hm as (_ & Hm). }
    destruct (c =? "?")%char.
    + destruct rest as [|spec rest']; [discriminate|]. simpl in Hn.
      assert (Hspec : slot_defined ctx k = false
                      \/ char_code spec <> 49 + Z.of_nat k).
      { destruct Hsafe as [Hu|Hm]; [now left | right].
        unfold mentions_slot in Hm. cbn [existsb] in Hm.
        apply orb_false_iff in Hm as (_ & Hm).
        apply orb_false_iff in Hm as (Hm & _). now apply Z.eqb_neq in Hm. }
      pose proof (expand_escape_defined ctx k spec acc Hspec) as He.
      destruct (expand_escape ctx k spec acc) as [acc'| |];
        [|discriminate|congruence].
      cbn [mbind outcome_bind].
      apply IH; [lia|]. apply Hrest. now exists [c; spec].
    + simpl in Hn. apply IH; [lia|]. apply Hrest. now exists [c].
Qed.

Lemma parse_custom_charset_defined ctx cs_idx cs_def :
  registry_ok ctx -> 0 <= cs_idx < 4 ->
  slot_defined ctx (Z.to_nat cs_idx) = false
  \/ mentions_slot cs_idx cs_def = false ->
  parse_custom_charset ctx cs_idx cs_def <> Undefined.
Proof.
  intros Hreg Hidx Hsafe.
  pose proof (parse_custom_charset_refines ctx cs_idx cs_def Hreg Hidx) as Href.
  pose proof (expansion_defined ctx (Z.to_nat cs_idx) (length cs_def) cs_def []
                (le_n _)) as Hdef.
  rewrite Z2Nat.id in Hdef by lia. specialize (Hdef Hsafe).
  destruct (expansion ctx (Z.to_nat cs_idx) cs_def []) as [bytes|e|];
    [|congruence|congruence].
  destruct Href as (_ & _ & Hnil & Hok).
  destruct cs_def as [|c cs_def'].
  - rewrite Hnil by reflexivity. discriminate.
  - destruct Hok as (ctx' & -> & _); discriminate.
Qed.

Lemma parse_options_defined : forall n args ctx seen,
  (length args <= n)%nat -> registry_ok ctx ->
  (forall j, slot_defined ctx j = true -> existsb (Z.eqb (Z.of_nat j)) seen = true) ->
  options_safe seen args = true ->
  parse_options ctx args <> Undefined
  /\ forall ctx' rest, parse_options ctx args = Ok (ctx', rest) -> registry_ok ctx'.
Proof.
  induction n as [|n IH]; intros args ctx seen Hn Hreg Hseen Hsafe.
  - destruct args; [|simpl in Hn; lia]. simpl. split; [discriminate|].
    intros ctx' rest H. now inversion H; subst.
  - destruct args as [|a args].
    { simpl. split; [discriminate|]. intros ctx' rest H. now inversion H; subst. }
    cbn [parse_options options_safe] in *.
    destruct (cs_option a) as [k|] eqn:Ha.
    2:{ split; [discriminate|]. intros ctx' rest H. now inversion H; subst. }
    destruct args as [|cs_def args'].
    { split; [discriminate|]. intros ctx' rest H. discriminate. }
    apply andb_true_iff in Hsafe as (Hpair & Hsafe). simpl in Hn.
    pose proof (cs_option_range _ _ Ha) as Hk.
    assert (Hd : parse_custom_charset ctx k cs_def <> Undefined).
    { apply parse_custom_charset_defined; try assumption.
      apply orb_true_iff in Hpair as [Hnew|Hfree].
      - left. destruct (slot_defined ctx (Z.to_nat k)) eqn:Hsd; [|reflexivity].
        apply Hseen in Hsd. rewrite Z2Nat.id in Hsd by lia.
        rewrite Hsd in Hnew. discriminate.
      - right. now apply negb_true_iff in Hfree. }
    destruct (parse_custom_charset ctx k cs_def) as [ctx1| |] eqn:Hp;
      [|split; [discriminate | intros ? ? H; discriminate]|congruence].
    cbn [mbind outcome_bind].
    apply (IH args' ctx1 (k :: seen)); [lia | | | assumption].
    + eapply parse_custom_charset_registry_ok; eassumption.
    + intros j Hj. cbn [existsb].
      destruct (Z.eqb_spec (Z.of_nat j) k) as [|Hne]; [reflexivity|].
      cbn [orb]. apply Hseen.
      destruct (parse_custom_charset_Ok _ _ _ _ Hreg Hp)
        as (_ & _ & (buf & len & _ & _ & E3 & _) & _).
      unfold slot_defined in *. rewrite E3 in Hj.
      rewrite list_lookup_insert_ne in Hj by lia. exact Hj.
Qed.

(** X4: [global_init] stays within defined behaviour whenever no option
    redefines a slot by a definition that mentions the slot's own digit: it
    then returns a context or an error. Without that condition it need not:
    [-1 abc -1 x?1] copies slot 1 onto itself with overlap. *)
Theorem global_init_defined workv :
  (options_safe [] (drop 1 workv) = true -> global_init workv <> Undefined)
  /\ global_init (map list_ascii_of_string
                    ["feed_pattern_dict.so"; "-1"; "abc"; "-1"; "x?1"; "?W";
                     "words.txt"]%string)
     = Undefined.
Proof.
  split; [|vm_compute; reflexivity].
  intros Hsafe. unfold global_init.
  destruct (parse_options_defined (length (drop 1 workv)) (drop 1 workv)
              init_charsets [] (le_n _) init_charsets_registry_ok)
    as (Hdef & Hreg); [|assumption|].
  { intros j Hj. unfold slot_defined, init_charsets in Hj. cbn in Hj.
    do 4 (destruct j as [|j]; [discriminate|]). discriminate. }
  destruct (parse_options init_charsets (drop 1 workv)) as [[ctx1 rest]| |];
    [|discriminate|congruence].
  cbn [mbind outcome_bind fst snd].
  destruct rest as [|pattern [|wordlist rest']]; try discriminate.
  specialize (Hreg ctx1 _ eq_refl).
  unfold parse_pattern.
  pose proof (pattern_scan_tokens ctx1 Hreg (length pattern) pattern []
                (wrap32 (-1)) false (le_n _)) as Ht.
  destruct (pattern_scan ctx1 pattern [] (wrap32 (-1)) false) as [[[ps wp] f]| |];
    [|discriminate|contradiction].
  cbn [mbind outcome_bind]. destruct (negb f); [discriminate|].
  destruct (count_prefix_suffix _ _). discriminate.
Qed.

(** ** Outcome of [global_keyspace] *)

Lemma line_count_bounds data :
  data <> [] -> 1 <= line_count data <= Z.of_nat (length data).
Proof.
  intros Hne. unfold line_count.
  destruct (exists_last Hne) as (init & c & ->).
  rewrite last_snoc, filter_app, !length_app. cbn [length].
  pose proof (length_filter (fun c : byte => c = NL) init) as Hf.
  destruct (Ascii.eqb_spec c NL) as [->|Hc].
  - rewrite filter_cons_True by reflexivity. rewrite filter_nil. cbn [length]. lia.
  - rewrite filter_cons_False by assumption. rewrite filter_nil. cbn [length]. lia.
Qed.

(** A non-empty file with no more than [SIZE_MAX / 8] lines gives a
    keyspace. *)
Lemma global_keyspace_good ctx0 file :
  Forall radix_ok (positions ctx0) ->
  Z.of_nat (length file) <= SIZE_MAX ->
  file <> [] -> count_words file <= SIZE_MAX / 8 ->
  exists ctx,
    global_keyspace ctx0 file = Ok ctx
    /\ 1 <= word_count ctx <= Z.of_nat (length file)
    /\ 1 <= mask_keyspace ctx <= UINT64_MAX
    /\ 1 <= total_keyspace ctx <= UINT64_MAX.
Proof.
  intros Hrad Hsize Hne Hc.
  destruct (count_words_lines file Hsize) as (Hcl & Hlc).
  destruct (build_word_index_spec ctx0 file Hsize) as (_ & _ & _ & Hok).
  rewrite <- Hcl in Hok.
  pose proof (line_count_bounds file Hne) as Hb. rewrite <- Hlc in Hb.
  destruct (Hok ltac:(lia)) as (ctx1 & Hb1 & Hwc & _).
  unfold global_keyspace, thread_init.
  destruct (Z.eqb_spec (Z.of_nat (length file)) 0) as [Hz|_].
  { destruct file; [congruence | simpl in Hz; lia]. }
  cbn [mbind outcome_bind fd_mem]. rewrite Hb1. cbn [mbind outcome_bind].
  eexists. split; [reflexivity|]. cbn.
  destruct (build_word_index_fields _ _ _ Hb1) as (Ep & _).
  assert (Hrad1 : Forall radix_ok (positions ctx1)) by now rewrite Ep.
  pose proof (calculate_mask_keyspace_range ctx1 Hrad1) as Hmk.
  split; [rewrite Hwc; exact Hb|]. split; [assumption|].
  pose proof (count_words_range file) as Hcr. rewrite <- Hwc in Hcr, Hb.
  rewrite calculate_total_keyspace_spec
    by (unfold is_u64, UINT64_MAX in *; lia).
  unfold is_u64, UINT64_MAX in *. nia.
Qed.

(** X5: on a compiled pattern and a word list of at most [SIZE_MAX] bytes,
    whenever [global_keyspace] succeeds the file is not empty, the word
    count is between 1 and the file length and at most [SIZE_MAX / 8], and
    both keyspaces are between 1 and [UINT64_MAX]; so the value it returns
    is 0 only when it fails. The empty-file error is raised only for an
    empty file and the capacity error only for more than [SIZE_MAX / 8]
    lines; the empty-wordlist error of [build_word_index] is never reached
    from [global_keyspace], and building the index never reads or writes
    out of bounds. *)
Theorem global_keyspace_outcome workv ctx0 file :
  global_init workv = Ok ctx0 ->
  Z.of_nat (length file) <= SIZE_MAX ->
  (forall ctx,
     global_keyspace ctx0 file = Ok ctx ->
     file <> []
     /\ 1 <= word_count ctx <= Z.of_nat (length file)
     /\ word_count ctx <= SIZE_MAX / 8
     /\ 1 <= mask_keyspace ctx <= UINT64_MAX
     /\ 1 <= total_keyspace ctx <= UINT64_MAX)
  /\ (global_keyspace_value (global_keyspace ctx0 file) = 0
      <-> forall ctx, global_keyspace ctx0 file <> Ok ctx)
  /\ (global_keyspace ctx0 file = Err EmptyFile -> file = [])
  /\ (global_keyspace ctx0 file = Err CapacityExceeded ->
      SIZE_MAX / 8 < count_words file)
  /\ global_keyspace ctx0 file <> Err EmptyWordlist
  /\ global_keyspace ctx0 file <> Undefined.
Proof.
  intros Hinit Hsize.
  pose proof (compiled_radix_ok _ (global_init_compiled _ _ Hinit)) as Hrad.
  destruct (count_words_lines file Hsize) as (Hcl & Hlc).
  destruct (build_word_index_spec ctx0 file Hsize) as (_ & _ & Hbig & _).
  rewrite <- Hcl in Hbig.
  assert (Hcases :
            (file = [] /\ global_keyspace ctx0 file = Err EmptyFile)
            \/ (file <> [] /\ SIZE_MAX / 8 < count_words file
                /\ global_keyspace ctx0 file = Err CapacityExceeded)
            \/ (file <> [] /\ count_words file <= SIZE_MAX / 8
                /\ exists ctx,
                     global_keyspace ctx0 file = Ok ctx
                     /\ 1 <= word_count ctx <= Z.of_nat (length file)
                     /\ 1 <= mask_keyspace ctx <= UINT64_MAX
                     /\ 1 <= total_keyspace ctx <= UINT64_MAX)).
  { destruct file as [|c file']; [left; split; reflexivity | right].
    assert (Hne : c :: file' <> []) by discriminate.
    destruct (Z.le_gt_cases (count_words (c :: file')) (SIZE_MAX / 8)) as [Hle|Hgt].
    - right. split; [assumption|]. split; [assumption|].
      now apply global_keyspace_good.
    - left. split; [assumption|]. split; [lia|].
      unfold global_keyspace, thread_init.
      destruct (Z.eqb_spec (Z.of_nat (length (c :: file'))) 0) as [Hz|_];
        [simpl in Hz; lia|].
      cbn [mbind outcome_bind fd_mem]. rewrite (Hbig ltac:(lia)). reflexivity. }
  split.
  { intros ctx Hk.
    destruct Hcases as [(_ & He) | [(_ & _ & He) | (Hne & Hle & ctx' & Hk' & Hb)]];
      [congruence | congruence |].
    assert (ctx' = ctx) by congruence. subst ctx'.
    destruct Hb as (Hwc & Hmk & Ht).
    apply global_keyspace_Ok in Hk as (_ & _ & _ & _ & _ & _ & _ & _ & Ewc & _).
    split; [assumption|]. split; [assumption|].
    split; [rewrite Ewc; assumption|]. split; assumption. }
  split.
  { split.
    - intros Hval ctx Hk.
      destruct Hcases as [(_ & He) | [(_ & _ & He) | (_ & _ & ctx' & Hk' & _ & _ & Ht)]];
        [congruence | congruence |].
      rewrite Hk' in Hval. cbn in Hval. lia.
    - intros Hno. destruct (global_keyspace ctx0 file) as [ctx| |];
        [now destruct (Hno ctx) | reflexivity | reflexivity]. }
  split.
  { intros He.
    destruct Hcases as [(Hf & _) | [(_ & _ & He') | (_ & _ & ctx' & Hk' & _)]];
      [assumption | congruence | congruence]. }
  split.
  { intros He.
    destruct Hcases as [(_ & He') | [(_ & Hgt & _) | (_ & _ & ctx' & Hk' & _)]];
      [congruence | assumption | congruence]. }
  split.
  - destruct Hcases as [(_ & He) | [(_ & _ & He) | (_ & _ & ctx' & Hk' & _)]];
      congruence.
  - destruct Hcases as [(_ & He) | [(_ & _ & He) | (_ & _ & ctx' & Hk' & _)]];
      congruence.
Qed.

(** ** Word index: the recorded words *)

Lemma line_entries_lookup : forall ls start (i : nat) l,
  ls !! i = Some l ->
  line_entries start ls !! i
  = Some (start + Z.of_nat (length (join_lines [NL] (take i ls))),
          trimmed_length l).
Proof.
  unfold join_lines.
  induction ls as [|l0 ls IH]; intros start i l Hi; [discriminate|].
  destruct i as [|i]; cbn [line_entries take map concat].
  - inversion Hi; subst. cbn. do 2 f_equal. lia.
  - cbn in Hi. cbn [lookup list_lookup]. rewrite (IH _ i l Hi).
    rewrite !length_app. cbn [length]. do 2 f_equal. lia.
Qed.

Lemma join_lines_split (ls : list (list byte)) (i : nat) l :
  ls !! i = Some l ->
  join_lines [NL] ls
  = join_lines [NL] (take i ls) ++ l ++ NL :: join_lines [NL] (drop (S i) ls).
Proof.
  intros Hi. unfold join_lines.
  rewrite <- (take_drop_middle ls i l Hi) at 1.
  rewrite map_app, concat_app. cbn [map concat].
  now rewrite <- app_assoc.
Qed.

(** The buffer is its lines joined by newlines, up to the newline of an
    unterminated last line. *)
Lemma lines_join data :
  exists tail,
    join_lines [NL] (lines data) = data ++ tail /\ (tail = [] \/ tail = [NL]).
Proof.
  destruct (lines_characterized data) as (_ & Hj). unfold join_lines.
  rewrite Hj. destruct (last data) as [c|].
  - destruct (c =? NL)%char; [exists []; rewrite app_nil_r | exists [NL]]; auto.
  - exists []. rewrite app_nil_r. auto.
Qed.

(** Line [i] of the buffer lies at the offset recorded for it and is
    followed by a newline or by the end of the buffer. *)
Lemma line_at_offset data (i : nat) l :
  lines data !! i = Some l ->
  let off := length (join_lines [NL] (take i (lines data))) in
  (off + length l <= length data)%nat
  /\ take (length l) (drop off data) = l
  /\ (NL ∉ l)
  /\ (lines data !! S i <> None -> data !! (off + length l)%nat = Some NL).
Proof.
  intros Hi off.
  destruct (lines_join data) as (tail & Hj & Htail).
  pose proof (join_lines_split _ _ _ Hi) as Hs. fold off in Hs.
  rewrite Hj in Hs.
  destruct (lines_characterized data) as (Hnl & _).
  pose proof (proj1 (Forall_lookup _ _) Hnl _ _ Hi) as Hl.
  set (pre := join_lines [NL] (take i (lines data))) in *.
  set (post := join_lines [NL] (drop (S i) (lines data))) in *.
  assert (Hlen : (length data + length tail
                  = off + length l + 1 + length post)%nat).
  { apply (f_equal length) in Hs. rewrite !length_app in Hs. cbn [length] in Hs.
    unfold off. lia. }
  assert (Hpost : lines data !! S i <> None -> (1 <= length post)%nat).
  { intros Hn. unfold post.
    destruct (lines data !! S i) as [l'|] eqn:Hl'; [|congruence].
    rewrite (drop_S _ _ _ Hl'). unfold join_lines. cbn [map concat].
    rewrite !length_app. cbn [length]. lia. }
  assert (Hin : (off + length l <= length data)%nat).
  { destruct Htail as [->| ->]; cbn [length] in Hlen; lia. }
  assert (Hdrop : drop off (data ++ tail) = l ++ NL :: post).
  { rewrite Hs. unfold off. now rewrite drop_app_length. }
  rewrite drop_app_le in Hdrop by lia.
  split; [assumption|]. split; [|split; [assumption|]].
  - apply (f_equal (take (length l))) in Hdrop.
    rewrite take_app_le in Hdrop by (rewrite length_drop; lia).
    now rewrite take_app_length in Hdrop.
  - intros Hn. specialize (Hpost Hn).
    assert (Hlt : (off + length l < length data)%nat).
    { destruct Htail as [->| ->]; cbn [length] in Hlen; lia. }
    apply (f_equal (fun x => x !! length l)) in Hdrop.
    rewrite lookup_app_l in Hdrop by (rewrite length_drop; lia).
    rewrite lookup_drop in Hdrop.
    rewrite list_lookup_middle in Hdrop by reflexivity. exact Hdrop.
Qed.

Lemma trimmed_length_strip l :
  trimmed_length l = Z.of_nat (length (strip_one_cr l))
  /\ strip_one_cr l = take (Z.to_nat (trimmed_length l)) l.
Proof.
  unfold trimmed_length, strip_one_cr.
  destruct (last l) as [c|] eqn:Hl.
  - assert (1 <= length l)%nat by (destruct l; [discriminate | simpl; lia]).
    destruct (c =? CR)%char.
    + rewrite length_take. split; [lia|]. f_equal. lia.
    + split; [reflexivity|]. now rewrite Nat2Z.id, firstn_all.
  - apply last_None in Hl. subst l. split; reflexivity.
Qed.

(** The tables of a successful build, entry by entry. *)
Lemma build_word_index_entry ctx data ctx' :
  Z.of_nat (length data) <= SIZE_MAX ->
  build_word_index ctx data = Ok ctx' ->
  length (word_offsets ctx') = length (lines data)
  /\ length (word_lengths ctx') = length (lines data)
  /\ forall (i : nat) l,
       lines data !! i = Some l ->
       word_offsets ctx' !! i
       = Some (Z.of_nat (length (join_lines [NL] (take i (lines data)))))
       /\ word_lengths ctx' !! i = Some (wrap32 (trimmed_length l)).
Proof.
  intros Hsize Hb.
  destruct (build_word_index_spec ctx data Hsize) as (_ & Hz & Hbig & Hok).
  cbv zeta in Hz, Hbig, Hok.
  destruct (Z.eq_dec (Z.of_nat (length (lines data))) 0) as [H0|Hn0];
    [rewrite (Hz H0) in Hb; discriminate|].
  destruct (Z.lt_ge_cases (SIZE_MAX / 8) (Z.of_nat (length (lines data))))
    as [Hgt|Hle]; [rewrite (Hbig Hgt) in Hb; discriminate|].
  destruct (Hok ltac:(lia)) as (ctx'' & Hb' & _ & Ho & Hl).
  assert (ctx'' = ctx') by congruence. subst ctx''.
  rewrite Ho, Hl, !length_map, line_entries_length.
  split; [reflexivity|]. split; [reflexivity|].
  intros i l Hi. rewrite !list_lookup_fmap.
  rewrite (line_entries_lookup _ 0 i l Hi). cbn. split; [|reflexivity].
  f_equal.
Qed.

(** X6: after a successful build, entry [i] of the tables is line [i] of
    the buffer: the recorded offset is where the line starts (right after
    the newline that ends the line before), the bytes from it up to the next
    newline or the end of the buffer are the line, the recorded length is
    the line's length without one trailing [\r], modulo [2^32], and for a
    line shorter than [2^32] the recorded bytes are that line without one
    trailing [\r]. *)
Theorem word_table_content ctx data ctx' :
  Z.of_nat (length data) <= SIZE_MAX ->
  build_word_index ctx data = Ok ctx' ->
  length (word_offsets ctx') = length (lines data)
  /\ length (word_lengths ctx') = length (lines data)
  /\ Forall (fun l => NL ∉ l) (lines data)
  /\ (exists tail, join_lines [NL] (lines data) = data ++ tail
                   /\ (tail = [] \/ tail = [NL]))
  /\ forall (i : nat) l,
       lines data !! i = Some l ->
       exists off len,
         word_offsets ctx' !! i = Some off
         /\ word_lengths ctx' !! i = Some len
         /\ 0 <= off /\ off + Z.of_nat (length l) <= Z.of_nat (length data)
         /\ (i = 0%nat -> off = 0)
         /\ (forall off', word_offsets ctx' !! S i = Some off' ->
             off' = off + Z.of_nat (length l) + 1
             /\ data !! Z.to_nat (off + Z.of_nat (length l)) = Some NL)
         /\ word_bytes data off (Z.of_nat (length l)) = l
         /\ len = wrap32 (Z.of_nat (length (strip_one_cr l)))
         /\ (Z.of_nat (length l) < 2 ^ 32 ->
             word_bytes data off len = strip_one_cr l).
Proof.
  intros Hsize Hb.
  destruct (build_word_index_entry ctx data ctx' Hsize Hb) as (Ho & Hl & Hent).
  split; [assumption|]. split; [assumption|].
  split; [apply lines_characterized|]. split; [apply lines_join|].
  intros i l Hi. destruct (Hent i l Hi) as (Hoff & Hlen).
  destruct (line_at_offset data i l Hi) as (Hin & Htake & _ & Hnext).
  destruct (trimmed_length_strip l) as (Htl & Hstrip).
  eexists _, _. split; [exact Hoff|]. split; [exact Hlen|].
  split; [lia|]. split; [lia|]. split.
  { intros ->. reflexivity. }
  split.
  { intros off' Hoff'.
    destruct (lines data !! S i) as [l'|] eqn:Hl'.
    - destruct (Hent (S i) l' Hl') as (Hoff2 & _).
      rewrite Hoff2 in Hoff'. inversion Hoff'; subst off'; clear Hoff'.
      rewrite (take_S_r _ _ _ Hi). unfold join_lines.
      rewrite map_app, concat_app, !length_app. cbn [map concat length].
      rewrite app_nil_r, length_app. cbn [length]. split; [lia|].
      rewrite <- Nat2Z.inj_add, Nat2Z.id. apply Hnext. congruence.
    - apply lookup_lt_Some in Hoff'. apply lookup_ge_None in Hl'. lia. }
  split.
  { unfold word_bytes. now rewrite !Nat2Z.id. }
  split; [now rewrite Htl|].
  intros Hshort. unfold word_bytes. rewrite Nat2Z.id.
  assert (Hr : 0 <= trimmed_length l <= Z.of_nat (length l))
    by apply trimmed_length_range.
  unfold wrap32. rewrite Z.mod_small by lia.
  rewrite Hstrip.
  transitivity (take (Z.to_nat (trimmed_length l))
                  (take (length l)
                     (drop (length (join_lines [NL] (take i (lines data)))) data)));
    [|now rewrite Htake].
  rewrite take_take. f_equal. lia.
Qed.

Lemma first_newline_inj : forall (l1 l2 r1 r2 : list byte),
  NL ∉ l1 -> NL ∉ l2 ->
  l1 ++ NL :: r1 = l2 ++ NL :: r2 -> l1 = l2 /\ r1 = r2.
Proof.
  induction l1 as [|a l1 IH]; intros l2 r1 r2 H1 H2 He.
  - destruct l2 as [|b l2]; [now inversion He|].
    inversion He; subst. exfalso. apply H2. left.
  - destruct l2 as [|b l2].
    + inversion He; subst. exfalso. apply H1. left.
    + inversion He; subst.
      rewrite not_elem_of_cons in H1, H2.
      destruct (IH l2 r1 r2) as (-> & ->); tauto.
Qed.

Lemma join_lines_inj : forall ls1 ls2 : list (list byte),
  Forall (fun l => NL ∉ l) ls1 -> Forall (fun l => NL ∉ l) ls2 ->
  join_lines [NL] ls1 = join_lines [NL] ls2 -> ls1 = ls2.
Proof.
  unfold join_lines.
  induction ls1 as [|l1 ls1 IH]; intros ls2 H1 H2 He.
  - destruct ls2 as [|l2 ls2]; [reflexivity|].
    cbn in He. destruct l2; discriminate.
  - destruct ls2 as [|l2 ls2].
    { cbn in He. destruct l1; discriminate. }
    cbn [map concat] in He. rewrite <- !app_assoc in He. cbn [app] in He.
    inversion H1; subst. inversion H2; subst.
    apply first_newline_inj in He as (-> & He); try assumption.
    f_equal. now apply IH.
Qed.

(** Cutting a joined list of newline-free lines gives the lines back. *)
Lemma lines_join_lines (ls : list (list byte)) :
  Forall (fun l => NL ∉ l) ls -> lines (join_lines [NL] ls) = ls.
Proof.
  intros Hnl.
  destruct (lines_characterized (join_lines [NL] ls)) as (Hl & Hj).
  apply join_lines_inj; try assumption. unfold join_lines at 1. rewrite Hj.
  destruct ls as [|l0 ls0] eqn:Hls using rev_ind; [reflexivity|].
  clear IHls0. unfold join_lines.
  rewrite map_app, concat_app. cbn [map concat]. rewrite app_nil_r, app_assoc.
  rewrite last_snoc. now rewrite Ascii.eqb_refl.
Qed.

Lemma join_lines_crlf ws :
  join_lines [CR; NL] ws = join_lines [NL] (map (fun w => w ++ [CR]) ws).
Proof.
  unfold join_lines. rewrite map_map. f_equal. apply map_ext.
  intros w. now rewrite <- app_assoc.
Qed.

Lemma strip_one_cr_snoc w : strip_one_cr (w ++ [CR]) = w.
Proof.
  unfold strip_one_cr. rewrite last_snoc, Ascii.eqb_refl, length_app.
  cbn [length]. replace (length w + 1 - 1)%nat with (length w) by lia.
  now rewrite take_app_length.
Qed.

Lemma strip_one_cr_id w : last w <> Some CR -> strip_one_cr w = w.
Proof.
  unfold strip_one_cr. intros H.
  destruct (last w) as [c|] eqn:Hl.
  - destruct (Ascii.eqb_spec c CR) as [->|_]; [congruence | reflexivity].
  - apply last_None in Hl. now subst.
Qed.

(** X7: a word list written out one word per line, with [\n] or with
    [\r\n] line ends, is indexed back to the same words, in order (the
    words hold no newline, are shorter than [2^32 - 1] bytes and, with
    [\n] line ends, do not end in [\r]). *)
Theorem word_list_round_trip ctx (crlf : bool) ws :
  ws <> [] ->
  Forall (fun w => (NL ∉ w) /\ (crlf = false -> last w <> Some CR)
                   /\ Z.of_nat (length w) + 1 < 2 ^ 32) ws ->
  let data := join_lines (if crlf then [CR; NL] else [NL]) ws in
  Z.of_nat (length data) <= SIZE_MAX / 8 ->
  exists ctx',
    build_word_index ctx data = Ok ctx'
    /\ word_count ctx' = Z.of_nat (length ws)
    /\ recorded_words ctx' data = ws.
Proof.
  intros Hne Hws data Hsize.
  set (ls := if crlf then map (fun w => w ++ [CR]) ws else ws).
  assert (Hdata : data = join_lines [NL] ls).
  { unfold data, ls. destruct crlf; [apply join_lines_crlf | reflexivity]. }
  assert (Hnl : Forall (fun l => NL ∉ l) ls).
  { unfold ls. destruct crlf.
    - apply Forall_fmap. eapply Forall_impl; [exact Hws|].
      intros w (Hw & _). cbn. rewrite elem_of_app, list_elem_of_singleton.
      intros [H|H]; [tauto | discriminate].
    - eapply Forall_impl; [exact Hws|]. now intros w (Hw & _). }
  assert (Hlines : lines data = ls) by (rewrite Hdata; now apply lines_join_lines).
  assert (Hlen : length ls = length ws)
    by (unfold ls; destruct crlf; [apply length_map | reflexivity]).
  assert (Hsz : Z.of_nat (length data) <= SIZE_MAX).
  { change (SIZE_MAX / 8) with 2305843009213693951 in Hsize. unfold SIZE_MAX. lia. }
  assert (Hdne : data <> []).
  { intros Hd. rewrite Hd in Hlines. cbn in Hlines.
    destruct ws; [congruence|]. rewrite <- Hlines in Hlen. discriminate. }
  destruct (count_words_lines data Hsz) as (Hcl & Hlc).
  pose proof (line_count_bounds data Hdne) as Hb. rewrite <- Hlc, Hcl in Hb.
  destruct (build_word_index_spec ctx data Hsz) as (_ & _ & _ & Hok).
  cbv zeta in Hok.
  destruct (Hok ltac:(lia)) as (ctx' & Hbuild & Hwc & _).
  exists ctx'. split; [assumption|].
  split; [rewrite Hwc, Hlines, Hlen; reflexivity|].
  destruct (build_word_index_entry ctx data ctx' Hsz Hbuild) as (Ho & Hl & Hent).
  rewrite Hlines in Ho, Hl, Hent.
  apply list_eq. intros i. unfold recorded_words. rewrite lookup_zip_with.
  destruct (ws !! i) as [w|] eqn:Hw.
  - assert (Hli : ls !! i = Some (if crlf then w ++ [CR] else w)).
    { unfold ls. destruct crlf; [|assumption].
      now rewrite list_lookup_fmap, Hw. }
    destruct (Hent i _ Hli) as (Hoff & Hlen').
    rewrite Hoff, Hlen'. cbn.
    pose proof (proj1 (Forall_lookup _ _) Hws _ _ Hw) as (_ & Hcr & Hshort).
    rewrite <- Hlines in Hli.
    destruct (line_at_offset data i _ Hli) as (_ & Htake & _).
    rewrite Hlines in Htake.
    set (l := if crlf then w ++ [CR] else w) in *.
    assert (Hstrip : strip_one_cr l = w).
    { unfold l. destruct crlf; [apply strip_one_cr_snoc|].
      apply strip_one_cr_id. now apply Hcr. }
    destruct (trimmed_length_strip l) as (Htl & Hs).
    assert (Hll : Z.of_nat (length l) < 2 ^ 32).
    { unfold l. destruct crlf; rewrite ?length_app; cbn [length]; lia. }
    pose proof (trimmed_length_range l) as Hr.
    f_equal. unfold word_bytes. rewrite Nat2Z.id.
    unfold wrap32. rewrite Z.mod_small by lia.
    rewrite <- Hstrip, Hs.
    transitivity (take (Z.to_nat (trimmed_length l))
                    (take (length l)
                       (drop (length (join_lines [NL] (take i ls))) data)));
      [|now rewrite Htake].
    rewrite take_take. f_equal. lia.
  - apply lookup_ge_None in Hw.
    rewrite (proj2 (lookup_ge_None (word_offsets ctx') i)) by lia. reflexivity.
Qed.

(** ** Seek and next together *)

(** What an engine with an unsaturated keyspace provides to a run. *)
Lemma run_setup workv file ctx t0 :
  engine workv file ctx -> thread_init ctx file = Ok t0 ->
  word_count ctx * mask_product (positions ctx) <= UINT64_MAX ->
  compiled ctx /\ tables_ok ctx (Z.of_nat (length file))
  /\ cursor_ok ctx file t0
  /\ 1 <= mask_keyspace ctx <= UINT64_MAX
  /\ 1 <= word_count ctx
  /\ total_keyspace ctx = word_count ctx * mask_keyspace ctx
  /\ total_keyspace ctx <= UINT64_MAX
  /\ mask_keyspace ctx = mask_product (positions ctx)
  /\ seek_state ctx t0 0 = t0.
Proof.
  intros Heng Hinit Hfit.
  destruct (engine_facts _ _ _ Heng) as (Hc & Ht & Emk & Hmk & Hwc & Etot).
  pose proof (thread_init_cursor_ok _ _ _ Hc Hinit) as Hcur.
  pose proof (mask_product_pos _ (compiled_radix_ok _ Hc)) as HP.
  assert (Emk' : mask_keyspace ctx = mask_product (positions ctx)) by nia.
  assert (Htot : total_keyspace ctx = word_count ctx * mask_keyspace ctx)
    by (rewrite Etot, Emk'; lia).
  assert (Hfits : total_keyspace ctx <= UINT64_MAX) by (rewrite Htot, Emk'; lia).
  assert (Hpos : 0 < total_keyspace ctx) by nia.
  repeat (split; [first [assumption | lia]|]).
  exact (thread_init_seek_state _ _ _ Hc Hpos Hinit).
Qed.

(** Every cursor a consumer can hold maps the same file and carries the
    same entries after the pattern's digits as the fresh cursor. *)
Lemma cursor_reachable_frame PW_MAX ctx file t0 tctx :
  compiled ctx -> 0 < mask_keyspace ctx ->
  thread_init ctx file = Ok t0 ->
  cursor_reachable PW_MAX ctx file tctx ->
  fd_mem tctx = fd_mem t0 /\ fd_len tctx = fd_len t0
  /\ (length (positions ctx) <= length (mask_indices tctx))%nat
  /\ drop (length (positions ctx)) (mask_indices tctx)
     = drop (length (positions ctx)) (mask_indices t0).
Proof.
  intros Hc Hmk Hinit Hr. pose proof (compiled_radix_ok _ Hc) as Hrad.
  assert (Hstep : forall m idx,
            0 <= m -> (length (positions ctx) <= length idx)%nat ->
            (length (positions ctx)
             <= length (index_to_mask_indices ctx m idx))%nat
            /\ drop (length (positions ctx)) (index_to_mask_indices ctx m idx)
               = drop (length (positions ctx)) idx).
  { intros m idx Hm Hlen.
    destruct (index_to_mask_indices_inv ctx m idx Hrad Hm Hlen) as (_ & Hl).
    split; [lia|].
    rewrite index_to_mask_indices_spec by assumption.
    rewrite drop_app_length'; [reflexivity | symmetry; apply index_to_digits_length]. }
  induction Hr as [t Ht | t ret out t' Hr IH Hn | t off t' Hr IH Hoff Hs].
  - assert (t = t0) by congruence. subst t.
    pose proof (thread_init_cursor_ok _ _ _ Hc Hinit) as (_ & _ & Hl & _).
    repeat split; try reflexivity. assumption.
  - destruct IH as (I1 & I2 & I3 & I4). unfold thread_next in Hn.
    destruct (word_count ctx <=? current_word_idx t).
    { inversion Hn; subst. repeat split; assumption. }
    apply bind_Ok in Hn as (r & _ & Hn). inversion Hn; subst; clear Hn.
    unfold advance_position. cbn [fd_mem fd_len mask_indices].
    split; [assumption|]. split; [assumption|].
    match goal with
    | |- context [if ?b then index_to_mask_indices ctx ?m _ else _] =>
      destruct b; [|split; assumption];
      destruct (Hstep m (mask_indices t)) as (S1 & S2); [|assumption|]
    end.
    + destruct (mask_keyspace ctx <=? _); [lia|].
      pose proof (wrap64_range (current_mask_idx t + 1)) as Hw.
      unfold is_u64 in Hw. lia.
    + split; [assumption | congruence].
  - destruct IH as (I1 & I2 & I3 & I4). unfold thread_seek in Hs.
    destruct (total_keyspace ctx <=? off); [discriminate|].
    inversion Hs; subst; clear Hs. cbn [fd_mem fd_len mask_indices].
    split; [assumption|]. split; [assumption|].
    destruct (Hstep (off mod mask_keyspace ctx) (mask_indices t)) as (S1 & S2);
      [apply Z.mod_pos_bound; lia | assumption |].
    split; [assumption | congruence].
Qed.

(** From two cursors with the same frame a seek leaves the same cursor. *)
Lemma thread_seek_frame ctx t1 t2 offset :
  compiled ctx -> 0 < mask_keyspace ctx ->
  fd_mem t1 = fd_mem t2 -> fd_len t1 = fd_len t2 ->
  (length (positions ctx) <= length (mask_indices t1))%nat ->
  (length (positions ctx) <= length (mask_indices t2))%nat ->
  drop (length (positions ctx)) (mask_indices t1)
  = drop (length (positions ctx)) (mask_indices t2) ->
  offset < total_keyspace ctx ->
  thread_seek ctx t1 offset = thread_seek ctx t2 offset.
Proof.
  intros Hc Hmk Hm Hl L1 L2 Hd Hoff. unfold thread_seek.
  destruct (Z.leb_spec (total_keyspace ctx) offset); [lia|].
  pose proof (compiled_radix_ok _ Hc) as Hrad.
  rewrite !index_to_mask_indices_spec, Hm, Hl, Hd;
    try assumption; try (apply Z.mod_pos_bound; lia).
  reflexivity.
Qed.

Lemma engine_thread_init workv file ctx :
  engine workv file ctx -> exists t0, thread_init ctx file = Ok t0.
Proof.
  intros (ctx0 & _ & _ & Hk).
  apply global_keyspace_Ok in Hk as (_ & _ & Hne & _).
  unfold thread_init.
  destruct (Z.eqb_spec (Z.of_nat (length file)) 0) as [Hz|_]; [|eauto].
  destruct file; [congruence | simpl in Hz; lia].
Qed.

(** X8: an accepted seek does not depend on where the cursor was: from any
    two cursors a consumer can hold over the same engine, [thread_seek] to
    the same offset leaves the same thread context. *)
Theorem thread_seek_history_independent PW_MAX workv file ctx t1 t2 offset :
  engine workv file ctx ->
  cursor_reachable PW_MAX ctx file t1 ->
  cursor_reachable PW_MAX ctx file t2 ->
  offset < total_keyspace ctx ->
  thread_seek ctx t1 offset = thread_seek ctx t2 offset
  /\ (thread_seek ctx t1 offset).1.1 = true.
Proof.
  intros Heng H1 H2 Hoff.
  destruct (engine_facts _ _ _ Heng) as (Hc & _ & _ & Hmk & _).
  destruct (engine_thread_init _ _ _ Heng) as (t0 & Hinit).
  destruct (cursor_reachable_frame PW_MAX ctx file t0 t1 Hc ltac:(lia) Hinit H1)
    as (A1 & A2 & A3 & A4).
  destruct (cursor_reachable_frame PW_MAX ctx file t0 t2 Hc ltac:(lia) Hinit H2)
    as (B1 & B2 & B3 & B4).
  split.
  - apply thread_seek_frame; try assumption; try congruence. lia.
  - unfold thread_seek.
    destruct (Z.leb_spec (total_keyspace ctx) offset); [lia | reflexivity].
Qed.

(** X9: over an engine in which the prefix length plus every recorded word
    length stays below [2^32] (so that no call stores more than [PW_MAX]
    bytes), seeking to offset [k] and then calling [thread_next] [n] times
    returns the last [n] of the [k + n] results a fresh cursor returns, and
    leaves the same thread context; each result is the number of bytes
    stored, at most [PW_MAX]; while the keyspace is not exhausted that
    context is the one a seek to [k + n] leaves. *)
Theorem seek_resumes_enumeration PW_MAX workv file ctx t0 tctx (k n : nat) :
  PATTERN_MAX_POSITIONS <= PW_MAX < 2 ^ 31 ->
  engine workv file ctx ->
  thread_init ctx file = Ok t0 ->
  word_count ctx * mask_product (positions ctx) <= UINT64_MAX ->
  words_fit ctx ->
  cursor_reachable PW_MAX ctx file tctx ->
  Z.of_nat k < total_keyspace ctx ->
  Z.of_nat k + Z.of_nat n <= total_keyspace ctx ->
  exists tk rs tn,
    thread_seek ctx tctx (Z.of_nat k) = (true, None, tk)
    /\ next_calls PW_MAX (k + n) ctx t0 = Ok (rs, tn)
    /\ next_calls PW_MAX n ctx tk = Ok (drop k rs, tn)
    /\ (forall (i : nat) ret out,
          rs !! i = Some (ret, out) ->
          ret = Z.of_nat (length out) /\ ret <= PW_MAX)
    /\ (Z.of_nat k + Z.of_nat n < total_keyspace ctx ->
        thread_seek ctx tctx (Z.of_nat k + Z.of_nat n) = (true, None, tn)).
Proof.
  intros HPW Heng Hinit Hfit Hwords Hreach Hk Hkn.
  destruct (run_setup _ _ _ _ Heng Hinit Hfit)
    as (Hc & Ht & Hcur & Hmk & Hwc & Htot & Hfits & _ & Hstart).
  destruct (cursor_reachable_frame PW_MAX ctx file t0 tctx Hc ltac:(lia) Hinit Hreach)
    as (A1 & A2 & A3 & A4).
  pose proof Hcur as (_ & _ & B3 & _).
  assert (Hseek : forall j, 0 <= j < total_keyspace ctx ->
            thread_seek ctx tctx j = (true, None, seek_state ctx t0 j)).
  { intros j Hj.
    rewrite (thread_seek_frame ctx tctx t0 j) by (try assumption; lia).
    unfold seek_state, thread_seek.
    destruct (Z.leb_spec (total_keyspace ctx) j); [lia | reflexivity]. }
  assert (Hstored : forall j ret out, 0 <= j < total_keyspace ctx ->
            generate_candidate PW_MAX ctx (seek_state ctx t0 j) = Ok (out, ret) ->
            ret = Z.of_nat (length out) /\ ret <= PW_MAX).
  { intros j ret out Hj Hgen.
    pose proof (seek_state_cursor_ok ctx file t0 Hc Hcur Hmk j ltac:(lia)) as Hcurj.
    pose proof (seek_state_word_idx ctx t0 Hmk Htot j ltac:(lia)) as Hidx.
    destruct (generate_candidate_defined PW_MAX HPW ctx file _ Hc Ht Hcurj Hidx)
      as (out' & ret' & off & wl & Hgen' & _ & Hwl & Hwlr & Hshape).
    rewrite Hgen in Hgen'. inversion Hgen'; subst out' ret'.
    assert (Hnw : word_position ctx + wl < 2 ^ 32).
    { apply rd_Ok in Hwl as (_ & Hwl).
      exact (proj1 (Forall_lookup _ _) Hwords _ _ Hwl). }
    destruct (Hshape Hnw) as (H1 & H2). split; [assumption | lia]. }
  destruct (next_calls_run PW_MAX HPW ctx file t0 Hc Ht Hcur Hmk Hwc Htot Hfits
              k 0 ltac:(lia) ltac:(lia) ltac:(lia))
    as (rs1 & t1 & Hrun1 & Hlen1 & Hat1 & Hrs1).
  rewrite Hstart, Z.add_0_l in *.
  destruct Hat1 as [(_ & ->) | (Hend & _)]; [|lia].
  destruct (next_calls_run PW_MAX HPW ctx file t0 Hc Ht Hcur Hmk Hwc Htot Hfits
              n (Z.of_nat k) ltac:(lia) ltac:(lia) ltac:(lia))
    as (rs2 & t2 & Hrun2 & Hlen2 & Hat2 & Hrs2).
  exists (seek_state ctx t0 (Z.of_nat k)), (rs1 ++ rs2), t2.
  split; [apply Hseek; lia|]. split.
  { rewrite next_calls_app, Hrun1. cbn [mbind outcome_bind fst snd].
    rewrite Hrun2. reflexivity. }
  split.
  { rewrite drop_app_length' by (symmetry; exact Hlen1). exact Hrun2. }
  split.
  { intros i ret out Hi.
    destruct (Nat.lt_ge_cases i k) as [Hik|Hik].
    - rewrite lookup_app_l in Hi by lia.
      apply (Hstored (Z.of_nat i)); [lia|].
      pose proof (Hrs1 i ret out Hi) as Hg. rewrite Z.add_0_l in Hg. exact Hg.
    - rewrite lookup_app_r in Hi by lia.
      pose proof (lookup_lt_Some _ _ _ Hi) as Hin.
      apply (Hstored (Z.of_nat k + Z.of_nat (i - length rs1))); [lia|].
      exact (Hrs2 _ ret out Hi). }
  intros Hlt. destruct Hat2 as [(_ & ->) | (Hend & _)]; [|lia].
  apply Hseek. lia.
Qed.

(** ** Candidates *)

Lemma builtin_tables_NoDup :
  NoDup CHARSET_LOWER /\ NoDup CHARSET_UPPER /\ NoDup CHARSET_DIGIT
  /\ NoDup CHARSET_SPECIAL /\ NoDup CHARSET_ALL /\ NoDup CHARSET_HEX_LOW
  /\ NoDup CHARSET_HEX_UP /\ NoDup CHARSET_BINARY.
Proof.
  unfold byte.
  repeat split; apply (@bool_decide_unpack _ (NoDup_dec _)); vm_compute; exact I.
Qed.

Lemma position_bytes_lookup ctx p d :
  0 <= d < charset_len p ->
  position_bytes ctx p !! Z.to_nat d = Some (char_at ctx p d).
Proof.
  intros Hd. unfold position_bytes. rewrite list_lookup_fmap.
  rewrite (proj2 (lookup_seqZ 0 (charset_len p) (Z.to_nat d) d)); [reflexivity|].
  lia.
Qed.

Lemma char_at_inj ctx p d1 d2 :
  NoDup (position_bytes ctx p) ->
  0 <= d1 < charset_len p -> 0 <= d2 < charset_len p ->
  char_at ctx p d1 = char_at ctx p d2 -> d1 = d2.
Proof.
  intros Hnd H1 H2 He.
  pose proof (position_bytes_lookup ctx p d1 H1) as L1.
  pose proof (position_bytes_lookup ctx p d2 H2) as L2.
  rewrite He in L1.
  pose proof (NoDup_lookup _ _ _ _ Hnd L1 L2). lia.
Qed.

(** A position that reads a built-in table or its own literal has no byte
    twice. *)
Lemma builtin_position_NoDup ctx p :
  pos_ok ctx p -> nonword p ->
  (forall k, charset p <> PtrCustom k) ->
  NoDup (position_bytes ctx p).
Proof.
  intros Hok Hnw Hnc. destruct (Hok Hnw) as (Hlen & Hread).
  assert (Htab : forall tab : list byte,
            NoDup tab ->
            (forall d, charset_read ctx p d = rd tab d) ->
            NoDup (position_bytes ctx p)).
  { intros tab Hnd Hrd. unfold position_bytes.
    apply NoDup_fmap_2_strong; [|apply NoDup_seqZ].
    intros d1 d2 H1 H2 He.
    apply elem_of_seqZ in H1, H2.
    destruct (Hread d1 ltac:(lia)) as (c1 & R1).
    destruct (Hread d2 ltac:(lia)) as (c2 & R2).
    unfold char_at in He. rewrite R1, R2 in He. subst c2.
    rewrite Hrd in R1, R2.
    apply rd_Ok in R1 as (_ & R1). apply rd_Ok in R2 as (_ & R2).
    pose proof (NoDup_lookup _ _ _ _ Hnd R1 R2). lia. }
  destruct builtin_tables_NoDup as (N1 & N2 & N3 & N4 & N5 & N6 & N7 & N8).
  destruct (charset p) as [| | | | | | | | |slot|] eqn:Hp.
  - destruct (Hread 0 ltac:(lia)) as (c & Hc).
    unfold charset_read in Hc. rewrite Hp in Hc. discriminate.
  - apply (Htab CHARSET_LOWER); [assumption|].
    intros d. unfold charset_read. now rewrite Hp.
  - apply (Htab CHARSET_UPPER); [assumption|].
    intros d. unfold charset_read. now rewrite Hp.
  - apply (Htab CHARSET_DIGIT); [assumption|].
    intros d. unfold charset_read. now rewrite Hp.
  - apply (Htab CHARSET_SPECIAL); [assumption|].
    intros d. unfold charset_read. now rewrite Hp.
  - apply (Htab CHARSET_ALL); [assumption|].
    intros d. unfold charset_read. now rewrite Hp.
  - apply (Htab CHARSET_HEX_LOW); [assumption|].
    intros d. unfold charset_read. now rewrite Hp.
  - apply (Htab CHARSET_HEX_UP); [assumption|].
    intros d. unfold charset_read. now rewrite Hp.
  - apply (Htab CHARSET_BINARY); [assumption|].
    intros d. unfold charset_read. now rewrite Hp.
  - now elim (Hnc slot).
  - apply (Htab [literal_char p]); [apply NoDup_singleton|].
    intros d. unfold charset_read. now rewrite Hp.
Qed.

(** Distinct digits render to distinct bytes when no position has a byte
    twice. *)
Lemma render_inj ctx : forall ps ds1 ds2,
  Forall nonword ps ->
  Forall (fun p => NoDup (position_bytes ctx p)) ps ->
  Forall2 digit_ok ps ds1 -> Forall2 digit_ok ps ds2 ->
  render ctx ps ds1 = render ctx ps ds2 -> ds1 = ds2.
Proof.
  unfold render.
  induction ps as [|p ps IH]; intros ds1 ds2 Hnw Hnd H1 H2 He.
  - inversion H1; inversion H2; reflexivity.
  - inversion H1 as [|? d1 ? ds1' D1 F1]; subst.
    inversion H2 as [|? d2 ? ds2' D2 F2]; subst.
    inversion Hnw; subst. inversion Hnd; subst.
    cbn [zip_with] in He. inversion He as [[Hc Hrest]].
    unfold digit_ok in D1, D2.
    match goal with H : nonword p |- _ => unfold nonword in H; rewrite H in D1, D2 end.
    f_equal; [now apply (char_at_inj ctx p) | now apply IH].
Qed.

(** The candidate of offset [k]: the bytes the digits of [k mod
    mask_keyspace] select before and after the word number [k /
    mask_keyspace], cut to [PW_MAX]. *)
Lemma candidate_formula PW_MAX ctx file t k :
  PATTERN_MAX_POSITIONS <= PW_MAX < 2 ^ 31 ->
  compiled ctx -> tables_ok ctx (Z.of_nat (length file)) ->
  cursor_ok ctx file t -> 1 <= mask_keyspace ctx ->
  0 <= k < total_keyspace ctx -> k / mask_keyspace ctx < word_count ctx ->
  exists pre w suf dpre dsuf off wl,
    positions ctx = pre ++ w :: suf
    /\ word_position ctx = Z.of_nat (length pre)
    /\ Forall nonword pre /\ Forall nonword suf
    /\ index_to_digits (positions ctx) (k mod mask_keyspace ctx)
       = dpre ++ 0 :: dsuf
    /\ Forall2 digit_ok pre dpre /\ Forall2 digit_ok suf dsuf
    /\ rd (word_offsets ctx) (k / mask_keyspace ctx) = Ok off
    /\ rd (word_lengths ctx) (k / mask_keyspace ctx) = Ok wl
    /\ 0 <= off /\ 0 <= wl < 2 ^ 32 /\ off + wl <= Z.of_nat (length file)
    /\ (Z.of_nat (length pre) + wl < 2 ^ 32 ->
        let p := Z.of_nat (length pre) in
        let bytes :=
          render ctx pre dpre
          ++ take (Z.to_nat (PW_MAX - p)) (word_bytes file off wl)
          ++ take (Z.to_nat (PW_MAX - p - wl)) (render ctx suf dsuf) in
        generate_candidate PW_MAX ctx (seek_state ctx t k)
        = Ok (bytes, Z.of_nat (length bytes))
        /\ Z.of_nat (length bytes)
           = Z.min (p + wl + Z.of_nat (length suf)) PW_MAX).
Proof.
  intros HPW Hc Ht Hcur Hmk Hk Hw.
  pose proof (compiled_radix_ok _ Hc) as Hrad.
  pose proof Hc as (_ & Hn & Hok & Hwa).
  pose proof Hcur as (Hmem & Hlen & Hidx & _).
  assert (Hm : 0 <= k mod mask_keyspace ctx) by (apply Z.mod_pos_bound; lia).
  pose proof (index_to_digits_valid (positions ctx) _ Hrad Hm) as Hv.
  destruct (word_at_split_digits _ _ _ Hwa Hv)
    as (pre & w & suf & dpre & dw & dsuf & Hps & Hwp & Hnp & Hns & Hds & Fp & Fs).
  assert (Hisw : is_word (type w) = true).
  { destruct Hwa as (pre' & w' & suf' & Hps' & Hw' & Hnp' & _ & Hwp').
    assert (Hl : length pre' = length pre) by lia.
    rewrite Hps in Hps'.
    apply app_inj_1 in Hps' as (_ & Hcons); [|lia]. now inversion Hcons. }
  assert (Hdw : dw = 0).
  { unfold valid_digits in Hv. rewrite Hds in Hv. rewrite Hps in Hv.
    apply Forall2_app_inv in Hv as (_ & Hv); [|now apply Forall2_length in Fp].
    inversion Hv as [|? ? ? ? D _]; subst. unfold digit_ok in D.
    now rewrite Hisw in D. }
  subst dw.
  destruct Ht as (Lo & Ll & Hent).
  assert (Hwi : 0 <= k / mask_keyspace ctx) by (apply Z.div_pos; lia).
  destruct (rd_in_range (word_offsets ctx) (k / mask_keyspace ctx) ltac:(lia))
    as (off & Hoff).
  destruct (rd_in_range (word_lengths ctx) (k / mask_keyspace ctx) ltac:(lia))
    as (wl & Hwl).
  destruct (Hent (Z.to_nat (k / mask_keyspace ctx)) off wl)
    as (Hoff0 & Hwlr & Hin);
    [now apply rd_Ok in Hoff | now apply rd_Ok in Hwl |].
  exists pre, w, suf, dpre, dsuf, off, wl.
  repeat (split; [first [assumption | lia]|]).
  intros Hnowrap.
  rewrite Hps in Hok. apply Forall_app in Hok as (Hokp & Hoks).
  apply Forall_cons in Hoks as (_ & Hoks).
  assert (Hfields := seek_state_fields ctx t k ltac:(lia)).
  destruct (generate_candidate_safe PW_MAX HPW ctx (seek_state ctx t k)
              pre w suf dpre 0 dsuf
              (drop (length (positions ctx)) (mask_indices t)) off wl)
    as (Hgen & Hbl & _); try assumption.
  - rewrite Hfields. cbn [mask_indices].
    rewrite index_to_mask_indices_spec by assumption.
    rewrite Hds, <- app_assoc. reflexivity.
  - now rewrite Hfields.
  - now rewrite Hfields.
  - lia.
  - rewrite Hfields. cbn [fd_len]. lia.
  - rewrite Hfields. cbn [fd_len fd_mem]. congruence.
  - rewrite Hfields in Hgen, Hbl. cbn [fd_mem] in Hgen, Hbl.
    rewrite Hmem in Hgen, Hbl. rewrite Hfields, Hmem. unfold word_bytes.
    split; [exact Hgen | exact Hbl].
Qed.

(** What an engine provides to a seek from a cursor a consumer can hold. *)
Lemma seek_setup PW_MAX workv file ctx tctx k :
  engine workv file ctx -> cursor_reachable PW_MAX ctx file tctx ->
  0 <= k < total_keyspace ctx ->
  compiled ctx /\ tables_ok ctx (Z.of_nat (length file))
  /\ cursor_ok ctx file tctx /\ 1 <= mask_keyspace ctx
  /\ mask_keyspace ctx <= mask_product (positions ctx)
  /\ k / mask_keyspace ctx < word_count ctx
  /\ thread_seek ctx tctx k = (true, None, seek_state ctx tctx k).
Proof.
  intros Heng Hr Hk.
  destruct (engine_facts _ _ _ Heng) as (Hc & Ht & Emk & Hmk & Hwc & Etot).
  pose proof (cursor_reachable_ok PW_MAX ctx file tctx Hc ltac:(lia) Hr) as Hcur.
  repeat (split; [first [assumption | lia]|]).
  split.
  - apply Z.div_lt_upper_bound; [lia|]. lia.
  - unfold seek_state, thread_seek.
    destruct (Z.leb_spec (total_keyspace ctx) k); [lia | reflexivity].
Qed.

(** X10: the candidate of offset [k]. After a seek to [k], [thread_next]
    returns, for the word number [k / mask_keyspace] and the mixed-radix
    digits of [k mod mask_keyspace], the bytes the digits select at the
    positions before the word, the word cut to the room left under
    [PW_MAX], and the bytes selected at the positions after the word that
    still fit; the value returned is their number. *)
Theorem candidate_at_offset PW_MAX workv file ctx tctx k :
  PATTERN_MAX_POSITIONS <= PW_MAX < 2 ^ 31 ->
  engine workv file ctx ->
  cursor_reachable PW_MAX ctx file tctx ->
  0 <= k < total_keyspace ctx ->
  let mk := mask_keyspace ctx in
  let wp := Z.to_nat (word_position ctx) in
  let ds := index_to_digits (positions ctx) (k mod mk) in
  exists tk off wl,
    thread_seek ctx tctx k = (true, None, tk)
    /\ rd (word_offsets ctx) (k / mk) = Ok off
    /\ rd (word_lengths ctx) (k / mk) = Ok wl
    /\ (word_position ctx + wl < 2 ^ 32 ->
        let bytes :=
          render ctx (take wp (positions ctx)) (take wp ds)
          ++ take (Z.to_nat (PW_MAX - word_position ctx)) (word_bytes file off wl)
          ++ take (Z.to_nat (PW_MAX - word_position ctx - wl))
               (render ctx (drop (S wp) (positions ctx)) (drop (S wp) ds)) in
        thread_next PW_MAX ctx tk
        = Ok (Z.of_nat (length bytes), bytes, advance_position tk ctx)
        /\ Z.of_nat (length bytes)
           = Z.min (wl + (num_positions ctx - 1)) PW_MAX).
Proof.
  intros HPW Heng Hr Hk mk wp ds.
  destruct (seek_setup PW_MAX _ _ _ _ _ Heng Hr Hk)
    as (Hc & Ht & Hcur & Hmk & _ & Hw & Hseek).
  destruct (candidate_formula PW_MAX ctx file tctx k HPW Hc Ht Hcur Hmk Hk Hw)
    as (pre & w & suf & dpre & dsuf & off & wl & Hps & Hwp & _ & _ & Hds
        & Fp & Fs & Hoff & Hwl & _ & _ & _ & Hgen).
  exists (seek_state ctx tctx k), off, wl.
  split; [assumption|]. split; [assumption|]. split; [assumption|].
  intros Hnowrap. rewrite Hwp in Hnowrap. specialize (Hgen Hnowrap).
  cbv zeta in Hgen. destruct Hgen as (Hgen & Hbl).
  assert (Lp : length dpre = length pre) by (symmetry; now apply Forall2_length in Fp).
  assert (E1 : take wp (positions ctx) = pre).
  { rewrite Hps. apply take_app_length'. unfold wp. lia. }
  assert (E2 : take wp ds = dpre).
  { unfold ds, mk. rewrite Hds. apply take_app_length'. unfold wp. lia. }
  assert (E3 : drop (S wp) (positions ctx) = suf).
  { rewrite Hps. change (w :: suf) with ([w] ++ suf). rewrite app_assoc.
    apply drop_app_length'. rewrite length_app. cbn [length]. unfold wp. lia. }
  assert (E4 : drop (S wp) ds = dsuf).
  { unfold ds, mk. rewrite Hds. change (0 :: dsuf) with ([0] ++ dsuf).
    rewrite app_assoc. apply drop_app_length'.
    rewrite length_app. cbn [length]. unfold wp. lia. }
  cbv zeta. rewrite E1, E2, E3, E4, Hwp.
  split.
  - unfold thread_next.
    rewrite (seek_state_fields ctx tctx k) at 1 by lia. cbn [current_word_idx].
    destruct (Z.leb_spec (word_count ctx) (k / mask_keyspace ctx)); [lia|].
    rewrite Hgen. reflexivity.
  - rewrite Hbl. unfold num_positions. rewrite Hps, length_app. cbn [length]. lia.
Qed.

(** X11: for one word, candidates of different offsets differ, as long as
    the candidate is not cut at [PW_MAX] and no custom set in the pattern
    lists a byte twice (the built-in sets never do). *)
Theorem candidates_distinct PW_MAX workv file ctx tctx k1 k2 wl :
  PATTERN_MAX_POSITIONS <= PW_MAX < 2 ^ 31 ->
  engine workv file ctx ->
  cursor_reachable PW_MAX ctx file tctx ->
  (forall p slot, p ∈ positions ctx -> charset p = PtrCustom slot ->
                  NoDup (position_bytes ctx p)) ->
  0 <= k1 < total_keyspace ctx -> 0 <= k2 < total_keyspace ctx ->
  k1 / mask_keyspace ctx = k2 / mask_keyspace ctx -> k1 <> k2 ->
  rd (word_lengths ctx) (k1 / mask_keyspace ctx) = Ok wl ->
  wl + (num_positions ctx - 1) <= PW_MAX ->
  exists out1 out2,
    thread_next PW_MAX ctx (seek_state ctx tctx k1)
    = Ok (Z.of_nat (length out1), out1,
          advance_position (seek_state ctx tctx k1) ctx)
    /\ thread_next PW_MAX ctx (seek_state ctx tctx k2)
       = Ok (Z.of_nat (length out2), out2,
             advance_position (seek_state ctx tctx k2) ctx)
    /\ out1 <> out2.
Proof.
  intros HPW Heng Hr Hcustom Hk1 Hk2 Hsame Hne Hwl Hfit.
  destruct (seek_setup PW_MAX _ _ _ _ _ Heng Hr Hk1)
    as (Hc & Ht & Hcur & Hmk & Hprod & Hw1 & _).
  destruct (seek_setup PW_MAX _ _ _ _ _ Heng Hr Hk2)
    as (_ & _ & _ & _ & _ & Hw2 & _).
  pose proof (compiled_radix_ok _ Hc) as Hrad.
  destruct (candidate_formula PW_MAX ctx file tctx k1 HPW Hc Ht Hcur Hmk Hk1 Hw1)
    as (pre & w & suf & dpre1 & dsuf1 & off & wl1 & Hps & Hwp & Hnp & Hns & Hds1
        & Fp1 & Fs1 & Hoff1 & Hwl1 & _ & Hwlr & _ & Hgen1).
  destruct (candidate_formula PW_MAX ctx file tctx k2 HPW Hc Ht Hcur Hmk Hk2 Hw2)
    as (pre' & w' & suf' & dpre2 & dsuf2 & off' & wl2 & Hps' & Hwp' & _ & _ & Hds2
        & Fp2 & Fs2 & Hoff2 & Hwl2 & _ & _ & _ & Hgen2).
  assert (wl1 = wl) by congruence. subst wl1.
  rewrite <- Hsame in Hoff2, Hwl2.
  assert (wl2 = wl) by congruence. assert (off' = off) by congruence. subst wl2 off'.
  assert (Hpl : length pre' = length pre) by lia.
  rewrite Hps in Hps'. apply app_inj_1 in Hps' as (<- & Hcons); [|lia].
  inversion Hcons; subst w' suf'; clear Hcons.
  assert (Hnum : num_positions ctx
                 = Z.of_nat (length pre) + 1 + Z.of_nat (length suf)).
  { unfold num_positions. rewrite Hps, length_app. cbn [length]. lia. }
  unfold PATTERN_MAX_POSITIONS in HPW.
  destruct (Hgen1 ltac:(lia)) as (G1 & _). destruct (Hgen2 ltac:(lia)) as (G2 & _).
  cbv zeta in G1, G2.
  assert (Hword : forall x : list byte,
            take (Z.to_nat (PW_MAX - Z.of_nat (length pre))) (word_bytes file off wl)
            = word_bytes file off wl).
  { intros _. apply take_ge. unfold word_bytes. rewrite length_take. lia. }
  assert (Hsuf : forall ds, Forall2 digit_ok suf ds ->
            take (Z.to_nat (PW_MAX - Z.of_nat (length pre) - wl)) (render ctx suf ds)
            = render ctx suf ds).
  { intros ds F. apply take_ge. rewrite render_length by assumption. lia. }
  rewrite (Hword []), Hsuf in G1, G2 by assumption.
  assert (Hnext : forall k, 0 <= k < total_keyspace ctx ->
            k / mask_keyspace ctx < word_count ctx ->
            forall r, generate_candidate PW_MAX ctx (seek_state ctx tctx k) = Ok r ->
            thread_next PW_MAX ctx (seek_state ctx tctx k)
            = Ok (r.2, r.1, advance_position (seek_state ctx tctx k) ctx)).
  { intros k Hk Hw r Hg. unfold thread_next.
    rewrite (seek_state_fields ctx tctx k) at 1 by lia. cbn [current_word_idx].
    destruct (Z.leb_spec (word_count ctx) (k / mask_keyspace ctx)); [lia|].
    rewrite Hg. reflexivity. }
  eexists _, _.
  split; [exact (Hnext k1 Hk1 Hw1 _ G1)|].
  split; [exact (Hnext k2 Hk2 Hw2 _ G2)|].
  intros Heq.
  assert (Hnd : Forall (fun p => nonword p -> NoDup (position_bytes ctx p))
                  (positions ctx)).
  { destruct Hc as (_ & _ & Hok & _).
    apply Forall_forall. intros p Hp Hnw.
    pose proof (proj1 (Forall_forall _ _) Hok p Hp) as Hpok.
    destruct (charset p) as [| | | | | | | | |slot|] eqn:Hcs;
      try (apply builtin_position_NoDup; [assumption | assumption | congruence]).
    exact (Hcustom p slot Hp Hcs). }
  rewrite Hps in Hnd. apply Forall_app in Hnd as (Hndp & Hnds).
  apply Forall_cons in Hnds as (_ & Hnds).
  assert (Hstrip : forall qs, Forall nonword qs ->
            Forall (fun p => nonword p -> NoDup (position_bytes ctx p)) qs ->
            Forall (fun p => NoDup (position_bytes ctx p)) qs).
  { intros qs Hq Hn. induction Hq as [|q qs Hq1 Hq2 IH]; [constructor|].
    apply Forall_cons in Hn as (Hn1 & Hn2). constructor; auto. }
  apply app_inj_1 in Heq as (Hpre & Hrest);
    [|rewrite !render_length by assumption; reflexivity].
  apply app_inv_head in Hrest.
  apply (render_inj ctx pre) in Hpre; try assumption; [|now apply Hstrip].
  apply (render_inj ctx suf) in Hrest; try assumption; [|now apply Hstrip].
  subst dpre2 dsuf2. rewrite <- Hds2 in Hds1.
  assert (Hmod : k1 mod mask_keyspace ctx = k2 mod mask_keyspace ctx).
  { rewrite <- (digits_to_index_to_digits (positions ctx) (k1 mod mask_keyspace ctx)),
            <- (digits_to_index_to_digits (positions ctx) (k2 mod mask_keyspace ctx));
      try assumption.
    - now rewrite Hds1.
    - pose proof (Z.mod_pos_bound k2 (mask_keyspace ctx) ltac:(lia)). lia.
    - pose proof (Z.mod_pos_bound k1 (mask_keyspace ctx) ltac:(lia)). lia. }
  apply Hne.
  rewrite (Z.div_mod k1 (mask_keyspace ctx)), (Z.div_mod k2 (mask_keyspace ctx)) by lia.
  now rewrite Hsame, Hmod.
Qed.

(** ** Literal patterns *)

Lemma pattern_scan_literals ctx : forall lits rest ps wp found,
  "?"%char ∉ lits -> (length ps + length lits <= 32)%nat ->
  pattern_scan ctx (lits ++ rest) ps wp found
  = pattern_scan ctx rest (ps ++ map literal_position lits) wp found.
Proof.
  induction lits as [|c lits IH]; intros rest ps wp found Hq Hlen.
  - cbn. now rewrite app_nil_r.
  - apply not_elem_of_cons in Hq as (Hc & Hq). cbn [length] in Hlen.
    cbn [app pattern_scan]. unfold PATTERN_MAX_POSITIONS.
    destruct (Z.leb_spec 32 (Z.of_nat (length ps))); [lia|].
    destruct (Ascii.eqb_spec c "?"); [congruence|].
    rewrite IH; [|assumption|rewrite length_app; cbn [length]; lia].
    cbn [map]. now rewrite <- app_assoc.
Qed.

Lemma parse_pattern_literals ctx pre suf :
  "?"%char ∉ pre -> "?"%char ∉ suf ->
  (length pre + length suf <= 31)%nat ->
  exists ctx',
    parse_pattern ctx (pre ++ "?"%char :: "W"%char :: suf) = Ok ctx'
    /\ positions ctx'
       = map literal_position pre
         ++ mkPos POS_WORD (ascii_of_nat 0) 0 PtrNull :: map literal_position suf
    /\ word_position ctx' = Z.of_nat (length pre).
Proof.
  intros Hp Hs Hlen. unfold parse_pattern.
  rewrite pattern_scan_literals by (cbn [length]; first [assumption | lia]).
  cbn [app pattern_scan]. unfold PATTERN_MAX_POSITIONS.
  rewrite length_map.
  destruct (Z.leb_spec 32 (Z.of_nat (length pre))); [lia|].
  change ("?" =? "?")%char with true. cbv iota.
  change (pattern_escape ctx "W" (Z.of_nat (length pre)) (wrap32 (-1)) false)
    with (@Ok (pattern_position * Z * bool)
            (mkPos POS_WORD (ascii_of_nat 0) 0 PtrNull, Z.of_nat (length pre), true)).
  cbn [mbind outcome_bind fst snd].
  pose proof (pattern_scan_literals ctx suf []
                (map literal_position pre
                 ++ [mkPos POS_WORD (ascii_of_nat 0) 0 PtrNull])
                (Z.of_nat (length pre)) true Hs) as Hsuf.
  rewrite app_nil_r in Hsuf. rewrite Hsuf
    by (rewrite length_app, length_map; cbn [length]; lia).
  cbn [pattern_scan mbind outcome_bind negb].
  destruct (count_prefix_suffix _ _) as [a b].
  eexists. split; [reflexivity|]. cbn [positions word_position].
  split; [now rewrite <- app_assoc | reflexivity].
Qed.

Lemma cs_option_word_pattern pre suf :
  cs_option (pre ++ "?"%char :: "W"%char :: suf) = None.
Proof.
  unfold cs_option.
  destruct pre as [|a [|b [|c pre]]]; cbn [app].
  - destruct suf; reflexivity.
  - reflexivity.
  - reflexivity.
  - reflexivity.
Qed.

Lemma render_literals ctx : forall cs ds,
  Forall2 digit_ok (map literal_position cs) ds ->
  render ctx (map literal_position cs) ds = cs.
Proof.
  unfold render. induction cs as [|c cs IH]; intros ds H.
  - inversion H; reflexivity.
  - cbn [map] in H. inversion H as [|? d ? ds' D F]; subst.
    cbn [map zip_with]. rewrite IH by assumption.
    unfold digit_ok in D. cbn in D. assert (d = 0) by lia. subst d.
    reflexivity.
Qed.

(** X12: a pattern whose only escape is [?W] passes its other characters
    through: the keyspace is the number of words, and the candidate of
    word [k] is the text before [?W], the word, and the text after [?W]
    (when that fits [PW_MAX]). *)
Theorem literal_pattern_candidates PW_MAX plugin wordlist pre suf file :
  PATTERN_MAX_POSITIONS <= PW_MAX < 2 ^ 31 ->
  "?"%char ∉ pre -> "?"%char ∉ suf ->
  (length pre + length suf <= 31)%nat ->
  file <> [] -> Z.of_nat (length file) <= SIZE_MAX / 8 ->
  exists ctx0 ctx t0,
    global_init [plugin; pre ++ "?"%char :: "W"%char :: suf; wordlist] = Ok ctx0
    /\ global_keyspace ctx0 file = Ok ctx
    /\ thread_init ctx file = Ok t0
    /\ mask_keyspace ctx = 1
    /\ total_keyspace ctx = word_count ctx
    /\ forall k off wl,
         0 <= k < word_count ctx ->
         rd (word_offsets ctx) k = Ok off ->
         rd (word_lengths ctx) k = Ok wl ->
         Z.of_nat (length pre) + wl + Z.of_nat (length suf) <= PW_MAX ->
         thread_next PW_MAX ctx (seek_state ctx t0 k)
         = Ok (Z.of_nat (length pre) + wl + Z.of_nat (length suf),
               pre ++ word_bytes file off wl ++ suf,
               advance_position (seek_state ctx t0 k) ctx).
Proof.
  intros HPW Hp Hs Hlen Hne Hsize.
  set (pattern := pre ++ "?"%char :: "W"%char :: suf).
  set (workv := [plugin; pattern; wordlist]).
  destruct (parse_pattern_literals init_charsets pre suf Hp Hs Hlen)
    as (ctx0 & Hparse & Hps0 & Hwp0).
  assert (Hinit : global_init workv = Ok ctx0).
  { unfold global_init, workv. cbn [drop parse_options].
    unfold pattern. rewrite cs_option_word_pattern.
    cbn [mbind outcome_bind fst snd]. exact Hparse. }
  pose proof (compiled_radix_ok _ (global_init_compiled _ _ Hinit)) as Hrad0.
  assert (Hsz : Z.of_nat (length file) <= SIZE_MAX).
  { change (SIZE_MAX / 8) with 2305843009213693951 in Hsize. unfold SIZE_MAX. lia. }
  destruct (count_words_lines file Hsz) as (_ & Hlc).
  pose proof (line_count_bounds file Hne) as Hb. rewrite <- Hlc in Hb.
  destruct (global_keyspace_good ctx0 file Hrad0 Hsz Hne ltac:(lia))
    as (ctx & Hks & Hwc & _).
  assert (Heng : engine workv file ctx) by (exists ctx0; auto).
  destruct (engine_thread_init _ _ _ Heng) as (t0 & Ht0).
  destruct (engine_facts _ _ _ Heng) as (Hc & Ht & Emk & Hmk & Hwcr & Etot).
  pose proof (global_keyspace_Ok _ _ _ Hks)
    as (_ & _ & _ & Eps & Ewp & _).
  assert (Hps : positions ctx
                = map literal_position pre
                  ++ mkPos POS_WORD (ascii_of_nat 0) 0 PtrNull
                     :: map literal_position suf) by congruence.
  assert (Hprod : mask_product (positions ctx) = 1).
  { rewrite Hps. clear. induction pre as [|c pre IH]; cbn.
    - induction suf as [|c suf IH]; cbn; [reflexivity | now rewrite IH].
    - now rewrite IH. }
  assert (Hmk1 : mask_keyspace ctx = 1).
  { rewrite Emk, Hprod. unfold UINT64_MAX. lia. }
  assert (Htot : total_keyspace ctx = word_count ctx).
  { rewrite Etot, Hmk1.
    change (SIZE_MAX / 8) with 2305843009213693951 in Hwcr.
    unfold UINT64_MAX. lia. }
  exists ctx0, ctx, t0.
  split; [exact Hinit|]. split; [exact Hks|]. split; [exact Ht0|].
  split; [exact Hmk1|]. split; [exact Htot|].
  intros k off wl Hk Hoff Hwl Hfit.
  pose proof (thread_init_cursor_ok _ _ _ Hc Ht0) as Hcur.
  destruct (candidate_formula PW_MAX ctx file t0 k HPW Hc Ht Hcur ltac:(lia)
              ltac:(lia) ltac:(rewrite Hmk1, Z.div_1_r; lia))
    as (pre' & w' & suf' & dpre & dsuf & off' & wl' & Hps' & Hwp' & _ & _ & _
        & Fp & Fs & Hoff' & Hwl' & _ & Hwlr & _ & Hgen).
  rewrite Hmk1, Z.div_1_r in Hoff', Hwl'.
  assert (off' = off) by congruence. assert (wl' = wl) by congruence.
  subst off' wl'.
  rewrite Hps in Hps'.
  apply app_inj_1 in Hps' as (<- & Hcons);
    [|rewrite length_map; rewrite Ewp, Hwp0 in Hwp'; lia].
  inversion Hcons; subst w' suf'; clear Hcons.
  rewrite !length_map in *.
  unfold PATTERN_MAX_POSITIONS in HPW.
  destruct (Hgen ltac:(lia)) as (Hg & Hbl). cbv zeta in Hg, Hbl.
  rewrite !render_literals in Hg, Hbl by assumption.
  rewrite (take_ge (word_bytes file off wl)) in Hg, Hbl
    by (unfold word_bytes; rewrite length_take; lia).
  rewrite (take_ge suf) in Hg, Hbl by lia.
  unfold thread_next.
  rewrite (seek_state_fields ctx t0 k) at 1 by lia. cbn [current_word_idx].
  rewrite Hmk1, Z.div_1_r.
  destruct (Z.leb_spec (word_count ctx) k); [lia|].
  rewrite Hg. cbn [mbind outcome_bind fst snd]. rewrite Hbl.
  do 3 f_equal. lia.
Qed.

(** ** Final newline and custom positions *)

Lemma build_word_index_record ctx data ctx' :
  build_word_index ctx data = Ok ctx' ->
  ctx' = {| positions := positions ctx;
            word_position := word_position ctx;
            prefix_len := prefix_len ctx;
            suffix_len := suffix_len ctx;
            cs_custom := cs_custom ctx;
            cs_custom_len := cs_custom_len ctx;
            cs_custom_defined := cs_custom_defined ctx;
            word_count := count_words data;
            mask_keyspace := mask_keyspace ctx;
            total_keyspace := total_keyspace ctx;
            word_offsets := word_offsets ctx';
            word_lengths := word_lengths ctx' |}.
Proof.
  unfold build_word_index.
  destruct (count_words data =? 0); [discriminate|].
  destruct (SIZE_MAX / 8 <? count_words data); [discriminate|].
  intros H. apply bind_Ok in H as (st & _ & H).
  apply bind_Ok in H as (tabs & _ & H). inversion H; subst. reflexivity.
Qed.

Lemma lines_final_newline data :
  data <> [] -> last data <> Some NL -> lines (data ++ [NL]) = lines data.
Proof.
  intros Hne Hlast.
  destruct (lines_characterized (data ++ [NL])) as (N1 & J1).
  destruct (lines_characterized data) as (N2 & J2).
  apply join_lines_inj; try assumption. unfold join_lines.
  rewrite J1, J2, last_snoc, Ascii.eqb_refl.
  destruct (last data) as [c|] eqn:Hl.
  - destruct (Ascii.eqb_spec c NL) as [->|_]; [congruence | reflexivity].
  - apply last_None in Hl. congruence.
Qed.

(** X13: the newline after the last line is optional: a buffer that does
    not end in a newline and the same buffer with a newline appended give
    the same tables and the same words. *)
Theorem final_newline_optional ctx data :
  data <> [] -> last data <> Some NL ->
  Z.of_nat (length data) + 1 <= SIZE_MAX ->
  build_word_index ctx (data ++ [NL]) = build_word_index ctx data
  /\ forall ctx', build_word_index ctx data = Ok ctx' ->
       recorded_words ctx' (data ++ [NL]) = recorded_words ctx' data.
Proof.
  intros Hne Hlast Hsize.
  pose proof (lines_final_newline data Hne Hlast) as Hlines.
  assert (Hs1 : Z.of_nat (length (data ++ [NL])) <= SIZE_MAX)
    by (rewrite length_app; cbn [length]; lia).
  assert (Hs2 : Z.of_nat (length data) <= SIZE_MAX) by lia.
  destruct (build_word_index_spec ctx (data ++ [NL]) Hs1) as (C1 & Z1 & B1 & O1).
  destruct (build_word_index_spec ctx data Hs2) as (C2 & Z2 & B2 & O2).
  cbv zeta in *. rewrite Hlines in *.
  split.
  - destruct (Z.eq_dec (Z.of_nat (length (lines data))) 0) as [H0|Hn0].
    { now rewrite (Z1 H0), (Z2 H0). }
    destruct (Z.lt_ge_cases (SIZE_MAX / 8) (Z.of_nat (length (lines data))))
      as [Hgt|Hle].
    { now rewrite (B1 Hgt), (B2 Hgt). }
    destruct (O1 ltac:(lia)) as (c1 & E1 & _ & Ho1 & Hl1).
    destruct (O2 ltac:(lia)) as (c2 & E2 & _ & Ho2 & Hl2).
    rewrite E1, E2. f_equal.
    rewrite (build_word_index_record _ _ _ E1), (build_word_index_record _ _ _ E2).
    now rewrite Ho1, Hl1, Ho2, Hl2, C1, C2.
  - intros ctx' Hb.
    pose proof (build_word_index_tables_ok ctx data ctx' Hs2 Hb) as (_ & _ & Hent).
    unfold recorded_words. apply list_eq. intros i.
    rewrite !lookup_zip_with.
    destruct (word_offsets ctx' !! i) as [off|] eqn:Hoff; [|reflexivity].
    destruct (word_lengths ctx' !! i) as [len|] eqn:Hlen; [|reflexivity].
    cbn. f_equal. destruct (Hent i off len Hoff Hlen) as (H0 & Hl & Hin).
    unfold word_bytes.
    rewrite drop_app_le by lia.
    apply take_app_le. rewrite length_drop. lia.
Qed.

Lemma pattern_escape_custom ctx spec num wp found p wp' found' :
  pattern_escape ctx spec num wp found = Ok (p, wp', found') ->
  forall k, charset p = PtrCustom k ->
    cs_custom_defined ctx !! k = Some true
    /\ cs_custom_len ctx !! k = Some (charset_len p).
Proof.
  unfold pattern_escape.
  assert (Hc : forall j t q,
            custom_position ctx j t = Ok q ->
            forall k, charset q = PtrCustom k ->
              cs_custom_defined ctx !! k = Some true
              /\ cs_custom_len ctx !! k = Some (charset_len q)).
  { intros j t q H k Hk. unfold custom_position in H.
    apply bind_Ok in H as (d & Hd & H).
    destruct d; cbn [negb] in H; [|discriminate].
    apply bind_Ok in H as (len & Hl & H). inversion H; subst q; clear H.
    cbn in Hk |- *. inversion Hk; subst k.
    apply rd_Ok in Hd as (_ & Hd). apply rd_Ok in Hl as (_ & Hl).
    rewrite Nat2Z.id in Hd, Hl. now split. }
  do 8 (case_if; [intros H; inversion H; subst; intros k Hk; discriminate|]).
  do 4 (case_if;
        [intros H; apply bind_Ok in H as (q & Hq & H); inversion H; subst;
         now apply (Hc _ _ _ Hq)|]).
  case_if.
  { destruct found; [discriminate|].
    intros H; inversion H; subst; intros k Hk; discriminate. }
  case_if; [|discriminate].
  intros H; inversion H; subst; intros k Hk; discriminate.
Qed.

Lemma pattern_scan_custom ctx :
  let P := fun p => forall k, charset p = PtrCustom k ->
             cs_custom_defined ctx !! k = Some true
             /\ cs_custom_len ctx !! k = Some (charset_len p) in
  forall n pattern ps wp found r,
    (length pattern <= n)%nat -> Forall P ps ->
    pattern_scan ctx pattern ps wp found = Ok r -> Forall P r.1.1.
Proof.
  intros P. induction n as [|n IH]; intros pattern ps wp found r Hn HP.
  - destruct pattern; [|simpl in Hn; lia]. simpl. intros H. now inversion H; subst.
  - destruct pattern as [|c rest]; [simpl; intros H; now inversion H; subst|].
    cbn [pattern_scan].
    destruct (PATTERN_MAX_POSITIONS <=? Z.of_nat (length ps)); [discriminate|].
    destruct (c =? "?")%char.
    + destruct rest as [|spec rest']; [discriminate|]. simpl in Hn.
      intros H. apply bind_Ok in H as ([[p wp1] f1] & He & Hs).
      cbn [fst snd] in Hs. apply IH in Hs; [assumption | lia |].
      apply Forall_app. split; [assumption|]. constructor; [|constructor].
      exact (pattern_escape_custom _ _ _ _ _ _ _ _ He).
    + simpl in Hn. intros H. apply IH in H; [assumption | lia |].
      apply Forall_app. split; [assumption|]. constructor; [|constructor].
      intros k Hk. discriminate.
Qed.

(** X14: a position compiled from [?1] .. [?4] enumerates the bytes stored
    for its slot: the slot is defined, the position's set size is the
    slot's length, between 1 and 256, and its bytes are the slot's bytes in
    order. *)
Theorem custom_position_reads_slot workv file ctx p k :
  engine workv file ctx ->
  p ∈ positions ctx -> charset p = PtrCustom k ->
  slot_defined ctx k = true
  /\ charset_len p = Z.of_nat (length (slot_bytes ctx k))
  /\ 1 <= charset_len p <= 256
  /\ position_bytes ctx p = slot_bytes ctx k.
Proof.
  intros (ctx0 & Hinit & _ & Hks) Hp Hk.
  apply global_keyspace_Ok in Hks
    as (_ & _ & _ & Eps & _ & Ecs & Elen & Edef & _).
  unfold global_init in Hinit.
  apply bind_Ok in Hinit as ([ctx1 rest] & Ho & Hpat). cbn [fst snd] in Hpat.
  apply (parse_options_registry_ok (length (drop 1 workv))) in Ho as (Hreg & _);
    [| lia | apply init_charsets_registry_ok].
  destruct rest as [|pattern [|wordlist rest']]; try discriminate.
  unfold parse_pattern in Hpat.
  apply bind_Ok in Hpat as ([[ps wp] f] & Hs & Hpat).
  pose proof (pattern_scan_custom ctx1 (length pattern) pattern [] _ _ _
                (le_n _) (Forall_nil_2 _) Hs) as HP.
  cbn [fst snd] in HP.
  destruct f; cbn [negb] in Hpat; [|discriminate].
  destruct (count_prefix_suffix _ _) as [a b].
  inversion Hpat; subst ctx0; clear Hpat. cbn in Eps, Ecs, Elen, Edef.
  rewrite Eps in Hp.
  destruct (proj1 (Forall_forall _ _) HP p Hp k Hk) as (Hd & Hl).
  destruct (registry_slot ctx1 k Hreg Hd) as (buf & len & Hbuf & Hbl & Hl' & Hr).
  assert (len = charset_len p) by congruence. subst len.
  split; [unfold slot_defined; now rewrite Edef, Hd|].
  assert (Hsb : slot_bytes ctx k = take (Z.to_nat (charset_len p)) buf).
  { unfold slot_bytes, slot_len. now rewrite Ecs, Elen, Hbuf, Hl. }
  rewrite Hsb, length_take.
  split; [lia|]. split; [lia|].
  apply list_eq. intros i. unfold position_bytes.
  rewrite list_lookup_fmap.
  destruct (Nat.lt_ge_cases i (Z.to_nat (charset_len p))) as [Hlt|Hge].
  - rewrite (proj2 (lookup_seqZ 0 (charset_len p) i (Z.of_nat i))) by lia.
    rewrite lookup_take_lt by lia. cbn.
    destruct (lookup_lt_is_Some_2 buf i ltac:(lia)) as [c Hc]. rewrite Hc. f_equal.
    unfold char_at, charset_read. rewrite Hk, Ecs.
    rewrite (rd_nat _ _ _ Hbuf). cbn [mbind outcome_bind].
    now rewrite (rd_nat _ _ _ Hc).
  - rewrite lookup_take_ge by lia.
    destruct (seqZ 0 (charset_len p) !! i) as [x|] eqn:Hx; [|reflexivity].
    apply lookup_seqZ in Hx. lia.
Qed.

(** ** Completeness and redefinition *)


Lemma expand_escape_ext ctx ctx' k spec acc :
  (forall j, j <> k -> slot_defined ctx' j = slot_defined ctx j
                       /\ slot_bytes ctx' j = slot_bytes ctx j) ->
  char_code spec <> 49 + Z.of_nat k ->
  expand_escape ctx' k spec acc = expand_escape ctx k spec acc.
Proof.
  intros Hext Hne. unfold expand_escape.
  destruct (builtin_set spec); [reflexivity|].
  destruct (spec =? "a")%char; [reflexivity|].
  destruct ((49 <=? char_code spec) && (char_code spec <=? 52)) eqn:Hr;
    [|reflexivity].
  apply andb_true_iff in Hr as (Hlo & Hhi). apply Z.leb_le in Hlo, Hhi.
  set (j := Z.to_nat (char_code spec - 49)).
  assert (Hj : j <> k) by (unfold j; lia).
  destruct (Hext j Hj) as (-> & ->).
  destruct (negb (slot_defined ctx j)); [reflexivity|].
  destruct (Nat.eqb_spec j k); [congruence | reflexivity].
Qed.

Lemma expansion_ext ctx ctx' k :
  (forall j, j <> k -> slot_defined ctx' j = slot_defined ctx j
                       /\ slot_bytes ctx' j = slot_bytes ctx j) ->
  forall n cs_def acc,
    (length cs_def <= n)%nat ->
    mentions_slot (Z.of_nat k) cs_def = false ->
    expansion ctx' k cs_def acc = expansion ctx k cs_def acc.
Proof.
  intros Hext. induction n as [|n IH]; intros cs_def acc Hn Hm.
  - destruct cs_def; [reflexivity | simpl in Hn; lia].
  - destruct cs_def as [|c rest]; [reflexivity|].
    cbn [expansion]. destruct (256 <=? length acc)%nat; [reflexivity|].
    unfold mentions_slot in Hm. cbn [existsb] in Hm.
    apply orb_false_iff in Hm as (_ & Hm).
    destruct (c =? "?")%char.
    + destruct rest as [|spec rest']; [reflexivity|]. simpl in Hn.
      cbn [existsb] in Hm. apply orb_false_iff in Hm as (Hs & Hm).
      apply Z.eqb_neq in Hs.
      rewrite (expand_escape_ext ctx ctx' k spec acc Hext Hs).
      destruct (expand_escape ctx k spec acc); try reflexivity.
      cbn [mbind outcome_bind]. apply IH; [lia | exact Hm].
    + simpl in Hn. apply IH; [lia | exact Hm].
Qed.

(** X16: defining a slot again replaces it: when the new definition does
    not mention the slot's own digit, the slot ends with the bytes it would
    hold had the earlier definition never been made, and the other slots
    are as the earlier definition left them. *)
Theorem redefinition_replaces_slot ctx cs_idx def1 def2 ctx1 :
  registry_ok ctx -> 0 <= cs_idx < 4 ->
  parse_custom_charset ctx cs_idx def1 = Ok ctx1 ->
  mentions_slot cs_idx def2 = false ->
  def2 <> [] ->
  (forall e, parse_custom_charset ctx1 cs_idx def2 = Err e
             <-> parse_custom_charset ctx cs_idx def2 = Err e)
  /\ forall ctx2,
       parse_custom_charset ctx1 cs_idx def2 = Ok ctx2 ->
       exists ctx2',
         parse_custom_charset ctx cs_idx def2 = Ok ctx2'
         /\ slot_bytes ctx2 (Z.to_nat cs_idx) = slot_bytes ctx2' (Z.to_nat cs_idx)
         /\ forall j, j <> Z.to_nat cs_idx ->
              slot_defined ctx2 j = slot_defined ctx1 j
              /\ slot_bytes ctx2 j = slot_bytes ctx1 j.
Proof.
  intros Hreg Hidx Hd1 Hm Hne.
  set (k := Z.to_nat cs_idx).
  pose proof (parse_custom_charset_registry_ok _ _ _ _ Hreg Hd1) as Hreg1.
  assert (Hother : forall c c' d,
            registry_ok c -> parse_custom_charset c cs_idx d = Ok c' ->
            forall j, j <> k ->
              slot_defined c' j = slot_defined c j
              /\ slot_bytes c' j = slot_bytes c j).
  { intros c c' d Hr Hp j Hj.
    destruct (parse_custom_charset_Ok _ _ _ _ Hr Hp)
      as (_ & _ & (buf & len & E1 & E2 & E3 & _) & _).
    unfold slot_defined, slot_bytes, slot_len. rewrite E1, E2, E3.
    fold k. rewrite !list_lookup_insert_ne by congruence. split; reflexivity. }
  assert (Hexp : expansion ctx1 k def2 [] = expansion ctx k def2 []).
  { apply (expansion_ext ctx ctx1 k (Hother _ _ _ Hreg Hd1) (length def2));
      [lia|]. unfold k. now rewrite Z2Nat.id by lia. }
  pose proof (parse_custom_charset_refines ctx1 cs_idx def2 Hreg1 Hidx) as R1.
  pose proof (parse_custom_charset_refines ctx cs_idx def2 Hreg Hidx) as R0.
  fold k in R1, R0. rewrite Hexp in R1.
  destruct (expansion ctx k def2 []) as [bytes|e0|].
  - destruct R1 as (_ & _ & _ & (c2 & E2 & _ & B2 & _)); [assumption|].
    destruct R0 as (_ & _ & _ & (c0 & E0 & _ & B0 & _)); [assumption|].
    split.
    + intros e. rewrite E2, E0. split; discriminate.
    + intros ctx2 H2. assert (ctx2 = c2) by congruence. subst c2.
      exists c0. split; [assumption|]. split; [congruence|].
      exact (Hother _ _ _ Hreg1 H2).
  - split.
    + intros e. now rewrite R1, R0.
    + intros ctx2 H2. rewrite R1 in H2. discriminate.
  - split.
    + intros e. now rewrite R1, R0.
    + intros ctx2 H2. rewrite R1 in H2. discriminate.
Qed.

(** ** Further worked instances *)

Lemma compiled_pattern_layout_witness :
  registry_ok init_charsets
  /\ parse_pattern init_charsets (list_ascii_of_string "?d?W") = Ok example_ctx0
  /\ prefix_len example_ctx0 = 1 /\ suffix_len example_ctx0 = 0.
Proof.
  assert (Hp : parse_pattern init_charsets (list_ascii_of_string "?d?W")
               = Ok example_ctx0) by reflexivity.
  split; [exact init_charsets_registry_ok|]. split; [exact Hp|].
  destruct (compiled_pattern_layout init_charsets _ _ init_charsets_registry_ok Hp)
    as (_ & _ & _ & Hpre & Hsuf & _).
  split; [rewrite Hpre; reflexivity | rewrite Hsuf; reflexivity].
Defined.

Lemma long_pattern_rejected_witness :
  registry_ok init_charsets
  /\ (32 < pattern_tokens (replicate 33 "a"%char))%nat
  /\ exists e, parse_pattern init_charsets (replicate 33 "a"%char) = Err e.
Proof.
  assert (Hlong : (32 < pattern_tokens (replicate 33 "a"%char))%nat)
    by (vm_compute; lia).
  split; [exact init_charsets_registry_ok|]. split; [exact Hlong|].
  exact (long_pattern_rejected init_charsets (replicate 33 "a"%char)
           init_charsets_registry_ok (or_introl Hlong)).
Defined.


Lemma global_init_defined_witness :
  options_safe [] (drop 1 example_custom_workv) = true
  /\ global_init example_custom_workv <> Undefined.
Proof.
  assert (Hsafe : options_safe [] (drop 1 example_custom_workv) = true)
    by reflexivity.
  split; [exact Hsafe|].
  exact (proj1 (global_init_defined example_custom_workv) Hsafe).
Defined.

Lemma global_keyspace_outcome_witness :
  global_init example_workv = Ok example_ctx0
  /\ Z.of_nat (length example_file) <= SIZE_MAX
  /\ global_keyspace example_ctx0 example_file = Ok example_ctx
  /\ 1 <= total_keyspace example_ctx <= UINT64_MAX.
Proof.
  assert (Hinit : global_init example_workv = Ok example_ctx0) by reflexivity.
  assert (Hsize : Z.of_nat (length example_file) <= SIZE_MAX)
    by (vm_compute; discriminate).
  split; [exact Hinit|]. split; [exact Hsize|]. split; [reflexivity|].
  destruct (global_keyspace_outcome example_workv example_ctx0 example_file
              Hinit Hsize) as (Hok & _).
  destruct (Hok example_ctx eq_refl) as (_ & _ & _ & _ & Ht).
  exact Ht.
Defined.

Lemma word_table_content_witness :
  Z.of_nat (length example_file) <= SIZE_MAX
  /\ exists ctx' off len,
       build_word_index example_ctx0 example_file = Ok ctx'
       /\ word_offsets ctx' !! 1%nat = Some off
       /\ word_lengths ctx' !! 1%nat = Some len
       /\ word_bytes example_file off len = list_ascii_of_string "cd".
Proof.
  assert (Hsize : Z.of_nat (length example_file) <= SIZE_MAX)
    by (vm_compute; discriminate).
  split; [exact Hsize|].
  destruct (build_word_index example_ctx0 example_file) as [ctx'| |] eqn:Hb;
    [|vm_compute in Hb; discriminate|vm_compute in Hb; discriminate].
  destruct (word_table_content example_ctx0 example_file ctx' Hsize Hb)
    as (_ & _ & _ & _ & Hent).
  destruct (Hent 1%nat (list_ascii_of_string "cd") ltac:(reflexivity))
    as (off & len & Ho & Hl & _ & _ & _ & _ & _ & _ & Hw).
  exists ctx', off, len. split; [reflexivity|]. split; [exact Ho|].
  split; [exact Hl|]. rewrite Hw; [reflexivity | vm_compute; reflexivity].
Defined.

Lemma word_list_round_trip_witness :
  let ws := [list_ascii_of_string "ab"; list_ascii_of_string "cd"] in
  exists ctx',
    build_word_index example_ctx0 (join_lines [CR; NL] ws) = Ok ctx'
    /\ recorded_words ctx' (join_lines [CR; NL] ws) = ws.
Proof.
  intros ws.
  assert (Hne : ws <> []) by discriminate.
  assert (Hws : Forall (fun w => (NL ∉ w) /\ (true = false -> last w <> Some CR)
                                 /\ Z.of_nat (length w) + 1 < 2 ^ 32) ws).
  { apply Forall_forall. intros w Hw. apply list_elem_of_In in Hw.
    simpl in Hw. destruct Hw as [<-|[<-|[]]];
      (split; [intros Hin; apply list_elem_of_In in Hin; simpl in Hin;
               intuition discriminate|];
       split; [intros Hf; discriminate Hf | vm_compute; reflexivity]). }
  assert (Hsize : Z.of_nat (length (join_lines [CR; NL] ws)) <= SIZE_MAX / 8)
    by (vm_compute; discriminate).
  destruct (word_list_round_trip example_ctx0 true ws Hne Hws Hsize)
    as (ctx' & Hb & _ & Hr).
  exists ctx'. split; [exact Hb | exact Hr].
Defined.

Lemma thread_seek_history_independent_witness :
  engine example_workv example_file example_ctx
  /\ cursor_reachable 256 example_ctx example_file example_thread
  /\ cursor_reachable 256 example_ctx example_file
       (seek_state example_ctx example_thread 5)
  /\ 13 < total_keyspace example_ctx
  /\ thread_seek example_ctx example_thread 13
     = thread_seek example_ctx (seek_state example_ctx example_thread 5) 13.
Proof.
  assert (H1 : cursor_reachable 256 example_ctx example_file example_thread)
    by (apply reach_init; reflexivity).
  assert (H2 : cursor_reachable 256 example_ctx example_file
                 (seek_state example_ctx example_thread 5)).
  { apply (reach_seek 256 example_ctx example_file example_thread 5);
      [exact H1 | unfold is_u64; lia | reflexivity]. }
  assert (Hoff : 13 < total_keyspace example_ctx) by (vm_compute; reflexivity).
  split; [exact example_engine|]. split; [exact H1|]. split; [exact H2|].
  split; [exact Hoff|].
  exact (proj1 (thread_seek_history_independent 256 example_workv example_file
                  example_ctx _ _ 13 example_engine H1 H2 Hoff)).
Defined.

Lemma seek_resumes_enumeration_witness :
  PATTERN_MAX_POSITIONS <= 256 < 2 ^ 31
  /\ word_count example_ctx * mask_product (positions example_ctx) <= UINT64_MAX
  /\ words_fit example_ctx
  /\ Z.of_nat 3 < total_keyspace example_ctx
  /\ exists tk rs tn,
       thread_seek example_ctx example_thread (Z.of_nat 3) = (true, None, tk)
       /\ next_calls 256 (3 + 2) example_ctx example_thread = Ok (rs, tn)
       /\ next_calls 256 2 example_ctx tk = Ok (drop 3 rs, tn).
Proof.
  assert (HPW : PATTERN_MAX_POSITIONS <= 256 < 2 ^ 31)
    by (split; [vm_compute; discriminate | vm_compute; reflexivity]).
  assert (Hfit : word_count example_ctx * mask_product (positions example_ctx)
                 <= UINT64_MAX) by (vm_compute; discriminate).
  assert (Hk : Z.of_nat 3 < total_keyspace example_ctx) by (vm_compute; reflexivity).
  assert (Hkn : Z.of_nat 3 + Z.of_nat 2 <= total_keyspace example_ctx)
    by (vm_compute; discriminate).
  assert (Hr : cursor_reachable 256 example_ctx example_file example_thread)
    by (apply reach_init; reflexivity).
  assert (Hwords : words_fit example_ctx) by (repeat constructor).
  split; [exact HPW|]. split; [exact Hfit|]. split; [exact Hwords|].
  split; [exact Hk|].
  destruct (seek_resumes_enumeration 256 example_workv example_file example_ctx
              example_thread example_thread 3 2 HPW example_engine eq_refl Hfit
              Hwords Hr Hk Hkn) as (tk & rs & tn & H1 & H2 & H3 & _).
  exists tk, rs, tn. split; [exact H1|]. split; [exact H2 | exact H3].
Defined.

Lemma candidate_at_offset_witness :
  PATTERN_MAX_POSITIONS <= 256 < 2 ^ 31
  /\ 0 <= 13 < total_keyspace example_ctx
  /\ exists tk,
       thread_seek example_ctx example_thread 13 = (true, None, tk)
       /\ thread_next 256 example_ctx tk
          = Ok (3, list_ascii_of_string "3cd", advance_position tk example_ctx).
Proof.
  assert (HPW : PATTERN_MAX_POSITIONS <= 256 < 2 ^ 31)
    by (split; [vm_compute; discriminate | vm_compute; reflexivity]).
  assert (Hk : 0 <= 13 < total_keyspace example_ctx)
    by (split; [lia | vm_compute; reflexivity]).
  assert (Hr : cursor_reachable 256 example_ctx example_file example_thread)
    by (apply reach_init; reflexivity).
  split; [exact HPW|]. split; [exact Hk|].
  destruct (candidate_at_offset 256 example_workv example_file example_ctx
              example_thread 13 HPW example_engine Hr Hk)
    as (tk & off & wl & Hs & Hoff & Hwl & Hnext).
  exists tk. split; [exact Hs|].
  assert (Eo : off = 3) by (vm_compute in Hoff; congruence).
  assert (El : wl = 2) by (vm_compute in Hwl; congruence).
  subst off wl.
  destruct (Hnext ltac:(vm_compute; reflexivity)) as (Hn & _).
  exact Hn.
Defined.

Lemma candidates_distinct_witness :
  PATTERN_MAX_POSITIONS <= 256 < 2 ^ 31
  /\ 13 / mask_keyspace example_ctx = 14 / mask_keyspace example_ctx
  /\ rd (word_lengths example_ctx) (13 / mask_keyspace example_ctx) = Ok 2
  /\ exists out1 out2,
       thread_next 256 example_ctx (seek_state example_ctx example_thread 13)
       = Ok (Z.of_nat (length out1), out1,
             advance_position (seek_state example_ctx example_thread 13) example_ctx)
       /\ thread_next 256 example_ctx (seek_state example_ctx example_thread 14)
          = Ok (Z.of_nat (length out2), out2,
                advance_position (seek_state example_ctx example_thread 14) example_ctx)
       /\ out1 <> out2.
Proof.
  assert (HPW : PATTERN_MAX_POSITIONS <= 256 < 2 ^ 31)
    by (split; [vm_compute; discriminate | vm_compute; reflexivity]).
  assert (Hr : cursor_reachable 256 example_ctx example_file example_thread)
    by (apply reach_init; reflexivity).
  assert (Hsame : 13 / mask_keyspace example_ctx = 14 / mask_keyspace example_ctx)
    by reflexivity.
  assert (Hwl : rd (word_lengths example_ctx) (13 / mask_keyspace example_ctx) = Ok 2)
    by reflexivity.
  split; [exact HPW|]. split; [exact Hsame|]. split; [exact Hwl|].
  apply (candidates_distinct 256 example_workv example_file example_ctx
           example_thread 13 14 2 HPW example_engine Hr).
  - intros p slot Hp Hc. apply list_elem_of_In in Hp. simpl in Hp.
    destruct Hp as [<-|[<-|[]]]; discriminate Hc.
  - split; [lia | vm_compute; reflexivity].
  - split; [lia | vm_compute; reflexivity].
  - exact Hsame.
  - lia.
  - exact Hwl.
  - vm_compute; discriminate.
Defined.

Lemma literal_pattern_candidates_witness :
  PATTERN_MAX_POSITIONS <= 256 < 2 ^ 31
  /\ exists ctx0 ctx t0,
       global_init [list_ascii_of_string "feed_pattern_dict.so";
                    list_ascii_of_string "x" ++ "?"%char :: "W"%char
                      :: list_ascii_of_string "y";
                    list_ascii_of_string "words.txt"] = Ok ctx0
       /\ global_keyspace ctx0 example_file = Ok ctx
       /\ thread_init ctx example_file = Ok t0
       /\ total_keyspace ctx = word_count ctx.
Proof.
  assert (HPW : PATTERN_MAX_POSITIONS <= 256 < 2 ^ 31)
    by (split; [vm_compute; discriminate | vm_compute; reflexivity]).
  split; [exact HPW|].
  destruct (literal_pattern_candidates 256
              (list_ascii_of_string "feed_pattern_dict.so")
              (list_ascii_of_string "words.txt")
              (list_ascii_of_string "x") (list_ascii_of_string "y")
              example_file HPW)
    as (ctx0 & ctx & t0 & H1 & H2 & H3 & _ & H5 & _).
  - intros Hin. apply list_elem_of_In in Hin. simpl in Hin. intuition discriminate.
  - intros Hin. apply list_elem_of_In in Hin. simpl in Hin. intuition discriminate.
  - vm_compute. lia.
  - discriminate.
  - vm_compute. discriminate.
  - exists ctx0, ctx, t0. repeat split; assumption.
Defined.

Lemma final_newline_optional_witness :
  let data := list_ascii_of_string "ab" ++ [NL] ++ list_ascii_of_string "cd" in
  data <> [] /\ last data <> Some NL
  /\ build_word_index example_ctx0 (data ++ [NL])
     = build_word_index example_ctx0 data.
Proof.
  intros data.
  assert (Hne : data <> []) by discriminate.
  assert (Hlast : last data <> Some NL) by (vm_compute; discriminate).
  split; [exact Hne|]. split; [exact Hlast|].
  apply (final_newline_optional example_ctx0 data Hne Hlast).
  vm_compute. discriminate.
Defined.

Lemma custom_position_reads_slot_witness :
  engine example_custom_workv ["x"%char] example_custom_ctx
  /\ position_bytes example_custom_ctx
       (mkPos POS_CUSTOM_1 (ascii_of_nat 0) 36 (PtrCustom 0))
     = slot_bytes example_custom_ctx 0.
Proof.
  assert (Heng : engine example_custom_workv ["x"%char] example_custom_ctx).
  { eexists. split; [vm_compute; reflexivity|].
    split; [vm_compute; discriminate | vm_compute; reflexivity]. }
  split; [exact Heng|].
  apply (custom_position_reads_slot example_custom_workv ["x"%char]
           example_custom_ctx _ 0%nat Heng).
  - apply list_elem_of_In. left. reflexivity.
  - reflexivity.
Defined.


Lemma redefinition_replaces_slot_witness :
  registry_ok init_charsets
  /\ parse_custom_charset init_charsets 0 (list_ascii_of_string "abc")
     = Ok example_slot_ctx
  /\ mentions_slot 0 (list_ascii_of_string "xy") = false
  /\ exists ctx2 ctx2',
       parse_custom_charset example_slot_ctx 0 (list_ascii_of_string "xy") = Ok ctx2
       /\ parse_custom_charset init_charsets 0 (list_ascii_of_string "xy") = Ok ctx2'
       /\ slot_bytes ctx2 0 = slot_bytes ctx2' 0.
Proof.
  assert (H1 : parse_custom_charset init_charsets 0 (list_ascii_of_string "abc")
               = Ok example_slot_ctx) by reflexivity.
  assert (Hm : mentions_slot 0 (list_ascii_of_string "xy") = false) by reflexivity.
  split; [exact init_charsets_registry_ok|]. split; [exact H1|]. split; [exact Hm|].
  destruct (redefinition_replaces_slot init_charsets 0 (list_ascii_of_string "abc")
              (list_ascii_of_string "xy") example_slot_ctx
              init_charsets_registry_ok ltac:(lia) H1 Hm ltac:(discriminate))
    as (_ & Hok).
  destruct (parse_custom_charset example_slot_ctx 0 (list_ascii_of_string "xy"))
    as [ctx2| |] eqn:H2;
    [|vm_compute in H2; discriminate|vm_compute in H2; discriminate].
  destruct (Hok ctx2 eq_refl) as (ctx2' & H3 & H4 & _).
  exists ctx2, ctx2'. split; [reflexivity|]. split; [exact H3 | exact H4].
Defined.

(** ** Reads stay in bounds *)

Lemma cursor_reachable_word_idx PW_MAX ctx file tctx :
  0 < mask_keyspace ctx ->
  cursor_reachable PW_MAX ctx file tctx -> 0 <= current_word_idx tctx.
Proof.
  intros Hmk Hr.
  induction Hr as [t Ht | t ret out t' Hr IH Hn | t off t' Hr IH Hoff Hs].
  - apply thread_init_Ok in Ht as (_ & _ & _ & -> & _). lia.
  - unfold thread_next in Hn.
    destruct (word_count ctx <=? current_word_idx t).
    { now inversion Hn; subst. }
    apply bind_Ok in Hn as (r & _ & Hn). inversion Hn; subst; clear Hn.
    unfold advance_position. cbn [current_word_idx].
    destruct (mask_keyspace ctx <=? _); [|assumption].
    pose proof (wrap64_range (current_word_idx t + 1)) as Hw.
    unfold is_u64 in Hw. lia.
  - unfold thread_seek in Hs.
    destruct (total_keyspace ctx <=? off); [discriminate|].
    inversion Hs; subst; clear Hs. cbn [current_word_idx].
    apply Z.div_pos; [unfold is_u64 in Hoff|]; lia.
Qed.

(** X17: on every cursor a consumer can hold, any number of calls of
    [thread_next] stays within defined behaviour: each call returns, having
    read the word tables, the character sets and the mapped file only
    inside their bounds, and leaves a cursor of the same kind. *)
Theorem next_calls_defined PW_MAX workv file ctx tctx (n : nat) :
  PATTERN_MAX_POSITIONS <= PW_MAX < 2 ^ 31 ->
  engine workv file ctx ->
  cursor_reachable PW_MAX ctx file tctx ->
  exists rs tn,
    next_calls PW_MAX n ctx tctx = Ok (rs, tn)
    /\ length rs = n
    /\ cursor_reachable PW_MAX ctx file tn.
Proof.
  intros HPW Heng.
  destruct (engine_facts _ _ _ Heng) as (Hc & Ht & _ & Hmk & _).
  revert tctx. induction n as [|n IH]; intros tctx Hr.
  - exists [], tctx. repeat split. assumption.
  - pose proof (cursor_reachable_ok PW_MAX ctx file tctx Hc ltac:(lia) Hr) as Hcur.
    pose proof (cursor_reachable_word_idx PW_MAX ctx file tctx ltac:(lia) Hr) as Hw.
    destruct (thread_next_defined PW_MAX HPW ctx file tctx Hc Ht Hcur Hw)
      as (ret & out & Hnext & _).
    set (t' := if word_count ctx <=? current_word_idx tctx then tctx
               else advance_position tctx ctx) in *.
    assert (Hr' : cursor_reachable PW_MAX ctx file t')
      by exact (reach_next PW_MAX ctx file tctx ret out t' Hr Hnext).
    destruct (IH t' Hr') as (rs & tn & Hrun & Hlen & Hrn).
    exists ((ret, out) :: rs), tn.
    cbn [next_calls]. rewrite Hnext. cbn [mbind outcome_bind fst snd].
    rewrite Hrun. cbn [mbind outcome_bind fst snd length].
    split; [reflexivity|]. split; [lia | assumption].
Qed.

Lemma next_calls_defined_witness :
  PATTERN_MAX_POSITIONS <= 256 < 2 ^ 31
  /\ engine example_workv example_file example_ctx
  /\ cursor_reachable 256 example_ctx example_file example_thread
  /\ exists rs tn,
       next_calls 256 25 example_ctx example_thread = Ok (rs, tn)
       /\ length rs = 25%nat.
Proof.
  assert (HPW : PATTERN_MAX_POSITIONS <= 256 < 2 ^ 31)
    by (split; [vm_compute; discriminate | vm_compute; reflexivity]).
  assert (Hr : cursor_reachable 256 example_ctx example_file example_thread)
    by (apply reach_init; reflexivity).
  split; [exact HPW|]. split; [exact example_engine|]. split; [exact Hr|].
  destruct (next_calls_defined 256 example_workv example_file example_ctx
              example_thread 25 HPW example_engine Hr) as (rs & tn & H1 & H2 & _).
  exists rs, tn. split; [exact H1 | exact H2].
Defined.
